(** * CVRP solver suite: a shallow embedding and its verified properties

    The development follows the Python sources:
    - [cvrp.py]: the problem model ([CVRP]), the distance matrix, the route
      distance and [validate_solution];
    - [algorithms/random_algorithm.py], [algorithms/genetic_algorithm.py],
      [algorithms/simulated_annealing.py], [algorithms/tabu_search.py] and
      [CVRP_Project/algorithms/greedy_algorithm.py]: the five strategies.

    Python integers are [Z]; Python floats are IEEE 754 binary64 values, taken
    from the Standard Library's executable specification [SpecFloat]
    (precision 53, maximal exponent 1024, round to nearest even); Python
    lists are [list]s indexed the Python way (negative indices count from
    the end, anything else out of range raises [IndexError]); the [set] of
    [validate_solution] is a [gset Z].  Exceptions are explicit: a Python
    function becomes a function into [outcome].  Loops that the source does
    not bound ([while] loops that retry) take fuel.  The module-level random
    generator is an explicit tape of raw draws threaded through the code. *)

From Stdlib Require Import ZArith Floats.SpecFloat Lia.
From stdpp Require Import base list gmap pretty.

Open Scope Z_scope.

(** ** Exceptions and outcomes *)

Inductive exn : Set :=
| IndexError
| ValueError
| ZeroDivisionError
| OverflowError
| TypeError.

Inductive outcome (A : Type) : Type :=
| Ok (a : A)
| Raise (e : exn)
| OutOfFuel.

Arguments Ok {A} a.
Arguments Raise {A} e.
Arguments OutOfFuel {A}.

#[global] Instance outcome_ret : MRet outcome := fun A a => Ok a.

#[global] Instance outcome_bind : MBind outcome := fun A B f m =>
  match m with
  | Ok a => f a
  | Raise e => Raise e
  | OutOfFuel => OutOfFuel
  end.

Definition is_Ok {A} (m : outcome A) : Prop := exists a, m = Ok a.

(** ** Python lists *)

Module Py.

(** [l[i]]: indices [-len(l) <= i < len(l)], [IndexError] otherwise. *)
Definition index {A} (l : list A) (i : Z) : outcome A :=
  let n := Z.of_nat (length l) in
  let j := if i <? 0 then i + n else i in
  if (0 <=? j) && (j <? n) then
    match l !! Z.to_nat j with
    | Some x => Ok x
    | None => Raise IndexError
    end
  else Raise IndexError.

(** [l[1:-1]]: the list without its first and its last element; empty when the
    list has fewer than three elements. *)
Definition interior {A} (l : list A) : list A :=
  take (length l - 2)%nat (drop 1 l).

(** [l[:-1]]. *)
Definition drop_last {A} (l : list A) : list A :=
  take (length l - 1)%nat l.

(** [l[:k]]: a negative [k] counts from the end. *)
Definition slice_to {A} (l : list A) (k : Z) : list A :=
  if k <? 0 then take (length l - Z.to_nat (- k))%nat l
  else take (Z.to_nat k) l.

(** [l[a:b] = r] for [0 <= a <= b]. *)
Definition set_slice {A} (l : list A) (a b : nat) (r : list A) : list A :=
  take a l ++ r ++ drop b l.

(** [[f(x) for x in l]], stopping at the first exception. *)
Fixpoint map_outcome {A B} (f : A -> outcome B) (l : list A)
  : outcome (list B) :=
  match l with
  | [] => Ok []
  | x :: rest => y ← f x; ys ← map_outcome f rest; Ok (y :: ys)
  end.

(** [l[a:b]] for [0 <= a] and [0 <= b]. *)
Definition slice {A} (l : list A) (a b : nat) : list A :=
  take (b - a)%nat (drop a l).

(** [l[i], l[j] = l[j], l[i]] for indices in range, as the callers draw them
    from [range(len(l))]: the right-hand side is read first, then [l[i]] and
    [l[j]] are written in this order. *)
Definition swap {A} (l : list A) (i j : nat) : list A :=
  match l !! i, l !! j with
  | Some x, Some y => <[j := x]> (<[i := y]> l)
  | _, _ => l
  end.

(** [l[i] = v], with the index read as in [index]. *)
Definition set_index {A} (l : list A) (i : Z) (v : A) : outcome (list A) :=
  let n := Z.of_nat (length l) in
  let j := if i <? 0 then i + n else i in
  if (0 <=? j) && (j <? n) then Ok (<[Z.to_nat j := v]> l)
  else Raise IndexError.

(** [for x in l: s = body(s, x)], stopping at the first exception. *)
Fixpoint for_each {A S} (body : S -> A -> outcome S) (l : list A) (s : S)
  : outcome S :=
  match l with
  | [] => Ok s
  | x :: rest => s' ← body s x; for_each body rest s'
  end.

(** [range(a, b)]. *)
Definition range (a b : Z) : list Z := seqZ a (b - a).

(** [str(x)] of an integer, of a list of integers and of a list of such lists,
    as CPython prints them: ["[[0, 1, 0], [0, 2, 0]]"]. *)
Fixpoint join (sep : string) (l : list string) : string :=
  match l with
  | [] => ""
  | [s] => s
  | s :: rest => s +:+ sep +:+ join sep rest
  end.

Definition str_int (z : Z) : string := pretty z.

Definition str_list (l : list Z) : string :=
  "[" +:+ join ", " (map str_int l) +:+ "]".

Definition str_lists (l : list (list Z)) : string :=
  "[" +:+ join ", " (map str_list l) +:+ "]".

End Py.

(** ** Python floats (binary64) *)

Module Float.

Definition float : Set := spec_float.

Definition prec : Z := 53.
Definition emax : Z := 1024.

Definition add : float -> float -> float := SFadd prec emax.
Definition sub : float -> float -> float := SFsub prec emax.
Definition mul : float -> float -> float := SFmul prec emax.
Definition div : float -> float -> float := SFdiv prec emax.
Definition neg : float -> float := SFopp.
Definition ltb : float -> float -> bool := SFltb.
Definition eqb : float -> float -> bool := SFeqb.

(** The float nearest to [m * 2^e]. *)
Definition of_Z_scaled (m e : Z) : float := binary_normalize prec emax m e false.

(** [float(z)] for an integer literal. *)
Definition of_Z (z : Z) : float := of_Z_scaled z 0.

Definition zero : float := S754_zero false.
Definition inf : float := S754_infinity false.
Definition nan : float := S754_nan.

Definition is_nan (x : float) : bool :=
  match x with S754_nan => true | _ => false end.

Definition is_inf (x : float) : bool :=
  match x with S754_infinity _ => true | _ => false end.

(** [x ** 2] on floats, as CPython's [float_pow] computes it: NaN and the
    zeros and infinities are answered directly; on a finite non-zero [x] the
    C library's [pow(x, 2.0)] is taken to be the correctly rounded square,
    and a result that overflows raises [OverflowError]. *)
Definition pow2 (x : float) : outcome float :=
  match x with
  | S754_nan => Ok S754_nan
  | S754_infinity _ => Ok inf
  | S754_zero _ => Ok zero
  | S754_finite _ _ _ =>
      let r := mul x x in
      if is_inf r then Raise OverflowError else Ok r
  end.

(** [math.sqrt(x)]: [ValueError] on a negative argument, the correctly
    rounded root otherwise. *)
Definition sqrt (x : float) : outcome float :=
  match x with
  | S754_infinity true | S754_finite true _ _ => Raise ValueError
  | _ => Ok (SFsqrt prec emax x)
  end.

End Float.

Abbreviation float := Float.float.

(** ** The problem model ([cvrp.py]) *)

Definition point : Set := float * float.

Record CVRP : Set := {
  depot : point;
  locations : list point;          (* the depot is index 0 *)
  demands : list Z;                (* the depot has demand 0 *)
  vehicle_capacity : Z;
  distance_matrix : list (list float)
}.

(** [math.sqrt((x2-x1)**2 + (y2-y1)**2)]. *)
Definition euclidean (p q : point) : outcome float :=
  let '(x1, y1) := p in
  let '(x2, y2) := q in
  dx2 ← Float.pow2 (Float.sub x2 x1);
  dy2 ← Float.pow2 (Float.sub y2 y1);
  Float.sqrt (Float.add dx2 dy2).

(** [matrix[i][j] = v]; the rows are distinct lists. *)
Definition set_entry (matrix : list (list float)) (i j : Z) (v : float)
  : outcome (list (list float)) :=
  row ← Py.index matrix i;
  row' ← Py.set_index row j v;
  Py.set_index matrix i row'.

Definition _create_distance_matrix (locations : list point)
  : outcome (list (list float)) :=
  let n := Z.of_nat (length locations) in
  let matrix := replicate (length locations)
                  (replicate (length locations) Float.zero) in
  Py.for_each (fun matrix i =>
    Py.for_each (fun matrix j =>
      p ← Py.index locations i;
      q ← Py.index locations j;
      dist ← euclidean p q;
      matrix ← set_entry matrix i j dist;
      set_entry matrix j i dist)
      (Py.range (i + 1) n) matrix)
    (Py.range 0 n) matrix.

(** [CVRP.__init__]. *)
Definition CVRP_init (depot : point) (locs : list point) (dems : list Z)
    (capacity : Z) : outcome CVRP :=
  let locations := depot :: locs in
  matrix ← _create_distance_matrix locations;
  Ok {| depot := depot;
        locations := locations;
        demands := 0 :: dems;
        vehicle_capacity := capacity;
        distance_matrix := matrix |}.

(** The loop of [calculate_route_distance]: [distance] is the running sum,
    [route] what is left from the current node on. *)
Fixpoint route_distance_from (matrix : list (list float)) (distance : float)
    (route : list Z) : outcome float :=
  match route with
  | from_node :: ((to_node :: _) as rest) =>
      row ← Py.index matrix from_node;
      d ← Py.index row to_node;
      route_distance_from matrix (Float.add distance d) rest
  | _ => Ok distance
  end.

Definition calculate_route_distance (c : CVRP) (route : list Z)
  : outcome float :=
  route_distance_from (distance_matrix c) Float.zero route.

(** The first loop of [validate_solution] over the interior of one route;
    [None] stands for the early [return False]. *)
Fixpoint visit_nodes (n : Z) (visited : gset Z) (nodes : list Z)
  : option (gset Z) :=
  match nodes with
  | [] => Some visited
  | node :: rest =>
      if bool_decide (node ∈ visited) || (node <=? 0) || (node >=? n)
      then None
      else visit_nodes n ({[node]} ∪ visited) rest
  end.

Fixpoint visit_routes (n : Z) (visited : gset Z) (routes : list (list Z))
  : option (gset Z) :=
  match routes with
  | [] => Some visited
  | route :: rest =>
      match visit_nodes n visited (Py.interior route) with
      | None => None
      | Some visited' => visit_routes n visited' rest
      end
  end.

(** [sum(self.demands[node] for node in route)], from the accumulator [acc]. *)
Fixpoint sum_demands (demands : list Z) (acc : Z) (route : list Z)
  : outcome Z :=
  match route with
  | [] => Ok acc
  | node :: rest =>
      d ← Py.index demands node;
      sum_demands demands (acc + d) rest
  end.

Fixpoint check_capacity (c : CVRP) (routes : list (list Z)) : outcome bool :=
  match routes with
  | [] => Ok true
  | route :: rest =>
      route_demand ← sum_demands (demands c) 0 route;
      if route_demand >? vehicle_capacity c then Ok false
      else check_capacity c rest
  end.

Fixpoint check_depots (routes : list (list Z)) : outcome bool :=
  match routes with
  | [] => Ok true
  | route :: rest =>
      first ← Py.index route 0;
      if negb (first =? 0) then Ok false
      else
        last ← Py.index route (-1);
        if negb (last =? 0) then Ok false
        else check_depots rest
  end.

Definition validate_solution (c : CVRP) (routes : list (list Z))
  : outcome bool :=
  let n := Z.of_nat (length (locations c)) in
  match visit_routes n ∅ routes with
  | None => Ok false
  | Some visited =>
      if negb (Z.of_nat (size visited) =? n - 1) then Ok false
      else
        cap_ok ← check_capacity c routes;
        if negb cap_ok then Ok false
        else check_depots routes
  end.

(** ** Route splitting

    [_split_to_routes] is the same text in [RandomAlgorithm],
    [GeneticAlgorithm] (also inlined in [_generate_random_solution]),
    [SimulatedAnnealing] and [TabuSearch]; it is embedded once. *)

Fixpoint split_loop (c : CVRP) (routes : list (list Z))
    (current_route : list Z) (current_load : Z) (customers : list Z)
  : outcome (list (list Z) * list Z) :=
  match customers with
  | [] => Ok (routes, current_route)
  | customer :: rest =>
      demand ← Py.index (demands c) customer;
      if current_load + demand >? vehicle_capacity c then
        split_loop c (routes ++ [current_route ++ [0]]) [0; customer]
          demand rest
      else
        split_loop c routes (current_route ++ [customer])
          (current_load + demand) rest
  end.

Definition _split_to_routes (c : CVRP) (customers : list Z)
  : outcome (list (list Z)) :=
  '(routes, current_route) ← split_loop c [] [0] 0 customers;
  if (1 <? length current_route)%nat then Ok (routes ++ [current_route ++ [0]])
  else Ok routes.

(** [sum(cvrp.calculate_route_distance(route) for route in solution)]: the
    [_calculate_cost] of the random, annealing and tabu strategies and the
    [_calculate_fitness] of the genetic one.  Python starts the sum from the
    integer [0]; it is the float zero here, which compares and adds alike. *)
Fixpoint sum_route_distances (c : CVRP) (acc : float)
    (solution : list (list Z)) : outcome float :=
  match solution with
  | [] => Ok acc
  | route :: rest =>
      d ← calculate_route_distance c route;
      sum_route_distances c (Float.add acc d) rest
  end.

Definition _calculate_cost (c : CVRP) (solution : list (list Z))
  : outcome float :=
  sum_route_distances c Float.zero solution.

(** ** Builtins on floats: [min], [max], [np.argmin] *)

Module Builtin.

(** [min(l)] keeps the first item and replaces it by each later item that is
    strictly smaller; [max(l)] by each that is strictly greater.  Both raise
    [ValueError] on an empty list. *)
Fixpoint min_from (best : float) (l : list float) : float :=
  match l with
  | [] => best
  | x :: rest => min_from (if Float.ltb x best then x else best) rest
  end.

Definition min (l : list float) : outcome float :=
  match l with
  | [] => Raise ValueError
  | x :: rest => Ok (min_from x rest)
  end.

Fixpoint max_from (best : float) (l : list float) : float :=
  match l with
  | [] => best
  | x :: rest => max_from (if Float.ltb best x then x else best) rest
  end.

Definition max (l : list float) : outcome float :=
  match l with
  | [] => Raise ValueError
  | x :: rest => Ok (max_from x rest)
  end.

(** [min(l, key=key)]: the key of each item is computed once, in order. *)
Fixpoint min_by_from {A} (key : A -> outcome float) (best : A)
    (best_key : float) (l : list A) : outcome A :=
  match l with
  | [] => Ok best
  | x :: rest =>
      k ← key x;
      if Float.ltb k best_key then min_by_from key x k rest
      else min_by_from key best best_key rest
  end.

Definition min_by {A} (key : A -> outcome float) (l : list A) : outcome A :=
  match l with
  | [] => Raise ValueError
  | x :: rest => k ← key x; min_by_from key x k rest
  end.

(** [np.argmin(l)]: the position of the first NaN when there is one, else of
    the first smallest item; [ValueError] on an empty list. *)
Fixpoint argmin_from (best_idx : nat) (best : float) (idx : nat)
    (l : list float) : nat :=
  match l with
  | [] => best_idx
  | x :: rest =>
      if Float.is_nan best then best_idx
      else if Float.is_nan x || Float.ltb x best
           then argmin_from idx x (S idx) rest
           else argmin_from best_idx best (S idx) rest
  end.

Definition argmin (l : list float) : outcome nat :=
  match l with
  | [] => Raise ValueError
  | x :: rest => Ok (argmin_from 0 x 1 rest)
  end.

(** [l.remove(x)]: the first occurrence goes; [ValueError] when there is
    none. *)
Fixpoint remove (x : Z) (l : list Z) : outcome (list Z) :=
  match l with
  | [] => Raise ValueError
  | y :: rest =>
      if x =? y then Ok rest
      else rest' ← remove x rest; Ok (y :: rest')
  end.

(** [l.sort(key=key)] on keys already computed: a stable sort, here by
    insertion from the right (an item goes behind the items with a strictly
    smaller key, so items with equal keys keep their order); on keys without
    NaN every stable sort returns this list. *)
Fixpoint insert_sorted {A} (x : A * float) (l : list (A * float))
  : list (A * float) :=
  match l with
  | [] => [x]
  | y :: rest =>
      if Float.ltb (snd y) (snd x) then y :: insert_sorted x rest
      else x :: y :: rest
  end.

Definition sort_keyed {A} (l : list (A * float)) : list (A * float) :=
  foldr (fun x acc => insert_sorted x acc) [] l.

(** [int(x)] of a float: truncation towards zero. *)
Definition int_of_float (x : float) : outcome Z :=
  match x with
  | S754_zero _ => Ok 0
  | S754_nan => Raise ValueError
  | S754_infinity _ => Raise OverflowError
  | S754_finite s m e =>
      let a := if 0 <=? e then Z.pos m * 2 ^ e else Z.pos m / 2 ^ (- e) in
      Ok (if s then - a else a)
  end.

(** [float(z)] of an integer, as mixed arithmetic converts it. *)
Definition float_of_int (z : Z) : outcome float :=
  let x := Float.of_Z z in
  if Float.is_inf x then Raise OverflowError else Ok x.

(** [x / y] on floats. *)
Definition truediv (x y : float) : outcome float :=
  match y with
  | S754_zero _ => Raise ZeroDivisionError
  | _ => Ok (Float.div x y)
  end.

End Builtin.

(** ** The random generator

    [random] is the interpreter's module-level generator.  Its state is a
    tape of raw draws: every call consumes draws from the front, and an
    exhausted tape keeps answering [0].  The library functions are modelled
    by their contracts: [random.sample] returns items at pairwise distinct
    positions, [random.shuffle] a rearrangement of its argument,
    [random.random] a multiple of [2^-53] in [[0, 1)]. *)

Definition tape : Set := list N.

Definition rand (A : Type) : Type := tape -> outcome (A * tape).

#[global] Instance rand_ret : MRet rand := fun A a t => Ok (a, t).

#[global] Instance rand_bind : MBind rand := fun A B f m t =>
  match m t with
  | Ok (a, t') => f a t'
  | Raise e => Raise e
  | OutOfFuel => OutOfFuel
  end.

Definition lift {A} (m : outcome A) : rand A := fun t =>
  match m with
  | Ok a => Ok (a, t)
  | Raise e => Raise e
  | OutOfFuel => OutOfFuel
  end.

Definition raise {A} (e : exn) : rand A := fun _ => Raise e.

Definition out_of_fuel {A} : rand A := fun _ => OutOfFuel.

(** [for _ in range(n): s = body(s)]. *)
Fixpoint repeat_loop {S} (n : nat) (body : S -> rand S) (s : S) : rand S :=
  match n with
  | O => mret s
  | S n' => s' ← body s; repeat_loop n' body s'
  end.

Module Random.

Definition raw : rand N := fun t =>
  match t with
  | [] => Ok (0%N, [])
  | r :: t' => Ok (r, t')
  end.

Definition randbelow (n : nat) : rand nat :=
  r ← raw; mret (N.to_nat (r mod N.of_nat n)%N).

Definition random : rand float :=
  r ← raw; mret (Float.of_Z_scaled (Z.of_N r mod 2 ^ 53) (-53)).

(** [k] items of [pool], each taken out of the pool when it is drawn. *)
Fixpoint pick {A} (pool : list A) (k : nat) : rand (list A) :=
  match k with
  | O => mret []
  | S k' =>
      j ← randbelow (length pool);
      match pool !! j with
      | Some x => rest ← pick (delete j pool) k'; mret (x :: rest)
      | None => mret []
      end
  end.

Definition sample {A} (population : list A) (k : Z) : rand (list A) :=
  if (k <? 0) || (Z.of_nat (length population) <? k) then raise ValueError
  else pick population (Z.to_nat k).

Definition shuffle {A} (x : list A) : rand (list A) := pick x (length x).

(** [i, j = random.sample(range(n), 2)]. *)
Definition sample_pair (n : nat) : rand (nat * nat) :=
  ij ← sample (seq 0 n) 2;
  match ij with
  | [i; j] => mret (i, j)
  | _ => raise ValueError
  end.

End Random.

(** ** What the strategies share *)

(** The numerical library functions whose values no property below depends
    on: [np.mean], [np.std] and [math.exp] (which raises [OverflowError]). *)
Record numlib : Set := {
  np_mean : list float -> float;
  np_std : list float -> float;
  math_exp : float -> outcome float
}.

Definition solution : Set := list (list Z).

(** The statistics dictionary: the lists under ['best'], under ['average']
    (['avg'] in the genetic strategy, ['current'] in annealing and tabu) and
    under ['worst']. *)
Record stats : Set := {
  stats_best : list float;
  stats_middle : list float;
  stats_worst : list float
}.

Definition empty_stats : stats :=
  {| stats_best := []; stats_middle := []; stats_worst := [] |}.

(** The dictionary every [run] returns; [best_solution] is [None] when the
    Python value is [None]. *)
Record result : Set := {
  best_solution : option solution;
  best_distance : float;
  average_distance : float;
  worst_distance : float;
  std_dev : float;
  result_stats : stats
}.

(** [list(range(1, len(self.cvrp.locations)))]. *)
Definition customers_of (c : CVRP) : list Z :=
  Py.range 1 (Z.of_nat (length (locations c))).

(** [customers = list(range(1, n)); random.shuffle(customers);
    return self._split_to_routes(customers)]: [_random_solution],
    [_generate_random_solution] and [_create_initial_solution]. *)
Definition _random_solution (c : CVRP) : rand solution :=
  customers ← Random.shuffle (customers_of c);
  lift (_split_to_routes c customers).

(** [[c for route in solution for c in route[1:-1]]]. *)
Definition flatten_interiors (s : solution) : list Z :=
  concat (map Py.interior s).

(** [[node for route in solution for node in route if node != 0]]. *)
Definition flatten_nonzero (s : solution) : list Z :=
  filter (fun node => node ≠ 0) (concat s).

(** ** [RandomAlgorithm] ([algorithms/random_algorithm.py]) *)

Module RandomAlgorithm.

Definition _update_stats (lib : numlib) (st : stats) (costs : list float)
  : outcome stats :=
  lo ← Builtin.min costs;
  hi ← Builtin.max costs;
  Ok {| stats_best := stats_best st ++ [lo];
        stats_middle := stats_middle st ++ [np_mean lib costs];
        stats_worst := stats_worst st ++ [hi] |}.

Definition _prepare_results (lib : numlib) (st : stats)
    (best_solution : option solution) (costs : list float) : outcome result :=
  lo ← Builtin.min costs;
  hi ← Builtin.max costs;
  Ok {| best_solution := best_solution;
        best_distance := lo;
        average_distance := np_mean lib costs;
        worst_distance := hi;
        std_dev := np_std lib costs;
        result_stats := st |}.

Record state : Set := {
  best_solution : option solution;
  best_cost : float;
  costs : list float;
  run_stats : stats
}.

Definition iteration (lib : numlib) (c : CVRP) (st : state) : rand state :=
  solution ← _random_solution c;
  cost ← lift (_calculate_cost c solution);
  let costs := costs st ++ [cost] in
  let improved := Float.ltb cost (best_cost st) in
  stats' ← lift (_update_stats lib (run_stats st) costs);
  mret {| best_solution := if improved then Some solution
                           else best_solution st;
          best_cost := if improved then cost else best_cost st;
          costs := costs;
          run_stats := stats' |}.

Definition run (lib : numlib) (c : CVRP) (num_iterations : Z) : rand result :=
  st ← repeat_loop (Z.to_nat num_iterations) (iteration lib c)
         {| best_solution := None;
            best_cost := Float.inf;
            costs := [];
            run_stats := empty_stats |};
  lift (_prepare_results lib (run_stats st) (best_solution st) (costs st)).

End RandomAlgorithm.

(** ** [GreedyAlgorithm] ([CVRP_Project/algorithms/greedy_algorithm.py]) *)

Module GreedyAlgorithm.

(** [[c for c in customers
      if self.cvrp.demands[c] + current_load <= self.cvrp.vehicle_capacity]]. *)
Fixpoint candidates_of (c : CVRP) (current_load : Z) (customers : list Z)
  : outcome (list Z) :=
  match customers with
  | [] => Ok []
  | x :: rest =>
      d ← Py.index (demands c) x;
      others ← candidates_of c current_load rest;
      Ok (if d + current_load <=? vehicle_capacity c then x :: others
          else others)
  end.

(** The [while customers:] loop; each turn spends one unit of fuel. *)
Fixpoint greedy_loop (fuel : nat) (c : CVRP) (routes : solution)
    (current_route : list Z) (current_load : Z) (customers : list Z)
  : outcome (solution * list Z) :=
  match customers with
  | [] => Ok (routes, current_route)
  | _ :: _ =>
      match fuel with
      | O => OutOfFuel
      | S fuel' =>
          last_city ← Py.index current_route (-1);
          candidates ← candidates_of c current_load customers;
          match candidates with
          | [] =>
              greedy_loop fuel' c (routes ++ [current_route ++ [0]]) [0] 0
                customers
          | _ :: _ =>
              next_city ← Builtin.min_by
                (fun x => row ← Py.index (distance_matrix c) last_city;
                          Py.index row x)
                candidates;
              d ← Py.index (demands c) next_city;
              customers' ← Builtin.remove next_city customers;
              greedy_loop fuel' c routes (current_route ++ [next_city])
                (current_load + d) customers'
          end
      end
  end.

Definition _greedy_solution (fuel : nat) (c : CVRP) : rand solution :=
  customers ← Random.shuffle (customers_of c);
  lift ('(routes, current_route) ← greedy_loop fuel c [] [0] 0 customers;
        if (1 <? length current_route)%nat
        then Ok (routes ++ [current_route ++ [0]])
        else Ok routes).

Definition _calculate_cost (c : CVRP) (s : solution) : outcome float :=
  match s with
  | [] => Ok Float.inf
  | _ :: _ => sum_route_distances c Float.zero s
  end.

Definition _update_stats (lib : numlib) (st : stats) (costs : list float)
  : outcome stats :=
  match costs with
  | [] => Ok st
  | _ :: _ =>
      lo ← Builtin.min costs;
      hi ← Builtin.max costs;
      Ok {| stats_best := stats_best st ++ [lo];
            stats_middle := stats_middle st ++ [np_mean lib costs];
            stats_worst := stats_worst st ++ [hi] |}
  end.

Definition _prepare_results (lib : numlib) (st : stats)
    (best_solution : solution) (costs : list float) : outcome result :=
  match costs with
  | [] =>
      Ok {| best_solution := Some [];
            best_distance := Float.inf;
            average_distance := Float.zero;
            worst_distance := Float.zero;
            std_dev := Float.zero;
            result_stats := st |}
  | _ :: _ =>
      lo ← Builtin.min costs;
      hi ← Builtin.max costs;
      Ok {| best_solution := Some best_solution;
            best_distance := lo;
            average_distance := np_mean lib costs;
            worst_distance := hi;
            std_dev := if (1 <? length costs)%nat then np_std lib costs
                       else Float.zero;
            result_stats := st |}
  end.

Record state : Set := {
  solutions : list solution;
  costs : list float;
  run_stats : stats
}.

Definition iteration (lib : numlib) (fuel : nat) (c : CVRP) (st : state)
  : rand state :=
  s ← _greedy_solution fuel c;
  cost ← lift (_calculate_cost c s);
  let costs := costs st ++ [cost] in
  stats' ← lift (_update_stats lib (run_stats st) costs);
  mret {| solutions := solutions st ++ [s];
          costs := costs;
          run_stats := stats' |}.

Definition run (lib : numlib) (fuel : nat) (c : CVRP) (num_runs : Z)
  : rand result :=
  st ← repeat_loop (Z.to_nat num_runs) (iteration lib fuel c)
         {| solutions := []; costs := []; run_stats := empty_stats |};
  best_idx ← lift (Builtin.argmin (costs st));
  best ← lift (Py.index (solutions st) (Z.of_nat best_idx));
  lift (_prepare_results lib (run_stats st) best (costs st)).

End GreedyAlgorithm.

(** ** [SimulatedAnnealing] ([algorithms/simulated_annealing.py]) *)

(** [_get_neighbor] of annealing and one turn of [_generate_neighbors] of
    tabu search: [None] when fewer than two interior customers exist. *)
Definition swap_neighbor (c : CVRP) (s : solution) : rand (option solution) :=
  let flat := flatten_interiors s in
  if (length flat <? 2)%nat then mret None
  else
    '(i, j) ← Random.sample_pair (length flat);
    s' ← lift (_split_to_routes c (Py.swap flat i j));
    mret (Some s').

(** [_update_stats] of annealing and of tabu search. *)
Definition trajectory_update_stats (st : stats) (best_cost current_cost : float)
  : outcome stats :=
  let best := stats_best st ++ [best_cost] in
  worst ← Builtin.max (best ++ [current_cost]);
  Ok {| stats_best := best;
        stats_middle := stats_middle st ++ [current_cost];
        stats_worst := stats_worst st ++ [worst] |}.

(** [_prepare_results] of annealing and of tabu search. *)
Definition trajectory_prepare_results (lib : numlib) (st : stats)
    (best_solution : option solution) (best_cost : float) : outcome result :=
  worst ← Builtin.max (stats_worst st);
  Ok {| best_solution := best_solution;
        best_distance := best_cost;
        average_distance := np_mean lib (stats_middle st);
        worst_distance := worst;
        std_dev := np_std lib (stats_middle st);
        result_stats := st |}.

Module SimulatedAnnealing.

Abbreviation _create_initial_solution := _random_solution.
Abbreviation _update_stats := trajectory_update_stats.
Abbreviation _prepare_results := trajectory_prepare_results.

Definition _get_neighbor (c : CVRP) (s : solution) : rand solution :=
  n ← swap_neighbor c s;
  mret (default s n).

Record state : Set := {
  current_solution : solution;
  current_cost : float;
  best_solution : solution;
  best_cost : float;
  temp : float;
  run_stats : stats
}.

Definition iteration (lib : numlib) (c : CVRP) (cooling_rate : float)
    (st : state) : rand state :=
  new_solution ← _get_neighbor c (current_solution st);
  new_cost ← lift (_calculate_cost c new_solution);
  let delta := Float.sub new_cost (current_cost st) in
  accept ←
    (if Float.ltb delta Float.zero then mret true
     else
       u ← Random.random;
       x ← lift (Builtin.truediv (Float.neg delta) (temp st));
       p ← lift (math_exp lib x);
       mret (Float.ltb u p));
  let improved := accept && Float.ltb new_cost (best_cost st) in
  let current_cost' := if accept then new_cost else current_cost st in
  let best_cost' := if improved then new_cost else best_cost st in
  stats' ← lift (_update_stats (run_stats st) best_cost'
                   current_cost');
  mret {| current_solution := if accept then new_solution
                              else current_solution st;
          current_cost := current_cost';
          best_solution := if improved then new_solution
                           else best_solution st;
          best_cost := best_cost';
          temp := Float.mul (temp st) cooling_rate;
          run_stats := stats' |}.

Definition run (lib : numlib) (c : CVRP) (initial_temp cooling_rate : float)
    (iterations : Z) : rand result :=
  current_solution ← _create_initial_solution c;
  current_cost ← lift (_calculate_cost c current_solution);
  st ← repeat_loop (Z.to_nat iterations) (iteration lib c cooling_rate)
         {| current_solution := current_solution;
            current_cost := current_cost;
            best_solution := current_solution;
            best_cost := current_cost;
            temp := initial_temp;
            run_stats := empty_stats |};
  lift (_prepare_results lib (run_stats st)
          (Some (best_solution st)) (best_cost st)).

End SimulatedAnnealing.

(** ** [TabuSearch] ([algorithms/tabu_search.py]) *)

Module TabuSearch.

Abbreviation _create_initial_solution := _random_solution.
Abbreviation _update_stats := trajectory_update_stats.
Abbreviation _prepare_results := trajectory_prepare_results.

Definition _generate_neighbors (c : CVRP) (neighborhood_size : Z)
    (s : solution) : rand (list solution) :=
  neighbors ← repeat_loop (Z.to_nat neighborhood_size)
    (fun neighbors =>
       n ← swap_neighbor c s;
       mret (match n with
             | None => neighbors
             | Some neighbor => neighbors ++ [neighbor]
             end))
    [];
  mret (match neighbors with
        | [] => [s]
        | _ :: _ => neighbors
        end).

(** The loop that pairs each neighbour with its cost. *)
Definition evaluate (c : CVRP) (neighbors : list solution)
  : outcome (list (solution * float)) :=
  Py.map_outcome (fun neighbor =>
                    cost ← _calculate_cost c neighbor;
                    Ok (neighbor, cost))
    neighbors.

(** The loop that finds the best neighbour that is not tabu. *)
Fixpoint best_non_tabu (tabu_list : list string)
    (best_candidate : option solution) (best_candidate_cost : float)
    (neighbor_costs : list (solution * float)) : option solution * float :=
  match neighbor_costs with
  | [] => (best_candidate, best_candidate_cost)
  | (neighbor, cost) :: rest =>
      if Float.ltb cost best_candidate_cost
         && negb (bool_decide (Py.str_lists neighbor ∈ tabu_list))
      then best_non_tabu tabu_list (Some neighbor) cost rest
      else best_non_tabu tabu_list best_candidate best_candidate_cost rest
  end.

Record state : Set := {
  current_solution : solution;
  current_cost : float;
  best_solution : option solution;
  best_cost : float;
  tabu_list : list string;
  run_stats : stats
}.

(** The body of the loop of [run] after the neighbours were evaluated and
    before the statistics are updated. *)
Definition move (tabu_size : Z) (st : state)
    (neighbor_costs : list (solution * float)) : state :=
  let '(best_candidate, best_candidate_cost) :=
    best_non_tabu (tabu_list st) None Float.inf neighbor_costs in
  let improved := Float.ltb best_candidate_cost (best_cost st) in
  let best_solution' := if improved then best_candidate
                        else best_solution st in
  let best_cost' := if improved then best_candidate_cost else best_cost st in
  match best_candidate with
  | Some ((_ :: _) as candidate) =>
      let pushed := tabu_list st ++ [Py.str_lists candidate] in
      {| current_solution := candidate;
         current_cost := best_candidate_cost;
         best_solution := best_solution';
         best_cost := best_cost';
         tabu_list := if tabu_size <? Z.of_nat (length pushed)
                      then drop 1 pushed else pushed;
         run_stats := run_stats st |}
  | _ =>
      {| current_solution := current_solution st;
         current_cost := current_cost st;
         best_solution := best_solution';
         best_cost := best_cost';
         tabu_list := tabu_list st;
         run_stats := run_stats st |}
  end.

Definition iteration (c : CVRP) (tabu_size neighborhood_size : Z)
    (st : state) : rand state :=
  neighbors ← _generate_neighbors c neighborhood_size (current_solution st);
  neighbor_costs ← lift (evaluate c neighbors);
  let st' := move tabu_size st neighbor_costs in
  stats' ← lift (_update_stats (run_stats st') (best_cost st')
                   (current_cost st'));
  mret {| current_solution := current_solution st';
          current_cost := current_cost st';
          best_solution := best_solution st';
          best_cost := best_cost st';
          tabu_list := tabu_list st';
          run_stats := stats' |}.

Definition run (lib : numlib) (c : CVRP)
    (iterations tabu_size neighborhood_size : Z) : rand result :=
  current_solution ← _create_initial_solution c;
  current_cost ← lift (_calculate_cost c current_solution);
  st ← repeat_loop (Z.to_nat iterations)
         (iteration c tabu_size neighborhood_size)
         {| current_solution := current_solution;
            current_cost := current_cost;
            best_solution := Some current_solution;
            best_cost := current_cost;
            tabu_list := [];
            run_stats := empty_stats |};
  lift (_prepare_results lib (run_stats st) (best_solution st)
          (best_cost st)).

End TabuSearch.

(** ** [GeneticAlgorithm] ([algorithms/genetic_algorithm.py]) *)

Module GeneticAlgorithm.

Abbreviation _generate_random_solution := _random_solution.

(** The attributes [__init__] stores; [elitism] is already
    [int(elitism * pop_size)]. *)
Record t : Set := {
  cvrp : CVRP;
  pop_size : Z;
  generations : Z;
  mutation_rate : float;
  crossover_rate : float;
  tournament_size : Z;
  elitism : Z;
  population : list solution
}.

(** The [while len(population) < self.pop_size:] loop of
    [_initialize_population]. *)
Fixpoint _initialize_population (fuel : nat) (c : CVRP) (pop_size : Z)
    (population : list solution) : rand (list solution) :=
  if Z.of_nat (length population) <? pop_size then
    match fuel with
    | O => out_of_fuel
    | S fuel' =>
        s ← _generate_random_solution c;
        ok ← lift (validate_solution c s);
        _initialize_population fuel' c pop_size
          (if ok : bool then population ++ [s] else population)
    end
  else mret population.

Definition __init__ (fuel : nat) (c : CVRP) (pop_size generations : Z)
    (mutation_rate crossover_rate : float) (tournament_size : Z)
    (elitism : float) : rand t :=
  n ← lift (Builtin.float_of_int pop_size);
  elite ← lift (Builtin.int_of_float (Float.mul elitism n));
  population ← _initialize_population fuel c pop_size [];
  mret {| cvrp := c;
          pop_size := pop_size;
          generations := generations;
          mutation_rate := mutation_rate;
          crossover_rate := crossover_rate;
          tournament_size := tournament_size;
          elitism := elite;
          population := population |}.

Definition _calculate_fitness (c : CVRP) (s : solution) : outcome float :=
  sum_route_distances c Float.zero s.

Definition _tournament_selection (c : CVRP) (population : list solution)
    (tournament_size : Z) : rand solution :=
  tournament ← Random.sample population tournament_size;
  lift (Builtin.min_by (_calculate_fitness c) tournament).

(** The [for i in range(size):] loop of [_ordered_crossover]; [idxs] is what
    is left of [range(size)]. *)
Fixpoint fill (start end_ size : nat) (flat2 : list Z) (idxs : list nat)
    (child : list Z) (ptr : nat) : outcome (list Z) :=
  match idxs with
  | [] => Ok child
  | i :: rest =>
      let ptr := if (ptr =? start)%nat then end_ else ptr in
      if (size <=? ptr)%nat then Ok child
      else
        x ← Py.index flat2 (Z.of_nat i);
        if bool_decide (x ∈ Py.slice child start end_)
        then fill start end_ size flat2 rest child ptr
        else
          child' ← Py.set_index child (Z.of_nat ptr) x;
          fill start end_ size flat2 rest child' (S ptr)
  end.

(** The child of [_ordered_crossover] before it is split, for the cut
    points [start <= end_]. *)
Definition crossover_child (flat1 flat2 : list Z) (start end_ : nat)
  : outcome (list Z) :=
  let size := length flat1 in
  let child := replicate size (-1) in
  let child := Py.set_slice child start end_ (Py.slice flat1 start end_) in
  fill start end_ size flat2 (seq 0 size) child 0.

Definition _ordered_crossover (c : CVRP) (parent1 parent2 : solution)
  : rand solution :=
  let flat1 := Py.drop_last (flatten_nonzero parent1) in
  let flat2 := Py.drop_last (flatten_nonzero parent2) in
  '(i, j) ← Random.sample_pair (length flat1);
  child ← lift (crossover_child flat1 flat2 (Nat.min i j) (Nat.max i j));
  lift (_split_to_routes c child).

Definition _mutate (c : CVRP) (mutation_rate : float) (s : solution)
  : rand solution :=
  u ← Random.random;
  if Float.ltb u mutation_rate then
    let flat := flatten_nonzero s in
    '(idx1, idx2) ← Random.sample_pair (length flat);
    lift (_split_to_routes c (Py.swap flat idx1 idx2))
  else mret s.

(** The [while len(new_pop) < self.pop_size:] loop of [run]. *)
Fixpoint offspring (fuel : nat) (g : t) (population new_pop : list solution)
  : rand (list solution) :=
  if Z.of_nat (length new_pop) <? pop_size g then
    match fuel with
    | O => out_of_fuel
    | S fuel' =>
        parent1 ← _tournament_selection (cvrp g) population
                    (tournament_size g);
        parent2 ← _tournament_selection (cvrp g) population
                    (tournament_size g);
        u ← Random.random;
        child ← (if Float.ltb u (crossover_rate g)
                 then _ordered_crossover (cvrp g) parent1 parent2
                 else mret parent1);
        child ← _mutate (cvrp g) (mutation_rate g) child;
        ok ← lift (validate_solution (cvrp g) child);
        offspring fuel' g population
          (if ok : bool then new_pop ++ [child] else new_pop)
    end
  else mret new_pop.

(** One turn of the generation loop: the population and the statistics. *)
Definition generation (lib : numlib) (fuel : nat) (g : t)
    (ps : list solution * stats) : rand (list solution * stats) :=
  let '(population, st) := ps in
  fitness ← lift (Py.map_outcome (_calculate_fitness (cvrp g)) population);
  lo ← lift (Builtin.min fitness);
  hi ← lift (Builtin.max fitness);
  let st' := {| stats_best := stats_best st ++ [lo];
                stats_middle := stats_middle st ++ [np_mean lib fitness];
                stats_worst := stats_worst st ++ [hi] |} in
  (* the sort computes the same keys again *)
  let sorted := map fst (Builtin.sort_keyed (zip population fitness)) in
  let new_pop := Py.slice_to sorted (elitism g) in
  new_pop ← offspring fuel g sorted new_pop;
  mret (new_pop, st').

Definition run (lib : numlib) (fuel : nat) (g : t) : rand result :=
  '(population, st) ← repeat_loop (Z.to_nat (generations g))
                         (generation lib fuel g) (population g, empty_stats);
  final_fitness ← lift (Py.map_outcome (_calculate_fitness (cvrp g))
                          population);
  best ← lift (Builtin.min_by (_calculate_fitness (cvrp g)) population);
  lo ← lift (Builtin.min final_fitness);
  hi ← lift (Builtin.max final_fitness);
  mret {| best_solution := Some best;
          best_distance := lo;
          average_distance := np_mean lib final_fitness;
          worst_distance := hi;
          std_dev := np_std lib final_fitness;
          result_stats := st |}.

End GeneticAlgorithm.

(** * What the properties are stated with *)

(** ** Predicates on routes, solutions and models *)

(** The demand of a customer can be read and does not exceed the
    capacity. *)
Definition fits (c : CVRP) (x : Z) : Prop :=
  exists d, Py.index (demands c) x = Ok d /\ d <= vehicle_capacity c.

(** The interior demand of a route is within the capacity. *)
Definition within_capacity (c : CVRP) (r : list Z) : Prop :=
  exists s, sum_demands (demands c) 0 (Py.interior r) = Ok s /\
            s <= vehicle_capacity c.

(** The route is [0 :: seg ++ [0]] for some segment [seg]. *)
Definition depot_anchored (r : list Z) : Prop :=
  exists seg, r = 0 :: seg ++ [0].

(** The solution passes [validate_solution]. *)
Definition valid (c : CVRP) (s : solution) : Prop :=
  validate_solution c s = Ok true.

(** The solution is the split of some ordering of all customers. *)
Definition split_of_ordering (c : CVRP) (s : solution) : Prop :=
  exists p, p ≡ₚ customers_of c /\ _split_to_routes c p = Ok s.

(** The model was built by the constructor from demands none of which
    exceeds the capacity. *)
Definition feasible_model (c : CVRP) : Prop :=
  exists depot locs dems cap,
    CVRP_init depot locs dems cap = Ok c /\ Forall (fun d => d <= cap) dems.

(** [matrix[i][j]]. *)
Definition entry (matrix : list (list float)) (i j : Z) : outcome float :=
  row ← Py.index matrix i; Py.index row j.

(** The entry at row [i], column [j], when both exist. *)
Definition cell (matrix : list (list float)) (i j : nat) : option float :=
  matrix !! i ≫= (.!! j).

(** An [n] by [n] matrix that equals its transpose and has zeros on the
    diagonal. *)
Definition symmetric (n : nat) (matrix : list (list float)) : Prop :=
  length matrix = n /\
  Forall (fun row => length row = n) matrix /\
  (forall i j, cell matrix i j = cell matrix j i) /\
  (forall i, (i < n)%nat -> cell matrix i i = Some Float.zero).

(** A neighbour the selection loop of tabu search can choose: its signature
    is absent from the tabu list and its cost is strictly below [+inf]
    (which neither [+inf] nor NaN is). *)
Definition eligible (tabu_list : list string) (nc : solution * float) : Prop :=
  (Py.str_lists nc.1 ∉ tabu_list) /\ Float.ltb nc.2 Float.inf = true.

(** [tabu_list.append(signature)] and the eviction that follows it. *)
Definition push_signature (tabu_size : Z) (tabu_list : list string)
    (signature : string) : list string :=
  let pushed := tabu_list ++ [signature] in
  if tabu_size <? Z.of_nat (length pushed) then drop 1 pushed else pushed.

(** ** Concrete models and inputs *)

Definition pt (x y : Z) : point := (Float.of_Z x, Float.of_Z y).

(** The float nearest to the decimal [n / d]. *)
Definition decimal (n d : Z) : float := Float.div (Float.of_Z n) (Float.of_Z d).

(** The model a call of the constructor builds (the empty record when the
    constructor raises). *)
Definition built (m : outcome CVRP) : CVRP :=
  match m with
  | Ok c => c
  | _ => {| depot := pt 0 0; locations := []; demands := [];
            vehicle_capacity := 0; distance_matrix := [] |}
  end.

(** The scenario of the specification: four unit demands, capacity 2. *)
Definition scenario_model : CVRP :=
  Eval vm_compute in
    built (CVRP_init (pt 0 0) [pt 1 0; pt 2 0; pt 0 1; pt 0 2] [1; 1; 1; 1] 2).

(** No customers. *)
Definition empty_model : CVRP :=
  Eval vm_compute in built (CVRP_init (pt 0 0) [] [] 100).

(** One customer of demand 1, capacity 3. *)
Definition single_model : CVRP :=
  Eval vm_compute in built (CVRP_init (pt 0 0) [pt 1 0] [1] 3).

(** One customer whose demand 5 exceeds the capacity 3. *)
Definition overweight_model : CVRP :=
  Eval vm_compute in built (CVRP_init (pt 0 0) [pt 1 0] [5] 3).

(** Three customers of demand 1, capacity 3. *)
Definition triple_model : CVRP :=
  Eval vm_compute in
    built (CVRP_init (pt 0 0) [pt 1 0; pt 2 0; pt 3 0] [1; 1; 1] 3).

(** Far away from the depot: two customers next to the depot and one at
    distance [2^52]. *)
Definition far_model : CVRP :=
  Eval vm_compute in
    built (CVRP_init (pt 0 0) [pt 0 1; pt 0 2; pt (2 ^ 52) 2] [1; 1; 1] 3).

(** Two customers at distance [2^1024], which is [+inf], from the depot. *)
Definition unreachable_model : CVRP :=
  Eval vm_compute in
    built (CVRP_init (pt (2 ^ 1023) 0) [pt (- 2 ^ 1023) 0; pt (- 2 ^ 1023) 1]
             [1; 1] 2).

(** The depot and the only customer at an infinite abscissa. *)
Definition infinite_model : CVRP :=
  Eval vm_compute in
    built (CVRP_init (Float.inf, Float.zero) [(Float.inf, Float.zero)] [1] 3).

(** Two distinct members of a population. *)
Definition route_12 : solution := [[0; 1; 2; 0]].
Definition route_21 : solution := [[0; 2; 1; 0]].

(** The state of tabu search on [unreachable_model] after the initial
    solution [[0; 1; 2; 0]]. *)
Definition unreachable_start : TabuSearch.state :=
  {| TabuSearch.current_solution := [[0; 1; 2; 0]];
     TabuSearch.current_cost := Float.inf;
     TabuSearch.best_solution := Some [[0; 1; 2; 0]];
     TabuSearch.best_cost := Float.inf;
     TabuSearch.tabu_list := [];
     TabuSearch.run_stats := empty_stats |}.

(** The state of tabu search on the model without customers after the
    initial solution. *)
Definition empty_start : TabuSearch.state :=
  {| TabuSearch.current_solution := [];
     TabuSearch.current_cost := Float.zero;
     TabuSearch.best_solution := Some [];
     TabuSearch.best_cost := Float.zero;
     TabuSearch.tabu_list := [];
     TabuSearch.run_stats := empty_stats |}.

(** A numerical library to run the strategies on concrete inputs: the mean
    is the running float sum divided by the length, the deviation is left at
    zero, and [exp] is the constant 1. *)
Definition plain_numlib : numlib :=
  {| np_mean := fun l =>
       Float.div (foldl Float.add Float.zero l)
         (Float.of_Z (Z.of_nat (length l)));
     np_std := fun _ => Float.zero;
     math_exp := fun _ => Ok (Float.of_Z 1) |}.


(** ** Predicates of the further properties *)

(** [R] holds between every element of the list and its successor. *)
Definition adjacent {A} (R : A -> A -> Prop) (l : list A) : Prop :=
  forall k x y, l !! k = Some x -> l !! S k = Some y -> R x y.

(** The first customer of [seg] did not fit behind the interior customers of
    the route [r]: their demand plus its demand exceeds the capacity. *)
Definition overflowed_by (c : CVRP) (r : list Z) (seg : list Z) : Prop :=
  exists load x d,
    sum_demands (demands c) 0 (Py.interior r) = Ok load /\
    head seg = Some x /\
    Py.index (demands c) x = Ok d /\
    load + d > vehicle_capacity c.

(** The route [r2] was opened because its first customer did not fit into
    the route [r1]. *)
Definition opened_by_overflow (c : CVRP) (r1 r2 : list Z) : Prop :=
  overflowed_by c r1 (Py.interior r2).

(** [i] is an index Python accepts for a sequence of length [n]. *)
Definition in_index_range (n : nat) (i : Z) : Prop :=
  - Z.of_nat n <= i < Z.of_nat n.

(** The float is NaN or carries a clear sign bit: it is not below zero. *)
Definition sign_clear (x : float) : Prop :=
  match x with
  | S754_nan => True
  | S754_zero s | S754_infinity s | S754_finite s _ _ => s = false
  end.

(** An [n] by [n] matrix. *)
Definition square (n : nat) (matrix : list (list float)) : Prop :=
  length matrix = n /\ Forall (fun row => length row = n) matrix.

(** The computation returns a value that satisfies [P] or raises
    [OverflowError]; it raises nothing else. *)
Definition returns_or_overflows {A} (P : A -> Prop) (m : outcome A) : Prop :=
  match m with
  | Ok a => P a
  | Raise OverflowError => True
  | _ => False
  end.

(** The computation returns or raises [IndexError]; it raises nothing
    else. *)
Definition index_error_only {A} (m : outcome A) : Prop :=
  match m with
  | Ok _ | Raise IndexError => True
  | _ => False
  end.

(** Each of the three series of the statistics has [n] entries. *)
Definition series_lengths (st : stats) (n : nat) : Prop :=
  length (stats_best st) = n /\ length (stats_middle st) = n /\
  length (stats_worst st) = n.

(** No entry of the series is above its predecessor: each one is the
    predecessor itself or strictly below it. *)
Definition never_rises (l : list float) : Prop :=
  adjacent (fun a b => b = a \/ Float.ltb b a = true) l.

(** ** Concrete states of the further properties *)

(** The value a computation returns ([0.0] when it raises). *)
Definition returned (m : outcome float) : float :=
  match m with
  | Ok x => x
  | _ => Float.zero
  end.

(** The cost of the solution [[0; 1; 2; 0]], [[0; 3; 4; 0]] of
    [scenario_model], and of the only tour of [single_model]. *)
Definition scenario_cost : float :=
  Eval vm_compute in
    returned (_calculate_cost scenario_model [[0; 1; 2; 0]; [0; 3; 4; 0]]).


(** The state of tabu search on [scenario_model] after the initial solution
    [[0; 1; 2; 0]], [[0; 3; 4; 0]]. *)
Definition scenario_start : TabuSearch.state :=
  {| TabuSearch.current_solution := [[0; 1; 2; 0]; [0; 3; 4; 0]];
     TabuSearch.current_cost := scenario_cost;
     TabuSearch.best_solution := Some [[0; 1; 2; 0]; [0; 3; 4; 0]];
     TabuSearch.best_cost := scenario_cost;
     TabuSearch.tabu_list := [];
     TabuSearch.run_stats := empty_stats |}.


(** The model has a depot, a square distance matrix with a row per location,
    and a demand per location. *)
Definition well_formed (c : CVRP) : Prop :=
  locations c <> [] /\
  square (length (locations c)) (distance_matrix c) /\
  length (demands c) = length (locations c).

(** The keyed items are in sorted order: no item has a key strictly below
    the key of its predecessor. *)
Definition ranked {A} (l : list (A * float)) : Prop :=
  adjacent (fun a b => Float.ltb b.2 a.2 = false) l.

(** The float is a zero or a finite non-zero number: neither an infinity nor
    NaN. *)
Definition finite (x : float) : Prop :=
  match x with
  | S754_zero _ | S754_finite _ _ _ => True
  | _ => False
  end.

(** Both coordinates of the point are finite. *)
Definition finite_point (p : point) : Prop := finite p.1 /\ finite p.2.

(** The float is a length: not NaN and not below zero ([+inf] included). *)
Definition is_length (x : float) : Prop :=
  sign_clear x /\ Float.is_nan x = false.

(** Entry by entry, no float of the second series is strictly below the
    float of the first. *)
Definition never_below (lower upper : list float) : Prop :=
  Forall2 (fun lo hi => Float.ltb hi lo = false) lower upper.
(** * Properties *)

(** ** Outcomes and Python lists *)

Lemma bind_Ok_inv {A B} (m : outcome A) (k : A -> outcome B) (b : B) :
  (x ← m; k x) = Ok b -> exists a, m = Ok a /\ k a = Ok b.
Proof. destruct m; simpl; intros H; try discriminate. eauto. Qed.

Lemma index_nonneg {A} (l : list A) (i : nat) :
  Py.index l (Z.of_nat i) =
  match l !! i with Some x => Ok x | None => Raise IndexError end.
Proof.
  unfold Py.index.
  destruct (Z.ltb_spec (Z.of_nat i) 0); [lia|].
  rewrite Nat2Z.id.
  destruct (Z.leb_spec 0 (Z.of_nat i)); [|lia].
  destruct (Z.ltb_spec (Z.of_nat i) (Z.of_nat (length l))); simpl; [done|].
  rewrite lookup_ge_None_2; [done|lia].
Qed.

Lemma index_in_range {A} (l : list A) (i : Z) :
  - Z.of_nat (length l) <= i < Z.of_nat (length l) -> is_Ok (Py.index l i).
Proof.
  intros Hi. unfold Py.index, is_Ok.
  set (j := if i <? 0 then i + Z.of_nat (length l) else i).
  assert (Hj : 0 <= j < Z.of_nat (length l)).
  { subst j. destruct (Z.ltb_spec i 0); lia. }
  destruct (Z.leb_spec 0 j); [|lia].
  destruct (Z.ltb_spec j (Z.of_nat (length l))); [|lia]. simpl.
  destruct (lookup_lt_is_Some_2 l (Z.to_nat j)) as [x Hx]; [lia|].
  rewrite Hx. eauto.
Qed.

Lemma interior_anchored {A} (a b : A) (seg : list A) :
  Py.interior (a :: seg ++ [b]) = seg.
Proof.
  unfold Py.interior. simpl. rewrite length_app. simpl.
  replace (length seg + 1 - 1)%nat with (length seg) by lia.
  rewrite drop_0. by rewrite take_app_length.
Qed.

Lemma index_first {A} (a : A) (l : list A) : Py.index (a :: l) 0 = Ok a.
Proof. exact (index_nonneg (a :: l) 0). Qed.

Lemma index_last {A} (l : list A) (b : A) : Py.index (l ++ [b]) (-1) = Ok b.
Proof.
  unfold Py.index. rewrite length_app. simpl.
  destruct (Z.ltb_spec (-1) 0); [|lia].
  replace (-1 + Z.of_nat (length l + 1)) with (Z.of_nat (length l)) by lia.
  destruct (Z.leb_spec 0 (Z.of_nat (length l))); [|lia].
  destruct (Z.ltb_spec (Z.of_nat (length l)) (Z.of_nat (length l + 1))); [|lia].
  simpl. rewrite Nat2Z.id.
  by rewrite lookup_app_r, Nat.sub_diag by lia.
Qed.

(** ** Route splitting *)

Lemma flatten_interiors_app (s1 s2 : solution) :
  flatten_interiors (s1 ++ s2) = flatten_interiors s1 ++ flatten_interiors s2.
Proof. unfold flatten_interiors. by rewrite map_app, concat_app. Qed.

Lemma flatten_interiors_anchored (seg : list Z) :
  flatten_interiors [0 :: seg ++ [0]] = seg.
Proof.
  unfold flatten_interiors. simpl.
  by rewrite interior_anchored, app_nil_r.
Qed.

(** The loop keeps the customers in order: what was emitted, then the open
    route, then what remains. *)
Lemma split_loop_order (c : CVRP) (customers : list Z) :
  forall routes seg load routes' cur',
    split_loop c routes (0 :: seg) load customers = Ok (routes', cur') ->
    exists seg', cur' = 0 :: seg' /\
      flatten_interiors routes' ++ seg' =
      flatten_interiors routes ++ seg ++ customers.
Proof.
  induction customers as [|x rest IH]; intros routes seg load routes' cur' H.
  - simpl in H. inversion H; subst. exists seg. by rewrite app_nil_r.
  - simpl in H. apply bind_Ok_inv in H as (d & _ & H).
    destruct (load + d >? vehicle_capacity c).
    + apply (IH _ [x]) in H as (seg' & -> & H). exists seg'. split; [done|].
      rewrite H, flatten_interiors_app.
      change (0 :: seg ++ [0]) with (0 :: (seg ++ [0])).
      rewrite (flatten_interiors_anchored seg).
      by rewrite <- !app_assoc.
    + change (0 :: seg ++ [x]) with (0 :: (seg ++ [x])) in H.
      apply IH in H as (seg' & -> & H). exists seg'. split; [done|].
      rewrite H. by rewrite <- !app_assoc.
Qed.

Lemma split_loop_total (c : CVRP) (customers : list Z) :
  Forall (fun x => is_Ok (Py.index (demands c) x)) customers ->
  forall routes cur load, is_Ok (split_loop c routes cur load customers).
Proof.
  induction 1 as [|x rest [d Hd] _ IH]; intros routes cur load.
  - simpl. by eexists.
  - simpl. rewrite Hd. simpl.
    destruct (load + d >? vehicle_capacity c); apply IH.
Qed.

Lemma split_total (c : CVRP) (customers : list Z) :
  Forall (fun x => is_Ok (Py.index (demands c) x)) customers ->
  is_Ok (_split_to_routes c customers).
Proof.
  intros H. unfold _split_to_routes.
  destruct (split_loop_total c customers H [] [0] 0) as [[routes cur] ->].
  simpl. destruct (1 <? length cur)%nat; by eexists.
Qed.

Lemma split_flatten (c : CVRP) (customers : list Z) (routes : solution) :
  _split_to_routes c customers = Ok routes ->
  flatten_interiors routes = customers.
Proof.
  unfold _split_to_routes. intros H.
  apply bind_Ok_inv in H as ([routes' cur'] & Hloop & H).
  apply (split_loop_order c customers [] []) in Hloop as (seg' & Hcur & Hflat).
  subst cur'. simpl in Hflat. rewrite <- Hflat.
  destruct seg' as [|y seg']; simpl in H; injection H as <-.
  - by rewrite app_nil_r.
  - rewrite flatten_interiors_app.
    change (0 :: y :: seg' ++ [0]) with (0 :: (y :: seg') ++ [0]).
    by rewrite flatten_interiors_anchored.
Qed.

(** C10: whenever every listed index addresses the demand vector (Python
    accepts [-len <= i < len]), the splitting routine returns a solution, and
    the interiors of the returned routes, concatenated in route order, are
    exactly the input list: the order is kept and every input element is
    visited exactly once.  The routine is a function of the model and the
    list, so two calls on the same input return the same routes. *)
Theorem split_preserves_order (c : CVRP) (customers : list Z) :
  Forall (fun x => - Z.of_nat (length (demands c)) <= x
                   < Z.of_nat (length (demands c))) customers ->
  exists routes,
    _split_to_routes c customers = Ok routes /\
    flatten_interiors routes = customers /\
    flatten_interiors routes ≡ₚ customers /\
    (forall routes', _split_to_routes c customers = Ok routes' ->
                     routes' = routes).
Proof.
  intros Hrange.
  destruct (split_total c customers) as [routes Hsplit].
  { eapply Forall_impl; [exact Hrange|]. intros x Hx. by apply index_in_range. }
  exists routes. pose proof (split_flatten _ _ _ Hsplit) as Hflat.
  repeat split; [done|done|by rewrite Hflat|].
  intros routes' H'. congruence.
Qed.

(** *** Capacity *)

Lemma sum_demands_acc (D : list Z) (route : list Z) (acc : Z) :
  sum_demands D acc route = (s ← sum_demands D 0 route; Ok (acc + s)).
Proof.
  revert acc. induction route as [|x rest IH]; intros acc; simpl.
  - f_equal. lia.
  - destruct (Py.index D x) as [d| |]; simpl; [|done..].
    rewrite (IH (acc + d)), (IH (0 + d)).
    destruct (sum_demands D 0 rest); simpl; [|done..]. f_equal. lia.
Qed.

Lemma sum_demands_snoc (D : list Z) (seg : list Z) (x s d : Z) :
  sum_demands D 0 seg = Ok s -> Py.index D x = Ok d ->
  sum_demands D 0 (seg ++ [x]) = Ok (s + d).
Proof.
  revert s. induction seg as [|y seg IH]; intros s Hs Hd; simpl in *.
  - injection Hs as <-. by rewrite Hd.
  - destruct (Py.index D y) as [dy| |]; simpl in *; try discriminate.
    rewrite sum_demands_acc in Hs |- *.
    destruct (sum_demands D 0 seg) as [s'| |] eqn:E; simpl in *;
      try discriminate.
    injection Hs as <-. rewrite (IH s' eq_refl Hd). simpl. f_equal. lia.
Qed.

Lemma depot_anchored_ends (r : list Z) :
  depot_anchored r -> Py.index r 0 = Ok 0 /\ Py.index r (-1) = Ok 0.
Proof.
  intros [seg ->]. split; [apply index_first|].
  change (0 :: seg ++ [0]) with ((0 :: seg) ++ [0]). apply index_last.
Qed.

Lemma split_loop_anchored (c : CVRP) (customers : list Z) :
  forall routes seg load routes' cur',
    Forall depot_anchored routes ->
    split_loop c routes (0 :: seg) load customers = Ok (routes', cur') ->
    Forall depot_anchored routes' /\ exists seg', cur' = 0 :: seg'.
Proof.
  induction customers as [|x rest IH]; intros routes seg load routes' cur' Hr H.
  - simpl in H. injection H as <- <-. eauto.
  - simpl in H. apply bind_Ok_inv in H as (d & _ & H).
    destruct (load + d >? vehicle_capacity c).
    + apply (IH _ [x]) in H; [done|].
      apply Forall_app. split; [done|]. apply Forall_singleton. by exists seg.
    + change (0 :: seg ++ [x]) with (0 :: (seg ++ [x])) in H. by apply IH in H.
Qed.

Lemma split_anchored (c : CVRP) (customers : list Z) (routes : solution) :
  _split_to_routes c customers = Ok routes -> Forall depot_anchored routes.
Proof.
  unfold _split_to_routes. intros H.
  apply bind_Ok_inv in H as ([routes' cur'] & Hloop & H).
  apply (split_loop_anchored c customers [] []) in Hloop as (Hr & seg' & ->);
    [|done].
  destruct seg' as [|y seg']; simpl in H; injection H as <-; [done|].
  apply Forall_app. split; [done|]. apply Forall_singleton.
  by exists (y :: seg').
Qed.

Lemma split_loop_capacity (c : CVRP) (customers : list Z) :
  Forall (fits c) customers ->
  forall routes seg load routes' cur',
    Forall (within_capacity c) routes ->
    sum_demands (demands c) 0 seg = Ok load ->
    (seg <> [] -> load <= vehicle_capacity c) ->
    split_loop c routes (0 :: seg) load customers = Ok (routes', cur') ->
    Forall (within_capacity c) routes' /\
    exists seg' load', cur' = 0 :: seg' /\
      sum_demands (demands c) 0 seg' = Ok load' /\
      load' <= Z.max 0 (vehicle_capacity c) /\
      (seg' <> [] -> load' <= vehicle_capacity c).
Proof.
  induction 1 as [|x rest (d & Hd & Hfit) _ IH];
    intros routes seg load routes' cur' Hr Hsum Hload H.
  - simpl in H. injection H as <- <-. split; [done|].
    exists seg, load. repeat split; try done.
    destruct seg; [simpl in Hsum; injection Hsum as <-; lia|].
    specialize (Hload ltac:(done)). lia.
  - simpl in H. rewrite Hd in H. simpl in H.
    destruct (Z.gtb_spec (load + d) (vehicle_capacity c)) as [Hgt|Hle].
    + apply (IH _ [x] d) in H; [done| |by simpl; rewrite Hd|done].
      apply Forall_app. split; [done|]. apply Forall_singleton.
      exists load. rewrite interior_anchored. split; [done|].
      apply Hload. intros ->. simpl in Hsum. injection Hsum as <-. lia.
    + change (0 :: seg ++ [x]) with (0 :: (seg ++ [x])) in H.
      apply (IH _ (seg ++ [x]) (load + d)) in H;
        [done|done|by apply sum_demands_snoc|done].
Qed.

Lemma split_capacity (c : CVRP) (customers : list Z) (routes : solution) :
  Forall (fits c) customers ->
  _split_to_routes c customers = Ok routes ->
  Forall (within_capacity c) routes.
Proof.
  unfold _split_to_routes. intros Hfit H.
  apply bind_Ok_inv in H as ([routes' cur'] & Hloop & H).
  apply (split_loop_capacity c customers Hfit [] [] 0) in Hloop
    as (Hr & seg' & load' & -> & Hsum & _ & Hload); [|done..].
  destruct seg' as [|y seg']; simpl in H; injection H as <-; [done|].
  apply Forall_app. split; [done|]. apply Forall_singleton.
  exists load'.
  change (0 :: y :: seg' ++ [0]) with (0 :: (y :: seg') ++ [0]).
  rewrite interior_anchored. split; [done|]. by apply Hload.
Qed.

Lemma fits_index_Ok (c : CVRP) (customers : list Z) :
  Forall (fits c) customers ->
  Forall (fun x => is_Ok (Py.index (demands c) x)) customers.
Proof.
  intros H. eapply Forall_impl; [exact H|]. intros x (d & Hd & _). by exists d.
Qed.

(** C2, amended: every route the splitting routine returns starts and ends
    at the depot 0; and when no listed customer has a demand above the
    vehicle capacity, the routine returns a solution in which the demands of
    the interior customers of every route sum to at most the capacity. *)
Theorem split_routes_feasible (c : CVRP) (customers : list Z) :
  (forall routes, _split_to_routes c customers = Ok routes ->
     Forall (fun r => Py.index r 0 = Ok 0 /\ Py.index r (-1) = Ok 0) routes) /\
  (Forall (fits c) customers ->
   exists routes, _split_to_routes c customers = Ok routes /\
     Forall (within_capacity c) routes).
Proof.
  split.
  - intros routes H. eapply Forall_impl; [by eapply split_anchored|].
    apply depot_anchored_ends.
  - intros Hfit.
    destruct (split_total c customers (fits_index_Ok c customers Hfit)) as [routes H].
    exists routes. split; [done|]. by apply (split_capacity c customers).
Qed.

(** *** On concrete models *)

Lemma overweight_model_built :
  CVRP_init (pt 0 0) [pt 1 0] [5] 3 = Ok overweight_model.
Proof. vm_compute. reflexivity. Qed.

Lemma scenario_model_built :
  CVRP_init (pt 0 0) [pt 1 0; pt 2 0; pt 0 1; pt 0 2] [1; 1; 1; 1] 2
  = Ok scenario_model.
Proof. vm_compute. reflexivity. Qed.

(** C2 as stated fails: on the model with one customer of demand 5 and
    capacity 3, the split of [[1]] contains the route [[0; 1; 0]], whose
    interior demand is above the capacity. *)
Lemma split_overweight_customer :
  CVRP_init (pt 0 0) [pt 1 0] [5] 3 = Ok overweight_model /\
  _split_to_routes overweight_model [1] = Ok [[0; 0]; [0; 1; 0]] /\
  ~ Forall (within_capacity overweight_model) [[0; 0]; [0; 1; 0]].
Proof.
  split; [exact overweight_model_built|]. split; [vm_compute; reflexivity|].
  intros H. apply Forall_cons in H as [_ H]. apply Forall_cons in H as [H _].
  destruct H as (s & Hs & Hle). vm_compute in Hs. injection Hs as <-.
  vm_compute in Hle. by apply Hle.
Qed.

(** C5: on the scenario of the specification the split of [[1; 2; 3; 4]] is
    [[0; 1; 2; 0]], [[0; 3; 4; 0]], and the total distance is the float 8. *)
Theorem scenario_split_and_distance :
  CVRP_init (pt 0 0) [pt 1 0; pt 2 0; pt 0 1; pt 0 2] [1; 1; 1; 1] 2
  = Ok scenario_model /\
  _split_to_routes scenario_model [1; 2; 3; 4]
  = Ok [[0; 1; 2; 0]; [0; 3; 4; 0]] /\
  _calculate_cost scenario_model [[0; 1; 2; 0]; [0; 3; 4; 0]]
  = Ok (Float.of_Z 8).
Proof.
  split; [exact scenario_model_built|]. split; vm_compute; reflexivity.
Qed.

Lemma scenario_fits : Forall (fits scenario_model) [1; 2; 3; 4].
Proof.
  repeat (apply Forall_cons; split;
          [exists 1; split; [vm_compute; reflexivity|vm_compute; discriminate]|]).
  apply Forall_nil_2.
Defined.

Lemma split_routes_feasible_witness :
  Forall (fits scenario_model) [1; 2; 3; 4] /\
  exists routes, _split_to_routes scenario_model [1; 2; 3; 4] = Ok routes /\
    Forall (within_capacity scenario_model) routes.
Proof.
  split; [exact scenario_fits|].
  exact (proj2 (split_routes_feasible scenario_model [1; 2; 3; 4])
           scenario_fits).
Defined.

Lemma split_preserves_order_witness :
  exists routes, _split_to_routes scenario_model [1; 2; 3; 4] = Ok routes /\
    flatten_interiors routes = [1; 2; 3; 4].
Proof.
  destruct (split_preserves_order scenario_model [1; 2; 3; 4])
    as (routes & H1 & H2 & _).
  { repeat (apply Forall_cons; split; [vm_compute; split; [discriminate|reflexivity]|]).
    apply Forall_nil_2. }
  exists routes. by split.
Defined.

(** ** Float comparison and addition *)

Lemma ltb_finite (s1 s2 : bool) (m1 m2 : positive) (e1 e2 : Z) :
  Float.ltb (S754_finite s1 m1 e1) (S754_finite s2 m2 e2) = true <->
  match s1, s2 with
  | true, false => True
  | false, true => False
  | false, false => e1 < e2 \/ (e1 = e2 /\ (m1 < m2)%positive)
  | true, true => e2 < e1 \/ (e1 = e2 /\ (m2 < m1)%positive)
  end.
Proof.
  unfold Float.ltb, SFltb. simpl. rewrite Pos.compare_cont_spec. simpl.
  destruct s1, s2; try (split; [done|by intros []]); try done;
    destruct (Z.compare_spec e1 e2), (Pos.compare_spec m1 m2); simpl;
    split; try done; try lia; intros _; lia.
Qed.

Lemma ltb_trans (x y z : float) :
  Float.ltb x y = true -> Float.ltb y z = true -> Float.ltb x z = true.
Proof.
  destruct x as [sx|sx| |sx mx ex], y as [sy|sy| |sy my ey],
           z as [sz|sz| |sz mz ez];
    try (unfold Float.ltb, SFltb; simpl;
         repeat match goal with b : bool |- _ => destruct b end;
         simpl; (discriminate || reflexivity)).
  rewrite !ltb_finite. destruct sx, sy, sz; try done; lia.
Qed.

Lemma ltb_irrefl (x : float) : Float.ltb x x = false.
Proof.
  destruct x as [s|s| |s m e]; [by destruct s|by destruct s|done|].
  destruct (Float.ltb _ _) eqn:E; [|done].
  apply ltb_finite in E. destruct s; lia.
Qed.

Lemma ltb_inf_r (x : float) : Float.ltb Float.inf x = false.
Proof. by destruct x as [s|[]| |[] m e]. Qed.

Lemma add_comm (x y : float) : Float.add x y = Float.add y x.
Proof.
  unfold Float.add, SFadd.
  destruct x as [sx|sx| |sx mx ex], y as [sy|sy| |sy my ey];
    try reflexivity;
    try (by destruct sx, sy).
  by rewrite (Z.min_comm ey ex), Z.add_comm.
Qed.

(** ** [min] with a key *)

Lemma min_by_from_spec {A} (key : A -> outcome float) (l : list A) :
  forall best best_key w,
    Builtin.min_by_from key best best_key l = Ok w ->
    exists kw,
      ((w = best /\ kw = best_key) \/
       (w ∈ l /\ key w = Ok kw /\ Float.ltb kw best_key = true)) /\
      (forall e ke, e ∈ l -> key e = Ok ke -> Float.ltb ke kw = false).
Proof.
  induction l as [|x rest IH]; intros best bk w H; simpl in H.
  - injection H as <-. exists bk. split; [by left|].
    intros e ke He. by apply elem_of_nil in He.
  - apply bind_Ok_inv in H as (k & Hk & H).
    destruct (Float.ltb k bk) eqn:Hlt.
    + apply IH in H as (kw & Hw & Hmin). exists kw. split.
      * right. destruct Hw as [[-> ->]|(Hin & Hkey & Hlt')].
        -- repeat split; [left|done|done].
        -- repeat split; [by right|done|by eapply ltb_trans].
      * intros e ke He Hke. apply elem_of_cons in He as [->|He]; [|by eauto].
        rewrite Hk in Hke. injection Hke as <-.
        destruct Hw as [[_ ->]|(_ & _ & Hlt')]; [apply ltb_irrefl|].
        destruct (Float.ltb k kw) eqn:E; [|done].
        pose proof (ltb_trans _ _ _ Hlt' E) as Hkk.
        by rewrite ltb_irrefl in Hkk.
    + apply IH in H as (kw & Hw & Hmin). exists kw. split.
      * destruct Hw as [[-> ->]|(Hin & Hkey & Hlt')]; [by left|].
        right. repeat split; [by right|done|done].
      * intros e ke He Hke. apply elem_of_cons in He as [->|He]; [|by eauto].
        rewrite Hk in Hke. injection Hke as <-.
        destruct Hw as [[_ ->]|(_ & _ & Hlt')]; [done|].
        destruct (Float.ltb k kw) eqn:E; [|done].
        by rewrite (ltb_trans _ _ _ E Hlt') in Hlt.
Qed.

(** The item [min(l, key=key)] returns is in [l], and no item of [l] has a
    key strictly below its key. *)
Lemma min_by_spec {A} (key : A -> outcome float) (l : list A) (w : A) :
  Builtin.min_by key l = Ok w ->
  w ∈ l /\
  exists kw, key w = Ok kw /\
    forall e ke, e ∈ l -> key e = Ok ke -> Float.ltb ke kw = false.
Proof.
  destruct l as [|x rest]; [discriminate|]. simpl. intros H.
  apply bind_Ok_inv in H as (k & Hk & H).
  apply min_by_from_spec in H as (kw & Hw & Hmin).
  destruct Hw as [[-> ->]|(Hin & Hkey & Hlt)].
  - split; [left|]. exists k. split; [done|].
    intros e ke He Hke. apply elem_of_cons in He as [->|He]; [|by eauto].
    rewrite Hk in Hke. injection Hke as <-. apply ltb_irrefl.
  - split; [by right|]. exists kw. split; [done|].
    intros e ke He Hke. apply elem_of_cons in He as [->|He]; [|by eauto].
    rewrite Hk in Hke. injection Hke as <-.
    destruct (Float.ltb k kw) eqn:E; [|done].
    pose proof (ltb_trans _ _ _ Hlt E) as Hkk. by rewrite ltb_irrefl in Hkk.
Qed.

(** ** The random generator *)

Lemma rand_bind_Ok_inv {A B} (m : rand A) (k : A -> rand B) t b t' :
  (x ← m; k x) t = Ok (b, t') ->
  exists a t1, m t = Ok (a, t1) /\ k a t1 = Ok (b, t').
Proof.
  unfold mbind, rand_bind. destruct (m t) as [[a t1]| |]; try discriminate.
  eauto.
Qed.

Lemma lift_Ok_inv {A} (m : outcome A) t a t' :
  lift m t = Ok (a, t') -> m = Ok a /\ t' = t.
Proof. destruct m; simpl; intros H; try discriminate. by injection H as -> ->. Qed.

Lemma randbelow_lt (n : nat) t j t' :
  (0 < n)%nat -> Random.randbelow n t = Ok (j, t') -> (j < n)%nat.
Proof.
  intros Hn H. unfold Random.randbelow in H.
  apply rand_bind_Ok_inv in H as (r & t1 & _ & H).
  injection H as <- _.
  pose proof (N.mod_upper_bound r (N.of_nat n)). lia.
Qed.

(** What [pick] draws, put back in front of what it left in the pool, is the
    pool rearranged. *)
Lemma pick_Permutation {A} (k : nat) :
  forall (pool : list A) t res t',
    (k <= length pool)%nat ->
    Random.pick pool k t = Ok (res, t') ->
    length res = k /\ exists rest, res ++ rest ≡ₚ pool.
Proof.
  induction k as [|k IH]; intros pool t res t' Hk H; simpl in H.
  - injection H as <- _. split; [done|]. by exists pool.
  - apply rand_bind_Ok_inv in H as (j & t1 & Hj & H).
    apply randbelow_lt in Hj; [|lia].
    destruct (lookup_lt_is_Some_2 pool j Hj) as [x Hx]. rewrite Hx in H.
    apply rand_bind_Ok_inv in H as (res' & t2 & Hres & H).
    injection H as <- _.
    apply IH in Hres as (Hlen & rest & Hperm).
    2:{ rewrite length_delete by eauto. lia. }
    split; [simpl; lia|]. exists rest. simpl. rewrite Hperm.
    symmetry. by apply delete_Permutation.
Qed.

Lemma pick_total {A} (k : nat) :
  forall (pool : list A) t,
    (k <= length pool)%nat -> exists res t', Random.pick pool k t = Ok (res, t').
Proof.
  induction k as [|k IH]; intros pool t Hk; simpl.
  - by eexists _, _.
  - unfold mbind at 1, rand_bind.
    destruct (Random.randbelow (length pool) t) as [[j t1]| |] eqn:Hj;
      try (by unfold Random.randbelow, Random.raw in Hj; destruct t).
    apply randbelow_lt in Hj as Hlt; [|lia].
    destruct (lookup_lt_is_Some_2 pool j Hlt) as [x Hx]. rewrite Hx.
    destruct (IH (delete j pool) t1) as (res & t' & Hres).
    { rewrite length_delete by eauto. lia. }
    unfold mbind, rand_bind. rewrite Hres. by eexists _, _.
Qed.

(** [pick] looks at positions only: mapping a function over the pool maps it
    over the draw. *)
Lemma pick_fmap {A B} (f : A -> B) (k : nat) :
  forall (pool : list A) t,
    Random.pick (f <$> pool) k t =
    match Random.pick pool k t with
    | Ok (res, t') => Ok (f <$> res, t')
    | Raise e => Raise e
    | OutOfFuel => OutOfFuel
    end.
Proof.
  induction k as [|k IH]; intros pool t; simpl; [done|].
  rewrite length_fmap. unfold mbind at 1 3, rand_bind.
  destruct (Random.randbelow (length pool) t) as [[j t1]| |]; [|done..].
  rewrite list_lookup_fmap. destruct (pool !! j) as [x|] eqn:Hx; simpl; [|done].
  unfold mbind, rand_bind. 
  replace (delete j (f <$> pool)) with (f <$> delete j pool).
  2:{ clear. revert j. induction pool as [|y pool IHp]; intros [|j]; simpl;
        try done. by rewrite IHp. }
  rewrite IH. by destruct (Random.pick (delete j pool) k t1) as [[res t2]| |].
Qed.

Lemma shuffle_Permutation {A} (l l' : list A) t t' :
  Random.shuffle l t = Ok (l', t') -> l' ≡ₚ l.
Proof.
  unfold Random.shuffle. intros H.
  apply pick_Permutation in H as (Hlen & rest & Hperm); [|done].
  assert (rest = []) as ->.
  { apply Permutation_length in Hperm. rewrite length_app in Hperm.
    destruct rest; [done|]. simpl in Hperm. lia. }
  by rewrite app_nil_r in Hperm.
Qed.

Lemma shuffle_total {A} (l : list A) t :
  exists l' t', Random.shuffle l t = Ok (l', t').
Proof. by apply pick_total. Qed.


(** *** Tournament selection *)

Lemma pick_positions {A} (population : list A) (k : nat) t entrants t' :
  (k <= length population)%nat ->
  Random.pick population k t = Ok (entrants, t') ->
  exists positions : list nat,
    NoDup positions /\ length positions = k /\
    Forall2 (fun i e => population !! i = Some e) positions entrants.
Proof.
  intros Hk H.
  set (pool := zip (seq 0 (length population)) population).
  assert (Hsnd : pool.*2 = population).
  { apply snd_zip. by rewrite length_seq. }
  assert (Hfst : pool.*1 = seq 0 (length population)).
  { apply fst_zip. by rewrite length_seq. }
  rewrite <- Hsnd, pick_fmap in H.
  destruct (Random.pick pool k t) as [[res t1]| |] eqn:Hres; try discriminate.
  injection H as <- <-.
  apply pick_Permutation in Hres as (Hlen & rest & Hperm).
  2:{ by rewrite <- (length_fmap snd), Hsnd. }
  exists (res.*1). split; [|split; [by rewrite length_fmap|]].
  - assert (Hnd : NoDup ((res ++ rest).*1)).
    { rewrite Hperm, Hfst. apply NoDup_seq. }
    rewrite fmap_app in Hnd. by apply NoDup_app in Hnd as [Hnd _].
  - assert (Hall : Forall (fun ie => population !! ie.1 = Some ie.2) res).
    { apply Forall_forall. intros [i e] Hie.
      assert (Hin : (i, e) ∈ pool).
      { rewrite <- Hperm. apply elem_of_app. by left. }
      apply list_elem_of_lookup in Hin as [j Hj].
      apply lookup_zip_with_Some in Hj as (i' & e' & Heq & Hi & He).
      injection Heq as -> ->. apply lookup_seq in Hi as [-> _]. done. }
    clear -Hall. induction Hall; simpl; constructor; done.
Qed.

(** C9, amended: the entrants of a tournament are drawn by [random.sample],
    that is without replacement.  A tournament of size [k] that is negative
    or above the population size raises [ValueError]; otherwise the entrants
    sit at [k] pairwise distinct positions of the population, so that no
    member of the population enters a tournament twice, and the winner is an
    entrant such that no entrant has a strictly lower fitness. *)
Theorem tournament_without_replacement (c : CVRP) (population : list solution)
    (k : Z) (t : tape) :
  (k < 0 \/ Z.of_nat (length population) < k ->
   GeneticAlgorithm._tournament_selection c population k t = Raise ValueError)
  /\
  (forall winner t',
     GeneticAlgorithm._tournament_selection c population k t
     = Ok (winner, t') ->
     exists (positions : list nat) (entrants : list solution),
       Random.sample population k t = Ok (entrants, t') /\
       NoDup positions /\ Z.of_nat (length positions) = k /\
       Forall2 (fun i e => population !! i = Some e) positions entrants /\
       winner ∈ entrants /\
       exists fw, GeneticAlgorithm._calculate_fitness c winner = Ok fw /\
         forall e fe, e ∈ entrants ->
           GeneticAlgorithm._calculate_fitness c e = Ok fe ->
           Float.ltb fe fw = false).
Proof.
  unfold GeneticAlgorithm._tournament_selection, Random.sample. split.
  - intros Hk.
    assert ((k <? 0) || (Z.of_nat (length population) <? k) = true) as E.
    { apply orb_true_iff. destruct Hk; [left|right]; by apply Z.ltb_lt. }
    unfold mbind, rand_bind. by rewrite E.
  - intros winner t' H.
    apply rand_bind_Ok_inv in H as (entrants & t1 & Hs & H).
    apply lift_Ok_inv in H as [Hmin ->].
    destruct ((k <? 0) || (Z.of_nat (length population) <? k)) eqn:E;
      [discriminate|].
    apply orb_false_iff in E as [E1 E2].
    apply Z.ltb_ge in E1. apply Z.ltb_ge in E2.
    apply pick_positions in Hs as Hpos; [|lia].
    destruct Hpos as (positions & Hnd & Hlen & Hall).
    apply min_by_spec in Hmin as (Hin & fw & Hfw & Hlow).
    exists positions, entrants. repeat split; try done; [lia|].
    exists fw. split; done.
Qed.

(** C9 as stated fails: in a population of two distinct members, no tape
    makes a tournament of size 2 hold the same member twice, and a tournament
    of size 3, which sampling with replacement would fill, raises. *)
Lemma tournament_never_repeats :
  (~ exists t entrants t',
       Random.sample [route_12; route_21] 2 t = Ok (entrants, t') /\
       ~ NoDup entrants) /\
  (forall t, Random.sample [route_12; route_21] 3 t = Raise ValueError).
Proof.
  split; [|done].
  intros (t & entrants & t' & H & Hdup). apply Hdup.
  change (Random.pick [route_12; route_21] 2 t = Ok (entrants, t')) in H.
  apply pick_Permutation in H as (_ & rest & Hperm); [|simpl; lia].
  assert (Hnd : NoDup (entrants ++ rest)).
  { rewrite Hperm. apply NoDup_cons. split; [|apply NoDup_singleton].
    intros Hin. apply list_elem_of_singleton in Hin. discriminate. }
  by apply NoDup_app in Hnd as [Hnd _].
Qed.

Lemma tournament_without_replacement_witness :
  exists winner t', 
    GeneticAlgorithm._tournament_selection scenario_model
      [route_12; route_21] 2 [1%N] = Ok (winner, t') /\
    exists (positions : list nat) (entrants : list solution),
       Random.sample [route_12; route_21] 2 [1%N] = Ok (entrants, t') /\
       NoDup positions /\ Z.of_nat (length positions) = 2.
Proof.
  eexists _, _. split; [vm_compute; reflexivity|].
  destruct (proj2 (tournament_without_replacement scenario_model
                     [route_12; route_21] 2 [1%N]) route_21 [])
    as (positions & entrants & H1 & H2 & H3 & _).
  { vm_compute. reflexivity. }
  by exists positions, entrants.
Defined.

(** ** Validation on malformed solutions *)

Lemma single_model_built :
  CVRP_init (pt 0 0) [pt 1 0] [1] 3 = Ok single_model.
Proof. vm_compute. reflexivity. Qed.

(** C4 fails on the code: on the model with one customer, a solution that
    covers the customer and also holds an empty route makes
    [validate_solution] raise [IndexError] (at [route[0]]), and so does a
    route whose first node is out of range (at [self.demands[node]]). *)
Theorem validate_raises_on_empty_route :
  CVRP_init (pt 0 0) [pt 1 0] [1] 3 = Ok single_model /\
  validate_solution single_model [[0; 1; 0]; []] = Raise IndexError /\
  validate_solution single_model [[7; 1; 0]] = Raise IndexError.
Proof.
  split; [exact single_model_built|]. split; vm_compute; reflexivity.
Qed.

(** ** Ordered crossover *)

Lemma triple_model_built :
  CVRP_init (pt 0 0) [pt 1 0; pt 2 0; pt 3 0] [1; 1; 1] 3 = Ok triple_model.
Proof. vm_compute. reflexivity. Qed.



(** C6 fails on the code: both parents are the valid solution
    [[0; 1; 2; 3; 0]] of the model with three customers; the flattened
    orderings are [[1; 2]] (the last customer is dropped with [[:-1]]), and
    the child for the cut points 0 and 1 is [[1; 2]], which misses
    customer 3. *)
Theorem crossover_drops_last_customer :
  CVRP_init (pt 0 0) [pt 1 0; pt 2 0; pt 3 0] [1; 1; 1] 3 = Ok triple_model /\
  validate_solution triple_model [[0; 1; 2; 3; 0]] = Ok true /\
  Py.drop_last (flatten_nonzero [[0; 1; 2; 3; 0]]) = [1; 2] /\
  GeneticAlgorithm.crossover_child [1; 2] [1; 2] 0 1 = Ok [1; 2] /\
  GeneticAlgorithm._ordered_crossover triple_model [[0; 1; 2; 3; 0]]
    [[0; 1; 2; 3; 0]] [0%N; 0%N] = Ok ([[0; 1; 2; 0]], []).
Proof.
  split; [exact triple_model_built|]. repeat split; vm_compute; reflexivity.
Qed.

(** ** No customers *)

Lemma empty_model_built : CVRP_init (pt 0 0) [] [] 100 = Ok empty_model.
Proof. vm_compute. reflexivity. Qed.

Lemma crossover_of_empty_raises (c : CVRP) (t : tape) :
  GeneticAlgorithm._ordered_crossover c [] [] t = Raise ValueError.
Proof. reflexivity. Qed.

(** C3 fails on the code: on the model without customers the genetic
    strategy, configured as [main.py] configures it, raises [ValueError] in
    the first crossover ([random.sample(range(0), 2)]). *)
Theorem genetic_run_raises_without_customers (lib : numlib) :
  CVRP_init (pt 0 0) [] [] 100 = Ok empty_model /\
  (g ← GeneticAlgorithm.__init__ 100 empty_model 100 200 (decimal 15 100)
         (decimal 85 100) 5 (decimal 1 10);
   GeneticAlgorithm.run lib 100 g) [] = Raise ValueError.
Proof. split; [exact empty_model_built|]. vm_compute. reflexivity. Qed.

(** On the model without customers the other four strategies, configured as
    [main.py] configures them, return the empty solution: at cost 0 for
    random sampling, annealing and tabu search, at the sentinel [+inf] for
    the greedy construction. *)
Lemma other_strategies_without_customers :
  (exists r t',
     RandomAlgorithm.run plain_numlib empty_model 1000 [] = Ok (r, t') /\
     best_solution r = Some [] /\ best_distance r = Float.zero) /\
  (exists r t',
     GreedyAlgorithm.run plain_numlib 0 empty_model 10 [] = Ok (r, t') /\
     best_solution r = Some [] /\ best_distance r = Float.inf) /\
  (exists r t',
     SimulatedAnnealing.run plain_numlib empty_model (Float.of_Z 1000)
       (decimal 99 100) 1000 [] = Ok (r, t') /\
     best_solution r = Some [] /\ best_distance r = Float.zero) /\
  (exists r t',
     TabuSearch.run plain_numlib empty_model 500 50 20 [] = Ok (r, t') /\
     best_solution r = Some [] /\ best_distance r = Float.zero).
Proof.
  repeat split;
    (eexists _, _; split; [vm_compute; reflexivity|split; reflexivity]).
Qed.

(** ** The distance matrix *)

Lemma for_each_invariant {A S} (P : S -> Prop) (body : S -> A -> outcome S)
    (l : list A) :
  forall s s',
    P s ->
    (forall s x s', x ∈ l -> P s -> body s x = Ok s' -> P s') ->
    Py.for_each body l s = Ok s' -> P s'.
Proof.
  induction l as [|x rest IH]; intros s s' Hs Hbody H; simpl in H.
  - by injection H as <-.
  - apply bind_Ok_inv in H as (s1 & H1 & H).
    apply (IH s1 s'); [|by intros; eapply Hbody; [right|..]|done].
    eapply Hbody; [left|done|done].
Qed.

Lemma set_index_nonneg {A} (l : list A) (i : nat) (v : A) :
  (i < length l)%nat -> Py.set_index l (Z.of_nat i) v = Ok (<[i := v]> l).
Proof.
  intros Hi. unfold Py.set_index.
  destruct (Z.ltb_spec (Z.of_nat i) 0); [lia|].
  destruct (Z.leb_spec 0 (Z.of_nat i)); [|lia].
  destruct (Z.ltb_spec (Z.of_nat i) (Z.of_nat (length l))); [|lia].
  simpl. by rewrite Nat2Z.id.
Qed.

Lemma entry_cell (matrix : list (list float)) (i j : nat) :
  entry matrix (Z.of_nat i) (Z.of_nat j) =
  match cell matrix i j with Some a => Ok a | None => Raise IndexError end.
Proof.
  unfold entry, cell. rewrite index_nonneg.
  destruct (matrix !! i) as [row|]; simpl; [|done]. apply index_nonneg.
Qed.

Lemma set_entry_spec (n : nat) (matrix : list (list float)) (i j : nat)
    (v : float) :
  length matrix = n -> Forall (fun row => length row = n) matrix ->
  (i < n)%nat -> (j < n)%nat ->
  exists matrix',
    set_entry matrix (Z.of_nat i) (Z.of_nat j) v = Ok matrix' /\
    length matrix' = n /\ Forall (fun row => length row = n) matrix' /\
    forall a b, cell matrix' a b =
                if decide (a = i /\ b = j) then Some v else cell matrix a b.
Proof.
  intros Hlen Hrows Hi Hj. unfold set_entry. rewrite index_nonneg.
  destruct (lookup_lt_is_Some_2 matrix i) as [row Hrow]; [lia|].
  rewrite Hrow. simpl.
  assert (Hrlen : length row = n).
  { eapply Forall_forall in Hrows; [done|]. by eapply list_elem_of_lookup_2. }
  rewrite set_index_nonneg by lia. simpl.
  rewrite set_index_nonneg by lia.
  eexists. split; [done|]. split; [by rewrite length_insert|]. split.
  - apply Forall_insert; [done|]. by rewrite length_insert.
  - intros a b. unfold cell. destruct (decide (a = i)) as [->|Hne].
    + rewrite list_lookup_insert_eq by lia. simpl.
      destruct (decide (b = j)) as [->|Hneb].
      * rewrite list_lookup_insert_eq by lia. by rewrite decide_True.
      * rewrite list_lookup_insert_ne by done. rewrite Hrow. simpl.
        by rewrite decide_False by tauto.
    + rewrite list_lookup_insert_ne by done. by rewrite decide_False by tauto.
Qed.

Lemma symmetric_set_pair (n : nat) (matrix m1 m2 : list (list float))
    (i j : nat) (v : float) :
  symmetric n matrix -> (i < n)%nat -> (j < n)%nat -> i <> j ->
  set_entry matrix (Z.of_nat i) (Z.of_nat j) v = Ok m1 ->
  set_entry m1 (Z.of_nat j) (Z.of_nat i) v = Ok m2 ->
  symmetric n m2.
Proof.
  intros (Hlen & Hrows & Hsym & Hdiag) Hi Hj Hne H1 H2.
  destruct (set_entry_spec n matrix i j v Hlen Hrows Hi Hj)
    as (m1' & E1 & Hlen1 & Hrows1 & Hc1).
  rewrite E1 in H1. injection H1 as ->.
  destruct (set_entry_spec n m1 j i v Hlen1 Hrows1 Hj Hi)
    as (m2' & E2 & Hlen2 & Hrows2 & Hc2).
  rewrite E2 in H2. injection H2 as ->.
  split; [done|]. split; [done|]. split.
  - intros a b. rewrite !Hc2, !Hc1.
    repeat case_decide; try done; try (exfalso; lia); apply Hsym.
  - intros a Ha. rewrite Hc2, Hc1.
    repeat case_decide; try (exfalso; lia). by apply Hdiag.
Qed.

Lemma symmetric_zeros (n : nat) :
  symmetric n (replicate n (replicate n Float.zero)).
Proof.
  assert (Hcell : forall i j, (i < n)%nat -> (j < n)%nat ->
            cell (replicate n (replicate n Float.zero)) i j = Some Float.zero).
  { intros i j Hi Hj. unfold cell.
    rewrite lookup_replicate_2 by done. simpl.
    by rewrite lookup_replicate_2. }
  assert (Hnone : forall i j, (n <= i)%nat \/ (n <= j)%nat ->
            cell (replicate n (replicate n Float.zero)) i j = None).
  { intros i j Hij. unfold cell. destruct (decide (i < n)%nat).
    - rewrite lookup_replicate_2 by done. simpl.
      apply lookup_ge_None_2. rewrite length_replicate. lia.
    - rewrite (lookup_ge_None_2 (replicate n (replicate n Float.zero)) i);
        [done|]. rewrite length_replicate. lia. }
  split; [by rewrite length_replicate|]. split.
  { apply Forall_replicate. by rewrite length_replicate. }
  split; [|by intros; apply Hcell].
  intros i j.
  destruct (decide (i < n)%nat), (decide (j < n)%nat);
    [by rewrite !Hcell|rewrite !Hnone by lia; done..].
Qed.

Lemma create_distance_matrix_symmetric (locations : list point)
    (matrix : list (list float)) :
  _create_distance_matrix locations = Ok matrix ->
  symmetric (length locations) matrix.
Proof.
  unfold _create_distance_matrix. set (n := length locations).
  apply for_each_invariant; [apply symmetric_zeros|].
  intros m i m' Hi Hm. unfold Py.range in Hi. apply elem_of_seqZ in Hi.
  apply for_each_invariant; [done|].
  clear m m' Hm. intros m j m' Hj Hm Hbody.
  unfold Py.range in Hj. apply elem_of_seqZ in Hj.
  apply bind_Ok_inv in Hbody as (p & _ & Hbody).
  apply bind_Ok_inv in Hbody as (q & _ & Hbody).
  apply bind_Ok_inv in Hbody as (dist & _ & Hbody).
  apply bind_Ok_inv in Hbody as (m1 & H1 & H2).
  rewrite <- (Z2Nat.id i), <- (Z2Nat.id j) in H1, H2 by lia.
  eapply (symmetric_set_pair n m m1 m' (Z.to_nat i) (Z.to_nat j));
    try done; lia.
Qed.

Lemma eqb_refl (a : float) : a <> Float.nan -> Float.eqb a a = true.
Proof.
  unfold Float.eqb, SFeqb. destruct a as [s|s| |s m e]; simpl; try done.
  - by destruct s.
  - intros _. rewrite Z.compare_refl, Pos.compare_cont_spec, Pos.compare_refl.
    by destruct s.
Qed.

(** *** Routes of at most three nodes *)

Lemma add_zero_swap (x y : float) :
  Float.add (Float.add Float.zero x) y = Float.add (Float.add Float.zero y) x.
Proof.
  destruct x as [sx|sx| |sx mx ex], y as [sy|sy| |sy my ey];
    try (by repeat match goal with b : bool |- _ => destruct b end).
  change (Float.add Float.zero (S754_finite sx mx ex))
    with (S754_finite sx mx ex).
  change (Float.add Float.zero (S754_finite sy my ey))
    with (S754_finite sy my ey).
  apply add_comm.
Qed.

Lemma route_distance_from_step (matrix : list (list float)) (acc : float)
    (a b : Z) (rest : list Z) :
  route_distance_from matrix acc (a :: b :: rest) =
  (d ← entry matrix a b; route_distance_from matrix (Float.add acc d) (b :: rest)).
Proof.
  unfold entry. cbn [route_distance_from].
  by destruct (Py.index matrix a) as [row| |]; simpl.
Qed.

Lemma route_distance_from_single (matrix : list (list float)) (acc : float)
    (a : Z) :
  route_distance_from matrix acc [a] = Ok acc.
Proof. reflexivity. Qed.

Lemma bind_Ok {A B} (a : A) (k : A -> outcome B) : (x ← Ok a; k x) = k a.
Proof. reflexivity. Qed.

Lemma calculate_route_distance_short (c : CVRP) (route : list Z) :
  symmetric (length (locations c)) (distance_matrix c) ->
  Forall (fun x => 0 <= x < Z.of_nat (length (locations c))) route ->
  (length route <= 3)%nat ->
  is_Ok (calculate_route_distance c route) /\
  calculate_route_distance c (reverse route) = calculate_route_distance c route.
Proof.
  intros (Hlen & Hrows & Hsym & _) Hrange Hshort.
  assert (Hcell : forall a b,
             0 <= a < Z.of_nat (length (locations c)) ->
             0 <= b < Z.of_nat (length (locations c)) ->
             exists v, cell (distance_matrix c) (Z.to_nat a) (Z.to_nat b)
                       = Some v).
  { intros a b Ha Hb. unfold cell.
    destruct (lookup_lt_is_Some_2 (distance_matrix c) (Z.to_nat a))
      as [row Hrow]; [lia|].
    rewrite Hrow. simpl. apply lookup_lt_is_Some_2.
    eapply Forall_forall in Hrows; [|by eapply list_elem_of_lookup_2].
    rewrite Hrows. lia. }
  assert (Hentry : forall a b,
             0 <= a < Z.of_nat (length (locations c)) ->
             0 <= b < Z.of_nat (length (locations c)) ->
             exists v, entry (distance_matrix c) a b = Ok v /\
                       entry (distance_matrix c) b a = Ok v).
  { intros a b Ha Hb. destruct (Hcell a b Ha Hb) as [v Hv]. exists v.
    rewrite <- (Z2Nat.id a), <- (Z2Nat.id b) by lia.
    by rewrite !entry_cell, <- (Hsym (Z.to_nat a)), Hv. }
  unfold calculate_route_distance.
  destruct route as [|a [|b [|d [|? ?]]]]; simpl in Hshort; try lia.
  - split; [by eexists|done].
  - split; [by eexists|done].
  - apply Forall_cons in Hrange as [Ha Hrange].
    apply Forall_cons in Hrange as [Hb _].
    destruct (Hentry a b Ha Hb) as (v & Hab & Hba).
    change (reverse [a; b]) with [b; a].
    rewrite !route_distance_from_step, Hab, Hba, !bind_Ok,
      !route_distance_from_single.
    split; [by eexists|done].
  - apply Forall_cons in Hrange as [Ha Hrange].
    apply Forall_cons in Hrange as [Hb Hrange].
    apply Forall_cons in Hrange as [Hd _].
    destruct (Hentry a b Ha Hb) as (v & Hab & Hba).
    destruct (Hentry b d Hb Hd) as (w & Hbd & Hdb).
    change (reverse [a; b; d]) with [d; b; a].
    rewrite (route_distance_from_step _ _ a), Hab, bind_Ok.
    rewrite (route_distance_from_step _ _ d), Hdb, bind_Ok.
    rewrite !route_distance_from_step, Hbd, Hba, !bind_Ok,
      !route_distance_from_single.
    split; [by eexists|]. by rewrite add_zero_swap.
Qed.

Lemma CVRP_init_inv (depot : point) (locs : list point) (dems : list Z)
    (cap : Z) (c : CVRP) :
  CVRP_init depot locs dems cap = Ok c ->
  locations c = depot :: locs /\ demands c = 0 :: dems /\
  vehicle_capacity c = cap /\
  _create_distance_matrix (locations c) = Ok (distance_matrix c).
Proof.
  unfold CVRP_init. intros H. apply bind_Ok_inv in H as (m & Hm & H).
  injection H as <-. by simpl.
Qed.

(** C7, amended: in every constructed model the entries [matrix[i][j]] and
    [matrix[j][i]] are one and the same float (so they compare equal with
    [==] unless that float is NaN) and [matrix[i][i]] is the float zero; and
    for every route of at most three nodes within range, the route distance
    is defined and equals the route distance of the reversed route. *)
Theorem distance_matrix_symmetric (depot : point) (locs : list point)
    (dems : list Z) (cap : Z) (c : CVRP) :
  CVRP_init depot locs dems cap = Ok c ->
  let n := Z.of_nat (length (locations c)) in
  (forall i j, 0 <= i < n -> 0 <= j < n ->
     exists a, entry (distance_matrix c) i j = Ok a /\
               entry (distance_matrix c) j i = Ok a /\
               (Float.eqb a a = true \/ a = Float.nan)) /\
  (forall i, 0 <= i < n ->
     entry (distance_matrix c) i i = Ok Float.zero /\
     Float.eqb Float.zero (Float.of_Z 0) = true) /\
  (forall route, Forall (fun x => 0 <= x < n) route ->
     (length route <= 3)%nat ->
     is_Ok (calculate_route_distance c route) /\
     calculate_route_distance c (reverse route)
     = calculate_route_distance c route).
Proof.
  intros Hinit n. apply CVRP_init_inv in Hinit as (_ & _ & _ & Hm).
  apply create_distance_matrix_symmetric in Hm.
  pose proof Hm as (Hlen & Hrows & Hsym & Hdiag).
  split; [|split].
  - intros i j Hi Hj.
    assert (exists a, cell (distance_matrix c) (Z.to_nat i) (Z.to_nat j)
                      = Some a) as [a Ha].
    { unfold cell.
      destruct (lookup_lt_is_Some_2 (distance_matrix c) (Z.to_nat i))
        as [row Hrow]; [lia|].
      rewrite Hrow. simpl. apply lookup_lt_is_Some_2.
      eapply Forall_forall in Hrows; [|by eapply list_elem_of_lookup_2].
      rewrite Hrows. lia. }
    exists a. rewrite <- (Z2Nat.id i), <- (Z2Nat.id j) by lia.
    rewrite !entry_cell, <- (Hsym (Z.to_nat i)), Ha.
    repeat split. destruct a; [left|left|by right|left]; by apply eqb_refl.
  - intros i Hi. split; [|done]. rewrite <- (Z2Nat.id i) by lia.
    rewrite entry_cell, Hdiag; [done|lia].
  - intros route. by apply calculate_route_distance_short.
Qed.

Lemma far_model_built :
  CVRP_init (pt 0 0) [pt 0 1; pt 0 2; pt (2 ^ 52) 2] [1; 1; 1] 3
  = Ok far_model.
Proof. vm_compute. reflexivity. Qed.

Lemma infinite_model_built :
  CVRP_init (Float.inf, Float.zero) [(Float.inf, Float.zero)] [1] 3
  = Ok infinite_model.
Proof. vm_compute. reflexivity. Qed.

(** C7 as stated fails: on the model with customers at (0,1), (0,2) and
    (2^52, 2) the tour [[0; 1; 2; 3; 0]] is a valid solution of length
    [2^53 + 2], and the reversed tour has length [2^53]: float addition
    rounds, and the two sums add the same edges in opposite orders.  And on
    a model with infinite coordinates an entry of the matrix is NaN, which
    [==] does not hold equal to itself. *)
Lemma reversed_route_distance_differs :
  (CVRP_init (pt 0 0) [pt 0 1; pt 0 2; pt (2 ^ 52) 2] [1; 1; 1] 3
   = Ok far_model /\
   validate_solution far_model [[0; 1; 2; 3; 0]] = Ok true /\
   calculate_route_distance far_model [0; 1; 2; 3; 0]
   = Ok (Float.of_Z (2 ^ 53 + 2)) /\
   calculate_route_distance far_model (reverse [0; 1; 2; 3; 0])
   = Ok (Float.of_Z (2 ^ 53)) /\
   Float.eqb (Float.of_Z (2 ^ 53 + 2)) (Float.of_Z (2 ^ 53)) = false) /\
  (CVRP_init (Float.inf, Float.zero) [(Float.inf, Float.zero)] [1] 3
   = Ok infinite_model /\
   entry (distance_matrix infinite_model) 0 1 = Ok Float.nan /\
   entry (distance_matrix infinite_model) 1 0 = Ok Float.nan /\
   Float.eqb Float.nan Float.nan = false).
Proof.
  split.
  - split; [exact far_model_built|]. repeat split; vm_compute; reflexivity.
  - split; [exact infinite_model_built|]. repeat split.
Qed.

Lemma distance_matrix_symmetric_witness :
  CVRP_init (pt 0 0) [pt 0 1; pt 0 2; pt (2 ^ 52) 2] [1; 1; 1] 3
  = Ok far_model /\
  calculate_route_distance far_model (reverse [0; 3; 0])
  = calculate_route_distance far_model [0; 3; 0].
Proof.
  split; [exact far_model_built|].
  apply (distance_matrix_symmetric _ _ _ _ _ far_model_built).
  - repeat (apply Forall_cons; split; [vm_compute; split; [discriminate|reflexivity]|]).
    apply Forall_nil_2.
  - simpl. lia.
Defined.

(** ** Tabu search: one move *)

Lemma best_non_tabu_spec (tabu_list : list string)
    (neighbor_costs : list (solution * float)) :
  forall cand cost cand' cost',
    TabuSearch.best_non_tabu tabu_list cand cost neighbor_costs
    = (cand', cost') ->
    ((cand' = cand /\ cost' = cost) \/
     (exists n, cand' = Some n /\ (n, cost') ∈ neighbor_costs /\
                (Py.str_lists n ∉ tabu_list) /\ Float.ltb cost' cost = true)) /\
    (forall n k, (n, k) ∈ neighbor_costs -> Py.str_lists n ∉ tabu_list ->
                 Float.ltb k cost = true -> Float.ltb k cost' = false).
Proof.
  induction neighbor_costs as [|[x k] rest IH];
    intros cand cost cand' cost' H; simpl in H.
  - injection H as <- <-. split; [by left|].
    intros n k Hin. by apply elem_of_nil in Hin.
  - destruct (Float.ltb k cost) eqn:Hlt; simpl in H;
      [destruct (bool_decide (Py.str_lists x ∈ tabu_list)) eqn:Htabu;
       simpl in H|].
    + apply bool_decide_eq_true in Htabu.
      apply IH in H as (Hsel & Hmin). split.
      * destruct Hsel as [?|(n & ? & ? & ? & ?)]; [by left|right].
        exists n. repeat split; try done. by right.
      * intros n k' Hin Hnt Hk'.
        apply elem_of_cons in Hin as [Heq|Hin]; [|by eauto].
        injection Heq as -> ->. done.
    + apply bool_decide_eq_false in Htabu.
      apply IH in H as (Hsel & Hmin). split.
      * right. destruct Hsel as [[-> ->]|(n & -> & Hin & Hnt & Hlt')].
        -- exists x. repeat split; try done. left.
        -- exists n. repeat split; try done; [by right|].
           by eapply ltb_trans.
      * intros n k' Hin Hnt Hk'.
        apply elem_of_cons in Hin as [Heq|Hin].
        -- injection Heq as -> ->.
           destruct Hsel as [[_ ->]|(_ & _ & _ & _ & Hlt')];
             [apply ltb_irrefl|].
           destruct (Float.ltb k cost') eqn:E; [|done].
           pose proof (ltb_trans _ _ _ Hlt' E) as Hkk.
           by rewrite ltb_irrefl in Hkk.
        -- destruct (Float.ltb k' k) eqn:E; [by eauto|].
           destruct Hsel as [[_ ->]|(_ & _ & _ & _ & Hlt')]; [done|].
           destruct (Float.ltb k' cost') eqn:E'; [|done].
           by rewrite (ltb_trans _ _ _ E' Hlt') in E.
    + apply IH in H as (Hsel & Hmin). split.
      * destruct Hsel as [?|(n & ? & ? & ? & ?)]; [by left|right].
        exists n. repeat split; try done. by right.
      * intros n k' Hin Hnt Hk'.
        apply elem_of_cons in Hin as [Heq|Hin]; [|by eauto].
        injection Heq as -> ->. by rewrite Hk' in Hlt.
Qed.

(** From the empty candidate: a neighbour is chosen exactly when one is
    eligible, and then no neighbour outside the tabu list costs less. *)
Lemma best_non_tabu_from_none (tabu_list : list string)
    (neighbor_costs : list (solution * float)) :
  match TabuSearch.best_non_tabu tabu_list None Float.inf neighbor_costs with
  | (Some chosen, cost) =>
      (chosen, cost) ∈ neighbor_costs /\
      eligible tabu_list (chosen, cost) /\
      forall nc, nc ∈ neighbor_costs -> Py.str_lists nc.1 ∉ tabu_list ->
                 Float.ltb nc.2 cost = false
  | (None, cost) =>
      cost = Float.inf /\
      forall nc, nc ∈ neighbor_costs -> ~ eligible tabu_list nc
  end.
Proof.
  destruct (TabuSearch.best_non_tabu _ _ _ _) as [cand cost] eqn:H.
  apply best_non_tabu_spec in H as (Hsel & Hmin).
  destruct Hsel as [[-> ->]|(n & -> & Hin & Hnt & Hlt)].
  - split; [done|]. intros [n k] Hin [Hnt Hlt]. simpl in *.
    by rewrite (Hmin n k Hin Hnt Hlt) in Hlt.
  - split; [done|]. split; [done|]. intros [n' k] Hin' Hnt'. simpl in *.
    destruct (Float.ltb k Float.inf) eqn:E; [by eauto|].
    destruct (Float.ltb k cost) eqn:E'; [|done].
    by rewrite (ltb_trans _ _ _ E' Hlt) in E.
Qed.

(** What one move does with the evaluated neighbours. *)
Lemma move_spec (tabu_size : Z) (st : TabuSearch.state)
    (neighbor_costs : list (solution * float)) :
  let st' := TabuSearch.move tabu_size st neighbor_costs in
  ((exists nc, nc ∈ neighbor_costs /\ eligible (TabuSearch.tabu_list st) nc) ->
   exists chosen cost,
     (chosen, cost) ∈ neighbor_costs /\
     eligible (TabuSearch.tabu_list st) (chosen, cost) /\
     (forall nc, nc ∈ neighbor_costs ->
        Py.str_lists nc.1 ∉ TabuSearch.tabu_list st ->
        Float.ltb nc.2 cost = false) /\
     (TabuSearch.best_solution st', TabuSearch.best_cost st') =
       (if Float.ltb cost (TabuSearch.best_cost st) then (Some chosen, cost)
        else (TabuSearch.best_solution st, TabuSearch.best_cost st)) /\
     (chosen <> [] ->
      TabuSearch.current_solution st' = chosen /\
      TabuSearch.current_cost st' = cost /\
      TabuSearch.tabu_list st' =
        push_signature tabu_size (TabuSearch.tabu_list st)
          (Py.str_lists chosen))) /\
  ((forall nc, nc ∈ neighbor_costs ->
      ~ eligible (TabuSearch.tabu_list st) nc) ->
   st' = st).
Proof.
  intros st'. subst st'. unfold TabuSearch.move.
  pose proof (best_non_tabu_from_none (TabuSearch.tabu_list st)
                neighbor_costs) as Hsel.
  destruct (TabuSearch.best_non_tabu _ _ _ _) as [[chosen|] cost];
    cbv beta iota zeta; split.
  - intros _. destruct Hsel as (Hin & Hel & Hmin).
    exists chosen, cost. do 3 (split; [done|]). split.
    + by destruct chosen, (Float.ltb cost (TabuSearch.best_cost st)).
    + by destruct chosen.
  - intros Hnone. destruct Hsel as (Hin & Hel & _).
    by destruct (Hnone _ Hin).
  - intros (nc & Hin & Hel). destruct Hsel as [_ Hnone].
    by destruct (Hnone _ Hin).
  - intros _. destruct Hsel as [-> _]. rewrite ltb_inf_r. by destruct st.
Qed.

(** C8, amended: every iteration of tabu search that returns has generated and
    evaluated its neighbours; if some generated
    neighbour has a signature absent from the tabu list and a cost strictly
    below [+inf], then a lowest-cost such neighbour is chosen; the best
    solution and cost are replaced by it exactly when its cost is strictly
    below the best cost; and when the chosen neighbour is a non-empty list of
    routes it becomes the current solution whatever the current cost is, and
    its signature is appended to the tabu list, whose oldest entry is evicted
    when the list is then longer than [tabu_size].  If no neighbour has a
    signature absent from the tabu list and a cost strictly below [+inf],
    the current solution and cost, the best solution and cost and the tabu
    list are unchanged. *)
Theorem tabu_iteration_spec (c : CVRP) (tabu_size neighborhood_size : Z)
    (st : TabuSearch.state) (t : tape) (st' : TabuSearch.state) (t' : tape) :
  TabuSearch.iteration c tabu_size neighborhood_size st t = Ok (st', t') ->
  exists neighbors neighbor_costs,
    TabuSearch._generate_neighbors c neighborhood_size
      (TabuSearch.current_solution st) t = Ok (neighbors, t') /\
    TabuSearch.evaluate c neighbors = Ok neighbor_costs /\
    ((exists nc, nc ∈ neighbor_costs /\
                 eligible (TabuSearch.tabu_list st) nc) ->
     exists chosen cost,
       (chosen, cost) ∈ neighbor_costs /\
       eligible (TabuSearch.tabu_list st) (chosen, cost) /\
       (forall nc, nc ∈ neighbor_costs ->
          Py.str_lists nc.1 ∉ TabuSearch.tabu_list st ->
          Float.ltb nc.2 cost = false) /\
       (TabuSearch.best_solution st', TabuSearch.best_cost st') =
         (if Float.ltb cost (TabuSearch.best_cost st) then (Some chosen, cost)
          else (TabuSearch.best_solution st, TabuSearch.best_cost st)) /\
       (chosen <> [] ->
        TabuSearch.current_solution st' = chosen /\
        TabuSearch.current_cost st' = cost /\
        TabuSearch.tabu_list st' =
          push_signature tabu_size (TabuSearch.tabu_list st)
            (Py.str_lists chosen))) /\
    ((forall nc, nc ∈ neighbor_costs ->
        ~ eligible (TabuSearch.tabu_list st) nc) ->
     TabuSearch.current_solution st' = TabuSearch.current_solution st /\
     TabuSearch.current_cost st' = TabuSearch.current_cost st /\
     TabuSearch.best_solution st' = TabuSearch.best_solution st /\
     TabuSearch.best_cost st' = TabuSearch.best_cost st /\
     TabuSearch.tabu_list st' = TabuSearch.tabu_list st).
Proof.
  intros H. unfold TabuSearch.iteration in H.
  apply rand_bind_Ok_inv in H as (ns & t1 & Hns & H).
  apply rand_bind_Ok_inv in H as (ncs & t2 & Hncs & H).
  apply lift_Ok_inv in Hncs as [Hncs ->].
  apply rand_bind_Ok_inv in H as (stats' & t3 & Hstats & H).
  apply lift_Ok_inv in Hstats as [_ ->].
  injection H as <- <-. exists ns, ncs. split; [done|]. split; [done|].
  cbn [TabuSearch.current_solution TabuSearch.current_cost
       TabuSearch.best_solution TabuSearch.best_cost TabuSearch.tabu_list].
  destruct (move_spec tabu_size st ncs) as [Hsome Hnone]. split.
  - exact Hsome.
  - intros Hno. by rewrite (Hnone Hno).
Qed.

Lemma unreachable_model_built :
  CVRP_init (pt (2 ^ 1023) 0) [pt (- 2 ^ 1023) 0; pt (- 2 ^ 1023) 1] [1; 1] 2
  = Ok unreachable_model.
Proof. vm_compute. reflexivity. Qed.

(** C8 as stated fails twice.  On [unreachable_model] every tour costs
    [+inf]: the neighbour [[0; 2; 1; 0]] of [[0; 1; 2; 0]] is not tabu, yet
    the current solution stays and nothing is pushed.  On the model without
    customers the only neighbour is the empty solution: it is not tabu and
    is selected, yet its signature is not pushed. *)
Lemma tabu_move_skips_non_tabu_neighbor :
  (CVRP_init (pt (2 ^ 1023) 0) [pt (- 2 ^ 1023) 0; pt (- 2 ^ 1023) 1] [1; 1] 2
   = Ok unreachable_model /\
   _calculate_cost unreachable_model [[0; 1; 2; 0]] = Ok Float.inf /\
   TabuSearch._generate_neighbors unreachable_model 1 [[0; 1; 2; 0]] [0; 0]%N
   = Ok ([[[0; 2; 1; 0]]], []) /\
   TabuSearch.evaluate unreachable_model [[[0; 2; 1; 0]]]
   = Ok [([[0; 2; 1; 0]], Float.inf)] /\
   (Py.str_lists [[0; 2; 1; 0]] ∉ TabuSearch.tabu_list unreachable_start) /\
   exists st',
     TabuSearch.iteration unreachable_model 50 1 unreachable_start [0; 0]%N
     = Ok (st', []) /\
     TabuSearch.current_solution st' = [[0; 1; 2; 0]] /\
     TabuSearch.tabu_list st' = []) /\
  (_calculate_cost empty_model [] = Ok Float.zero /\
   TabuSearch._generate_neighbors empty_model 20 [] [] = Ok ([[]], []) /\
   TabuSearch.evaluate empty_model [[]] = Ok [([], Float.zero)] /\
   (Py.str_lists [] ∉ TabuSearch.tabu_list empty_start) /\
   exists st',
     TabuSearch.iteration empty_model 50 20 empty_start [] = Ok (st', []) /\
     TabuSearch.tabu_list st' = []).
Proof.
  split.
  - split; [exact unreachable_model_built|].
    do 3 (split; [vm_compute; reflexivity|]).
    split; [apply not_elem_of_nil|].
    eexists. split; [vm_compute; reflexivity|]. by split.
  - do 3 (split; [vm_compute; reflexivity|]).
    split; [apply not_elem_of_nil|].
    eexists. split; [vm_compute; reflexivity|]. done.
Qed.

Lemma tabu_iteration_spec_witness :
  exists st',
    TabuSearch.iteration scenario_model 1 1
      {| TabuSearch.current_solution := [[0; 1; 2; 0]; [0; 3; 4; 0]];
         TabuSearch.current_cost := Float.of_Z 8;
         TabuSearch.best_solution := Some [[0; 1; 2; 0]; [0; 3; 4; 0]];
         TabuSearch.best_cost := Float.of_Z 8;
         TabuSearch.tabu_list := ["[[0, 1, 2, 0], [0, 3, 4, 0]]"];
         TabuSearch.run_stats := empty_stats |} [0; 0]%N = Ok (st', []) /\
    TabuSearch.current_solution st' = [[0; 2; 1; 0]; [0; 3; 4; 0]] /\
    TabuSearch.tabu_list st' = ["[[0, 2, 1, 0], [0, 3, 4, 0]]"].
Proof.
  eexists. split; [vm_compute; reflexivity|].
  match goal with
  | |- TabuSearch.current_solution ?st' = _ /\ _ =>
      destruct (tabu_iteration_spec scenario_model 1 1
        {| TabuSearch.current_solution := [[0; 1; 2; 0]; [0; 3; 4; 0]];
           TabuSearch.current_cost := Float.of_Z 8;
           TabuSearch.best_solution := Some [[0; 1; 2; 0]; [0; 3; 4; 0]];
           TabuSearch.best_cost := Float.of_Z 8;
           TabuSearch.tabu_list := ["[[0, 1, 2, 0], [0, 3, 4, 0]]"];
           TabuSearch.run_stats := empty_stats |} [0; 0]%N st' [])
        as (ns & ncs & Hns & Hncs & Hsome & _); [vm_compute; reflexivity|]
  end.
  vm_compute in Hns. injection Hns as <-.
  vm_compute in Hncs. injection Hncs as <-.
  destruct Hsome as (chosen & cost & Hin & _ & _ & _ & Hmove).
  { eexists. split; [left|]. split; [|reflexivity].
    cbn [fst]. intros Hin. apply list_elem_of_singleton in Hin.
    vm_compute in Hin. discriminate. }
  apply list_elem_of_singleton in Hin. injection Hin as -> ->.
  destruct Hmove as (H1 & _ & H3); [done|]. split; [exact H1|exact H3].
Defined.

(** ** Solutions that pass validation *)

Lemma visit_nodes_spec (n : Z) (nodes : list Z) :
  forall visited : gset Z,
    NoDup nodes ->
    (forall x, x ∈ nodes -> (x ∉ visited) /\ 0 < x < n) ->
    visit_nodes n visited nodes = Some (list_to_set nodes ∪ visited).
Proof.
  induction nodes as [|x rest IH]; intros visited Hnd Hall; simpl.
  - by rewrite (left_id_L ∅ (∪)).
  - apply NoDup_cons in Hnd as [Hx Hnd].
    destruct (Hall x) as [Hnv Hr]; [left|].
    rewrite bool_decide_eq_false_2 by done.
    destruct (Z.leb_spec x 0); [lia|].
    destruct (Z.geb_spec x n); [lia|]. simpl.
    rewrite IH; [|done|].
    + f_equal. apply set_eq. intros y. rewrite !elem_of_union. tauto.
    + intros y Hy. destruct (Hall y) as [Hyv Hyr]; [by right|].
      split; [|done]. rewrite elem_of_union, elem_of_singleton.
      intros [->|Hin]; done.
Qed.

Lemma visit_routes_spec (n : Z) (s : solution) :
  forall visited : gset Z,
    NoDup (flatten_interiors s) ->
    (forall x, x ∈ flatten_interiors s -> (x ∉ visited) /\ 0 < x < n) ->
    visit_routes n visited s
    = Some (list_to_set (flatten_interiors s) ∪ visited).
Proof.
  induction s as [|r rest IH]; intros visited Hnd Hall; simpl.
  - by rewrite (left_id_L ∅ (∪)).
  - change (flatten_interiors (r :: rest))
      with (Py.interior r ++ flatten_interiors rest) in *.
    apply NoDup_app in Hnd as (Hnd1 & Hdisj & Hnd2).
    rewrite visit_nodes_spec; [|done|].
    2:{ intros x Hx. apply Hall. apply elem_of_app. by left. }
    rewrite IH; [|done|].
    + f_equal. rewrite list_to_set_app_L. apply set_eq. intros y.
      rewrite !elem_of_union. tauto.
    + intros x Hx.
      destruct (Hall x) as [Hxv Hxr]; [apply elem_of_app; by right|].
      split; [|done]. intros Hin.
      apply elem_of_union in Hin as [Hin|Hin]; [|done].
      apply elem_of_list_to_set in Hin. by apply (Hdisj x).
Qed.

Lemma sum_demands_anchored (D : list Z) (seg : list Z) (s : Z) :
  Py.index D 0 = Ok 0 ->
  sum_demands D 0 seg = Ok s ->
  sum_demands D 0 (0 :: seg ++ [0]) = Ok s.
Proof.
  intros H0 Hs. cbn [sum_demands]. rewrite H0, bind_Ok.
  change (0 + 0) with 0.
  rewrite (sum_demands_snoc D seg 0 s 0 Hs H0). f_equal. lia.
Qed.

Lemma check_capacity_true (c : CVRP) (s : solution) :
  Py.index (demands c) 0 = Ok 0 ->
  Forall depot_anchored s -> Forall (within_capacity c) s ->
  check_capacity c s = Ok true.
Proof.
  intros H0. induction 1 as [|r rest [seg ->] _ IH]; intros Hcap; [done|].
  apply Forall_cons in Hcap as [(sum & Hsum & Hle) Hcap]. simpl.
  rewrite interior_anchored in Hsum.
  pose proof (sum_demands_anchored _ _ _ H0 Hsum) as Hr. simpl in Hr.
  rewrite Hr. simpl.
  destruct (Z.gtb_spec sum (vehicle_capacity c)); [lia|]. by apply IH.
Qed.

Lemma check_depots_true (s : solution) :
  Forall depot_anchored s -> check_depots s = Ok true.
Proof.
  induction 1 as [|r rest Hr _ IH]; [done|].
  apply depot_anchored_ends in Hr as [H0 H1]. simpl.
  by rewrite H0, H1.
Qed.

Lemma customers_of_spec (c : CVRP) (x : Z) :
  x ∈ customers_of c <-> 1 <= x < Z.of_nat (length (locations c)).
Proof. unfold customers_of, Py.range. rewrite elem_of_seqZ. lia. Qed.

Lemma customers_of_length (c : CVRP) :
  locations c <> [] ->
  Z.of_nat (length (customers_of c)) = Z.of_nat (length (locations c)) - 1.
Proof.
  intros Hne. unfold customers_of, Py.range. rewrite length_seqZ.
  destruct (locations c); [done|]. simpl. lia.
Qed.

(** What [validate_solution] needs: depot-anchored routes within capacity
    whose interiors together are the customers, each once. *)
Lemma validate_sufficient (c : CVRP) (s : solution) :
  locations c <> [] ->
  Py.index (demands c) 0 = Ok 0 ->
  Forall depot_anchored s ->
  Forall (within_capacity c) s ->
  flatten_interiors s ≡ₚ customers_of c ->
  valid c s.
Proof.
  intros Hne H0 Hanch Hcap Hperm. unfold valid, validate_solution.
  rewrite visit_routes_spec.
  - rewrite (right_id_L ∅ (∪)), size_list_to_set.
    2:{ rewrite Hperm. apply NoDup_seqZ. }
    rewrite Hperm, customers_of_length by done.
    rewrite Z.eqb_refl. simpl.
    rewrite check_capacity_true by done. simpl.
    by apply check_depots_true.
  - rewrite Hperm. apply NoDup_seqZ.
  - intros x Hx. rewrite Hperm in Hx. apply customers_of_spec in Hx.
    split; [apply not_elem_of_empty|lia].
Qed.

Lemma feasible_model_inv (c : CVRP) :
  feasible_model c ->
  locations c <> [] /\ Py.index (demands c) 0 = Ok 0 /\
  forall x d, x ∈ customers_of c -> Py.index (demands c) x = Ok d ->
              d <= vehicle_capacity c.
Proof.
  intros (depot & locs & dems & cap & Hinit & Hdems).
  apply CVRP_init_inv in Hinit as (Hloc & Hdem & Hcap & _).
  rewrite Hloc, Hdem, Hcap. split; [done|]. split; [apply index_first|].
  intros x d Hx Hd. apply customers_of_spec in Hx.
  rewrite <- (Z2Nat.id x), index_nonneg in Hd by lia.
  destruct (Z.to_nat x) as [|k] eqn:E; [lia|]. simpl in Hd.
  destruct (dems !! k) as [d'|] eqn:Hk; [|discriminate].
  injection Hd as <-. eapply Forall_forall in Hdems; [done|].
  by eapply list_elem_of_lookup_2.
Qed.

Lemma split_loop_reads (c : CVRP) (customers : list Z) :
  forall routes cur load r,
    split_loop c routes cur load customers = Ok r ->
    Forall (fun x => is_Ok (Py.index (demands c) x)) customers.
Proof.
  induction customers as [|x rest IH]; intros routes cur load r H; [done|].
  simpl in H. apply bind_Ok_inv in H as (d & Hd & H).
  apply Forall_cons. split; [by exists d|].
  destruct (_ >? _); by eapply IH.
Qed.

Lemma split_of_ordering_valid (c : CVRP) (s : solution) :
  feasible_model c -> split_of_ordering c s -> valid c s.
Proof.
  intros Hc (p & Hperm & Hsplit).
  apply feasible_model_inv in Hc as (Hne & H0 & Hfit).
  apply validate_sufficient; try done.
  - by eapply split_anchored.
  - apply (split_capacity c p); [|done].
    unfold _split_to_routes in Hsplit.
    apply bind_Ok_inv in Hsplit as (r & Hloop & _).
    apply split_loop_reads in Hloop.
    apply Forall_forall. intros x Hx.
    eapply Forall_forall in Hloop as [d Hd]; [|done].
    exists d. split; [done|]. apply (Hfit x); [|done]. by rewrite <- Hperm.
  - by rewrite (split_flatten c p s Hsplit).
Qed.

Lemma random_solution_split (c : CVRP) (t : tape) (s : solution) (t' : tape) :
  _random_solution c t = Ok (s, t') -> split_of_ordering c s.
Proof.
  unfold _random_solution. intros H.
  apply rand_bind_Ok_inv in H as (p & t1 & Hp & H).
  apply lift_Ok_inv in H as [H _]. exists p. split; [|done].
  by eapply shuffle_Permutation.
Qed.

Lemma swap_Permutation {A} (l : list A) (i j : nat) : Py.swap l i j ≡ₚ l.
Proof.
  unfold Py.swap.
  destruct (l !! i) as [x|] eqn:Hi; [|done].
  destruct (l !! j) as [y|] eqn:Hj; [|done].
  destruct (decide (i = j)) as [->|Hne].
  - rewrite list_insert_insert_eq. rewrite Hi in Hj. injection Hj as <-.
    by rewrite list_insert_id.
  - symmetry. apply Permutation_inj. split; [by rewrite !length_insert|].
    exists (fun k => if decide (k = i) then j else if decide (k = j) then i
                     else k).
    split.
    + intros a b Hab. repeat case_decide; congruence.
    + intros k. repeat case_decide; subst.
      * rewrite list_lookup_insert_eq; [done|].
        rewrite length_insert. by eapply lookup_lt_Some.
      * rewrite list_lookup_insert_ne by done.
        rewrite list_lookup_insert_eq; [done|]. by eapply lookup_lt_Some.
      * by rewrite !list_lookup_insert_ne by done.
Qed.

Lemma swap_neighbor_split (c : CVRP) (s : solution) (t : tape)
    (s' : solution) (t' : tape) :
  split_of_ordering c s ->
  swap_neighbor c s t = Ok (Some s', t') -> split_of_ordering c s'.
Proof.
  intros (p & Hperm & Hsplit). unfold swap_neighbor.
  rewrite (split_flatten c p s Hsplit).
  destruct (length p <? 2)%nat; [discriminate|]. intros H.
  apply rand_bind_Ok_inv in H as ([i j] & t1 & _ & H).
  apply rand_bind_Ok_inv in H as (s1 & t2 & H & Hret).
  apply lift_Ok_inv in H as [H _]. injection Hret as <- _.
  exists (Py.swap p i j). split; [|done]. by rewrite swap_Permutation.
Qed.

(** *** When validation returns *)

Lemma visit_nodes_range (n : Z) (nodes : list Z) :
  forall visited v : gset Z,
    visit_nodes n visited nodes = Some v ->
    Forall (fun x => 0 < x < n) nodes.
Proof.
  induction nodes as [|x rest IH]; intros visited v H; simpl in H; [done|].
  destruct (bool_decide _); [discriminate|].
  destruct (Z.leb_spec x 0); [discriminate|].
  destruct (Z.geb_spec x n); [discriminate|]. simpl in H.
  apply Forall_cons. split; [lia|]. by eapply IH.
Qed.

Lemma visit_routes_range (n : Z) (s : solution) :
  forall visited v : gset Z,
    visit_routes n visited s = Some v ->
    Forall (fun r => Forall (fun x => 0 < x < n) (Py.interior r)) s.
Proof.
  induction s as [|r rest IH]; intros visited v H; simpl in H; [done|].
  destruct (visit_nodes n visited (Py.interior r)) as [v1|] eqn:Hr;
    [|discriminate].
  apply Forall_cons. split; [by eapply visit_nodes_range|by eapply IH].
Qed.

Lemma route_ends (r : list Z) :
  r <> [] ->
  exists first last,
    Py.index r 0 = Ok first /\ Py.index r (-1) = Ok last /\
    (r = [first] \/ r = first :: Py.interior r ++ [last]).
Proof.
  intros Hne. destruct r as [|a r]; [done|].
  destruct (decide (r = [])) as [->|Hr].
  - exists a, a. split; [apply index_first|].
    split; [exact (index_last [] a)|]. by left.
  - destruct (exists_last Hr) as (seg & b & ->).
    exists a, b. split; [apply index_first|]. split.
    + change (a :: seg ++ [b]) with ((a :: seg) ++ [b]). apply index_last.
    + right. by rewrite interior_anchored.
Qed.

Lemma sum_demands_returns (D : list Z) (route : list Z) :
  Forall (fun x => is_Ok (Py.index D x)) route ->
  forall acc, is_Ok (sum_demands D acc route).
Proof.
  induction 1 as [|x rest [d Hd] _ IH]; intros acc; simpl; [by eexists|].
  rewrite Hd. apply IH.
Qed.

Lemma check_capacity_returns (c : CVRP) (s : solution) :
  Forall (Forall (fun x => is_Ok (Py.index (demands c) x))) s ->
  is_Ok (check_capacity c s).
Proof.
  induction 1 as [|r rest Hr _ IH]; simpl; [by eexists|].
  destruct (sum_demands_returns _ _ Hr 0) as [d ->]. simpl.
  destruct (d >? vehicle_capacity c); [by eexists|done].
Qed.

Lemma check_depots_returns (s : solution) :
  Forall (fun r => r <> []) s -> is_Ok (check_depots s).
Proof.
  induction 1 as [|r rest Hr _ IH]; simpl; [by eexists|].
  destruct (route_ends r Hr) as (a & b & -> & -> & _). simpl.
  destruct (negb (a =? 0)); [by eexists|].
  destruct (negb (b =? 0)); [by eexists|done].
Qed.

(** X22: [validate_solution] returns a boolean on every solution whose routes are
    non-empty with a first and a last node that index the demand vector,
    provided the model has a demand for every location. *)
Lemma validate_solution_returns (c : CVRP) (s : solution) :
  (length (locations c) <= length (demands c))%nat ->
  Forall (fun r => exists first last,
            Py.index r 0 = Ok first /\ Py.index r (-1) = Ok last /\
            is_Ok (Py.index (demands c) first) /\
            is_Ok (Py.index (demands c) last)) s ->
  exists b, validate_solution c s = Ok b.
Proof.
  intros Hlen Hends. unfold validate_solution.
  destruct (visit_routes _ _ _) as [visited|] eqn:Hvisit; [|by eexists].
  destruct (negb _); [by eexists|].
  apply visit_routes_range in Hvisit.
  assert (Hne : Forall (fun r : list Z => r <> []) s).
  { eapply Forall_impl; [exact Hends|].
    intros r (a & b & Ha & _) ->. discriminate. }
  destruct (check_capacity_returns c s) as [ok Hok].
  { apply Forall_forall. intros r Hr.
    eapply Forall_forall in Hends as (a & b & Ha & Hb & Hda & Hdb); [|done].
    eapply Forall_forall in Hvisit; [|done].
    assert (Hint : Forall (fun x => is_Ok (Py.index (demands c) x))
                     (Py.interior r)).
    { eapply Forall_impl; [exact Hvisit|]. intros x Hx.
      cbv beta in Hx. apply index_in_range. lia. }
    destruct (route_ends r) as (a' & b' & Ha' & Hb' & [Hr1|Hr2]).
    - intros ->. discriminate.
    - rewrite Ha in Ha'. injection Ha' as <-. rewrite Hr1.
      by apply Forall_singleton.
    - rewrite Ha in Ha'. injection Ha' as <-.
      rewrite Hb in Hb'. injection Hb' as <-. rewrite Hr2.
      apply Forall_cons. split; [done|]. apply Forall_app. split; [done|].
      by apply Forall_singleton. }
  rewrite Hok. simpl. destruct ok; simpl; [|by eexists].
  by apply check_depots_returns.
Qed.

(** ** The strategies return solutions that pass validation *)

Lemma repeat_loop_invariant {S} (P : S -> Prop) (body : S -> rand S) (n : nat) :
  forall s t s' t',
    P s ->
    (forall s t s' t', P s -> body s t = Ok (s', t') -> P s') ->
    repeat_loop n body s t = Ok (s', t') -> P s'.
Proof.
  induction n as [|n IH]; intros s t s' t' Hs Hbody H; simpl in H.
  - by injection H as <- _.
  - apply rand_bind_Ok_inv in H as (s1 & t1 & H1 & H).
    eapply IH; [|done|done]. by eapply Hbody.
Qed.

(** *** Random sampling *)

Lemma random_iteration_invariant (lib : numlib) (c : CVRP)
    (st : RandomAlgorithm.state) t st' t' :
  (forall s, RandomAlgorithm.best_solution st = Some s ->
             split_of_ordering c s) ->
  RandomAlgorithm.iteration lib c st t = Ok (st', t') ->
  forall s, RandomAlgorithm.best_solution st' = Some s ->
            split_of_ordering c s.
Proof.
  intros Hst H. unfold RandomAlgorithm.iteration in H.
  apply rand_bind_Ok_inv in H as (s1 & t1 & Hs1 & H).
  apply random_solution_split in Hs1.
  apply rand_bind_Ok_inv in H as (cost & t2 & _ & H).
  apply rand_bind_Ok_inv in H as (stats' & t3 & _ & H).
  injection H as <- _. simpl.
  destruct (Float.ltb cost _); [|done]. intros s Hs. by injection Hs as <-.
Qed.

Lemma random_run_split (lib : numlib) (c : CVRP) (num_iterations : Z)
    t r t' s :
  RandomAlgorithm.run lib c num_iterations t = Ok (r, t') ->
  best_solution r = Some s -> split_of_ordering c s.
Proof.
  unfold RandomAlgorithm.run. intros H.
  apply rand_bind_Ok_inv in H as (st & t1 & Hloop & H).
  apply lift_Ok_inv in H as [H _].
  unfold RandomAlgorithm._prepare_results in H.
  apply bind_Ok_inv in H as (lo & _ & H).
  apply bind_Ok_inv in H as (hi & _ & H). injection H as <-. simpl.
  revert s.
  eapply (repeat_loop_invariant
            (fun st => forall s, RandomAlgorithm.best_solution st = Some s ->
                                 split_of_ordering c s)); [| |exact Hloop].
  - done.
  - intros. by eapply random_iteration_invariant.
Qed.

(** *** Simulated annealing *)

Lemma get_neighbor_split (c : CVRP) (s : solution) t s' t' :
  split_of_ordering c s ->
  SimulatedAnnealing._get_neighbor c s t = Ok (s', t') ->
  split_of_ordering c s'.
Proof.
  intros Hs H. unfold SimulatedAnnealing._get_neighbor in H.
  apply rand_bind_Ok_inv in H as ([n|] & t1 & Hn & H); injection H as <- _.
  - by eapply swap_neighbor_split.
  - done.
Qed.

Lemma annealing_iteration_invariant (lib : numlib) (c : CVRP)
    (cooling_rate : float) (st : SimulatedAnnealing.state) t st' t' :
  split_of_ordering c (SimulatedAnnealing.current_solution st) /\
  split_of_ordering c (SimulatedAnnealing.best_solution st) ->
  SimulatedAnnealing.iteration lib c cooling_rate st t = Ok (st', t') ->
  split_of_ordering c (SimulatedAnnealing.current_solution st') /\
  split_of_ordering c (SimulatedAnnealing.best_solution st').
Proof.
  intros [Hcur Hbest] H. unfold SimulatedAnnealing.iteration in H.
  apply rand_bind_Ok_inv in H as (s1 & t1 & Hs1 & H).
  apply get_neighbor_split in Hs1; [|done].
  apply rand_bind_Ok_inv in H as (cost & t2 & _ & H).
  apply rand_bind_Ok_inv in H as (accept & t3 & _ & H).
  apply rand_bind_Ok_inv in H as (stats' & t4 & _ & H).
  injection H as <- _. simpl.
  split; [by destruct accept|by destruct (accept && _)].
Qed.

Lemma annealing_run_split (lib : numlib) (c : CVRP)
    (initial_temp cooling_rate : float) (iterations : Z) t r t' s :
  SimulatedAnnealing.run lib c initial_temp cooling_rate iterations t
  = Ok (r, t') ->
  best_solution r = Some s -> split_of_ordering c s.
Proof.
  unfold SimulatedAnnealing.run. intros H.
  apply rand_bind_Ok_inv in H as (s0 & t0 & Hs0 & H).
  apply random_solution_split in Hs0.
  apply rand_bind_Ok_inv in H as (cost & t1 & _ & H).
  apply rand_bind_Ok_inv in H as (st & t2 & Hloop & H).
  apply lift_Ok_inv in H as [H _].
  unfold trajectory_prepare_results in H.
  apply bind_Ok_inv in H as (worst & _ & H). injection H as <-. simpl.
  intros Hs. injection Hs as <-.
  eapply (repeat_loop_invariant
            (fun st =>
               split_of_ordering c (SimulatedAnnealing.current_solution st) /\
               split_of_ordering c (SimulatedAnnealing.best_solution st)));
    [| |exact Hloop].
  - done.
  - intros. by eapply annealing_iteration_invariant.
Qed.

(** *** Tabu search *)

Lemma generate_neighbors_split (c : CVRP) (neighborhood_size : Z)
    (s : solution) t ns t' :
  split_of_ordering c s ->
  TabuSearch._generate_neighbors c neighborhood_size s t = Ok (ns, t') ->
  Forall (split_of_ordering c) ns.
Proof.
  intros Hs H. unfold TabuSearch._generate_neighbors in H.
  apply rand_bind_Ok_inv in H as (ns1 & t1 & Hloop & H).
  assert (Hns1 : Forall (split_of_ordering c) ns1).
  { eapply (repeat_loop_invariant (Forall (split_of_ordering c)));
      [| |exact Hloop]; [done|].
    clear Hloop H. intros ns0 t0 ns' t0' Hns H.
    apply rand_bind_Ok_inv in H as ([n|] & t2 & Hn & H); injection H as <- _;
      [|done].
    apply Forall_app. split; [done|]. apply Forall_singleton.
    by eapply swap_neighbor_split. }
  injection H as <- _. destruct ns1; [|done]. by apply Forall_singleton.
Qed.

Lemma map_outcome_fst {A B} (f : A -> outcome B) (l : list A)
    (r : list (A * B)) :
  Py.map_outcome (fun x => y ← f x; Ok (x, y)) l = Ok r -> r.*1 = l.
Proof.
  revert r. induction l as [|x rest IH]; intros r H; simpl in H.
  - by injection H as <-.
  - apply bind_Ok_inv in H as ([x' y] & Hxy & H).
    apply bind_Ok_inv in Hxy as (y' & _ & Hxy). injection Hxy as <- <-.
    apply bind_Ok_inv in H as (r' & Hr' & H). injection H as <-.
    rewrite fmap_cons. simpl. f_equal. by apply IH.
Qed.

Lemma tabu_iteration_invariant (c : CVRP) (tabu_size neighborhood_size : Z)
    (st : TabuSearch.state) t st' t' :
  split_of_ordering c (TabuSearch.current_solution st) /\
  (forall s, TabuSearch.best_solution st = Some s -> split_of_ordering c s) ->
  TabuSearch.iteration c tabu_size neighborhood_size st t = Ok (st', t') ->
  split_of_ordering c (TabuSearch.current_solution st') /\
  (forall s, TabuSearch.best_solution st' = Some s -> split_of_ordering c s).
Proof.
  intros [Hcur Hbest] H. unfold TabuSearch.iteration in H.
  apply rand_bind_Ok_inv in H as (ns & t1 & Hns & H).
  apply generate_neighbors_split in Hns; [|done].
  apply rand_bind_Ok_inv in H as (ncs & t2 & Hncs & H).
  apply lift_Ok_inv in Hncs as [Hncs _].
  apply map_outcome_fst in Hncs.
  apply rand_bind_Ok_inv in H as (stats' & t3 & _ & H).
  injection H as <- _. simpl. unfold TabuSearch.move.
  destruct (TabuSearch.best_non_tabu _ _ _ _) as [cand cost] eqn:Hsel.
  apply best_non_tabu_spec in Hsel as [Hsel _].
  assert (Hcand : forall n, cand = Some n -> split_of_ordering c n).
  { intros n ->. destruct Hsel as [[? _]|(n' & Heq & Hin & _)]; [done|].
    injection Heq as <-. eapply Forall_forall; [exact Hns|].
    rewrite <- Hncs. apply list_elem_of_fmap. by exists (n, cost). }
  destruct cand as [[|r n]|]; simpl.
  - split; [done|].
    destruct (Float.ltb cost (TabuSearch.best_cost st)); [|done].
    intros s Hs. by apply Hcand.
  - split; [by apply Hcand|].
    destruct (Float.ltb cost (TabuSearch.best_cost st)); [|done].
    intros s Hs. by apply Hcand.
  - split; [done|].
    by destruct (Float.ltb cost (TabuSearch.best_cost st)).
Qed.

Lemma tabu_run_split (lib : numlib) (c : CVRP)
    (iterations tabu_size neighborhood_size : Z) t r t' s :
  TabuSearch.run lib c iterations tabu_size neighborhood_size t = Ok (r, t') ->
  best_solution r = Some s -> split_of_ordering c s.
Proof.
  unfold TabuSearch.run. intros H.
  apply rand_bind_Ok_inv in H as (s0 & t0 & Hs0 & H).
  apply random_solution_split in Hs0.
  apply rand_bind_Ok_inv in H as (cost & t1 & _ & H).
  apply rand_bind_Ok_inv in H as (st & t2 & Hloop & H).
  apply lift_Ok_inv in H as [H _].
  unfold trajectory_prepare_results in H.
  apply bind_Ok_inv in H as (worst & _ & H). injection H as <-. simpl.
  revert s.
  eapply (repeat_loop_invariant
            (fun st =>
               split_of_ordering c (TabuSearch.current_solution st) /\
               (forall s, TabuSearch.best_solution st = Some s ->
                          split_of_ordering c s)));
    [| |exact Hloop].
  - simpl. split; [done|]. intros s Hs. by injection Hs as <-.
  - intros. by eapply tabu_iteration_invariant.
Qed.

(** *** The genetic algorithm *)

Lemma initialize_population_valid (c : CVRP) (pop_size : Z) (fuel : nat) :
  forall population t population' t',
    Forall (valid c) population ->
    GeneticAlgorithm._initialize_population fuel c pop_size population t
    = Ok (population', t') ->
    Forall (valid c) population'.
Proof.
  induction fuel as [|fuel IH]; intros population t population' t' Hpop H;
    simpl in H; destruct (_ <? pop_size); try discriminate;
    try by injection H as <- _.
  apply rand_bind_Ok_inv in H as (s & t1 & _ & H).
  apply rand_bind_Ok_inv in H as (ok & t2 & Hok & H).
  apply lift_Ok_inv in Hok as [Hok _].
  eapply IH; [|exact H]. destruct ok; [|done].
  apply Forall_app. split; [done|]. by apply Forall_singleton.
Qed.

Lemma offspring_valid (g : GeneticAlgorithm.t) (population : list solution)
    (fuel : nat) :
  forall new_pop t new_pop' t',
    Forall (valid (GeneticAlgorithm.cvrp g)) new_pop ->
    GeneticAlgorithm.offspring fuel g population new_pop t
    = Ok (new_pop', t') ->
    Forall (valid (GeneticAlgorithm.cvrp g)) new_pop'.
Proof.
  induction fuel as [|fuel IH]; intros new_pop t new_pop' t' Hpop H;
    simpl in H; destruct (_ <? GeneticAlgorithm.pop_size g);
    try discriminate; try by injection H as <- _.
  apply rand_bind_Ok_inv in H as (parent1 & t1 & _ & H).
  apply rand_bind_Ok_inv in H as (parent2 & t2 & _ & H).
  apply rand_bind_Ok_inv in H as (u & t3 & _ & H).
  apply rand_bind_Ok_inv in H as (child & t4 & _ & H).
  apply rand_bind_Ok_inv in H as (child' & t5 & _ & H).
  apply rand_bind_Ok_inv in H as (ok & t6 & Hok & H).
  apply lift_Ok_inv in Hok as [Hok _].
  eapply IH; [|exact H]. destruct ok; [|done].
  apply Forall_app. split; [done|]. by apply Forall_singleton.
Qed.

Lemma insert_sorted_Permutation {A} (x : A * float) (l : list (A * float)) :
  Builtin.insert_sorted x l ≡ₚ x :: l.
Proof.
  induction l as [|y rest IH]; simpl; [done|].
  destruct (Float.ltb _ _); [|done]. rewrite IH. apply Permutation_swap.
Qed.

Lemma sort_keyed_Permutation {A} (l : list (A * float)) :
  Builtin.sort_keyed l ≡ₚ l.
Proof.
  induction l as [|x rest IH]; simpl; [done|].
  by rewrite insert_sorted_Permutation, IH.
Qed.

Lemma generation_valid (lib : numlib) (fuel : nat) (g : GeneticAlgorithm.t)
    (ps : list solution * stats) t ps' t' :
  Forall (valid (GeneticAlgorithm.cvrp g)) ps.1 ->
  GeneticAlgorithm.generation lib fuel g ps t = Ok (ps', t') ->
  Forall (valid (GeneticAlgorithm.cvrp g)) ps'.1.
Proof.
  destruct ps as [population st]. simpl. intros Hpop H.
  apply rand_bind_Ok_inv in H as (fitness & t1 & _ & H).
  apply rand_bind_Ok_inv in H as (lo & t2 & _ & H).
  apply rand_bind_Ok_inv in H as (hi & t3 & _ & H).
  apply rand_bind_Ok_inv in H as (new_pop & t4 & Hoff & H).
  injection H as <- _. simpl.
  eapply offspring_valid; [|exact Hoff].
  unfold Py.slice_to.
  assert (Hsorted : Forall (valid (GeneticAlgorithm.cvrp g))
                      (Builtin.sort_keyed (zip population fitness)).*1).
  { rewrite sort_keyed_Permutation. apply Forall_forall. intros x Hx.
    apply list_elem_of_fmap in Hx as ([x' k] & -> & Hx).
    apply elem_of_zip_l in Hx. by eapply Forall_forall in Hpop. }
  destruct (_ <? 0); by apply Forall_take.
Qed.

Lemma genetic_run_valid (lib : numlib) (fuel : nat) (g : GeneticAlgorithm.t)
    t r t' s :
  Forall (valid (GeneticAlgorithm.cvrp g)) (GeneticAlgorithm.population g) ->
  GeneticAlgorithm.run lib fuel g t = Ok (r, t') ->
  best_solution r = Some s -> valid (GeneticAlgorithm.cvrp g) s.
Proof.
  intros Hpop H. unfold GeneticAlgorithm.run in H.
  apply rand_bind_Ok_inv in H as ([population st] & t1 & Hloop & H).
  apply rand_bind_Ok_inv in H as (fitness & t2 & _ & H).
  apply rand_bind_Ok_inv in H as (best & t3 & Hbest & H).
  apply lift_Ok_inv in Hbest as [Hbest _].
  apply rand_bind_Ok_inv in H as (lo & t4 & _ & H).
  apply rand_bind_Ok_inv in H as (hi & t5 & _ & H).
  injection H as <- _. simpl. intros Hs. injection Hs as <-.
  apply min_by_spec in Hbest as [Hin _].
  assert (Hfinal : Forall (valid (GeneticAlgorithm.cvrp g))
                     (population, st).1).
  { eapply (repeat_loop_invariant
              (fun ps => Forall (valid (GeneticAlgorithm.cvrp g)) ps.1));
      [| |exact Hloop]; [done|].
    intros. by eapply generation_valid. }
  by eapply Forall_forall in Hfinal.
Qed.

Lemma genetic_init_valid (fuel : nat) (c : CVRP) (pop_size generations : Z)
    (mutation_rate crossover_rate : float) (tournament_size : Z)
    (elitism : float) t g t' :
  GeneticAlgorithm.__init__ fuel c pop_size generations mutation_rate
    crossover_rate tournament_size elitism t = Ok (g, t') ->
  GeneticAlgorithm.cvrp g = c /\
  Forall (valid c) (GeneticAlgorithm.population g).
Proof.
  unfold GeneticAlgorithm.__init__. intros H.
  apply rand_bind_Ok_inv in H as (n & t1 & _ & H).
  apply rand_bind_Ok_inv in H as (elite & t2 & _ & H).
  apply rand_bind_Ok_inv in H as (population & t3 & Hinit & H).
  injection H as <- _. simpl. split; [done|].
  by eapply initialize_population_valid; [|exact Hinit].
Qed.

(** *** The greedy construction *)

Lemma candidates_of_spec (c : CVRP) (load : Z) (customers : list Z) :
  forall cands,
    GreedyAlgorithm.candidates_of c load customers = Ok cands ->
    (forall x, x ∈ cands ->
       x ∈ customers /\
       exists d, Py.index (demands c) x = Ok d /\
                 d + load <= vehicle_capacity c) /\
    (forall x, x ∈ customers ->
       exists d, Py.index (demands c) x = Ok d /\
                 (d + load <= vehicle_capacity c -> x ∈ cands)).
Proof.
  induction customers as [|y rest IH]; intros cands H; simpl in H.
  - injection H as <-. split; intros x Hx; by apply elem_of_nil in Hx.
  - apply bind_Ok_inv in H as (d & Hd & H).
    apply bind_Ok_inv in H as (others & Hothers & H). injection H as <-.
    destruct (IH _ Hothers) as [Hsound Hcomplete].
    destruct (Z.leb_spec (d + load) (vehicle_capacity c)) as [Hle|Hgt]; split.
    + intros x Hx. apply elem_of_cons in Hx as [->|Hx].
      * split; [left|]. by exists d.
      * destruct (Hsound x Hx) as [Hin Hd']. split; [by right|done].
    + intros x Hx. apply elem_of_cons in Hx as [->|Hx].
      * exists d. split; [done|]. intros _. left.
      * destruct (Hcomplete x Hx) as (d' & Hd' & Hc). exists d'.
        split; [done|]. intros Hle'. right. by apply Hc.
    + intros x Hx. destruct (Hsound x Hx) as [Hin Hd']. split; [by right|done].
    + intros x Hx. apply elem_of_cons in Hx as [->|Hx].
      * exists d. split; [done|]. lia.
      * by apply Hcomplete.
Qed.

Lemma remove_Permutation (x : Z) (l l' : list Z) :
  Builtin.remove x l = Ok l' -> l ≡ₚ x :: l'.
Proof.
  revert l'. induction l as [|y rest IH]; intros l' H; simpl in H;
    [discriminate|].
  destruct (Z.eqb_spec x y) as [->|Hne].
  - by injection H as <-.
  - apply bind_Ok_inv in H as (rest' & Hrest & H). injection H as <-.
    rewrite (IH _ Hrest). apply Permutation_swap.
Qed.

Lemma greedy_loop_spec (c : CVRP) (fuel : nat) :
  (forall x d, x ∈ customers_of c -> Py.index (demands c) x = Ok d ->
               d <= vehicle_capacity c) ->
  forall routes seg load customers routes' cur',
    Forall depot_anchored routes ->
    Forall (within_capacity c) routes ->
    sum_demands (demands c) 0 seg = Ok load ->
    (seg <> [] -> load <= vehicle_capacity c) ->
    flatten_interiors routes ++ seg ++ customers ≡ₚ customers_of c ->
    GreedyAlgorithm.greedy_loop fuel c routes (0 :: seg) load customers
    = Ok (routes', cur') ->
    Forall depot_anchored routes' /\
    Forall (within_capacity c) routes' /\
    exists seg' load',
      cur' = 0 :: seg' /\
      sum_demands (demands c) 0 seg' = Ok load' /\
      (seg' <> [] -> load' <= vehicle_capacity c) /\
      flatten_interiors routes' ++ seg' ≡ₚ customers_of c.
Proof.
  intros Hfit. induction fuel as [|fuel IH];
    intros routes seg load customers routes' cur' Hanch Hcap Hsum Hload Hperm H;
    destruct customers as [|x rest].
  - simpl in H. injection H as <- <-. rewrite app_nil_r in Hperm.
    split; [done|]. split; [done|]. by exists seg, load.
  - discriminate.
  - simpl in H. injection H as <- <-. rewrite app_nil_r in Hperm.
    split; [done|]. split; [done|]. by exists seg, load.
  - cbn [GreedyAlgorithm.greedy_loop] in H.
    apply bind_Ok_inv in H as (last_city & _ & H).
    apply bind_Ok_inv in H as (cands & Hcands & H).
    apply candidates_of_spec in Hcands as [Hsound Hcomplete].
    destruct cands as [|y cands].
    + assert (Hseg : seg <> []).
      { intros ->. simpl in Hsum. injection Hsum as <-.
        destruct (Hcomplete x) as (d & Hd & Hc); [left|].
        assert (Hx : x ∈ customers_of c).
        { rewrite <- Hperm. rewrite !elem_of_app. right. right. left. }
        specialize (Hfit x d Hx Hd).
        assert (Hin : x ∈ @nil Z) by (apply Hc; lia).
        by apply elem_of_nil in Hin. }
      change ((0 :: seg) ++ [0]) with (0 :: (seg ++ [0])) in H.
      apply (IH _ [] 0) in H; try done.
      * apply Forall_app. split; [done|]. apply Forall_singleton.
        by exists seg.
      * apply Forall_app. split; [done|]. apply Forall_singleton.
        exists load. rewrite interior_anchored. split; [done|]. by apply Hload.
      * rewrite flatten_interiors_app.
        change (0 :: seg ++ [0]) with (0 :: (seg ++ [0])).
        rewrite (flatten_interiors_anchored seg). simpl.
        by rewrite <- app_assoc.
    + apply bind_Ok_inv in H as (next_city & Hmin & H).
      apply min_by_spec in Hmin as [Hin _].
      destruct (Hsound next_city Hin) as (Hnext & d & Hd & Hle).
      apply bind_Ok_inv in H as (d' & Hd' & H).
      rewrite Hd in Hd'. injection Hd' as <-.
      apply bind_Ok_inv in H as (customers' & Hrem & H).
      apply remove_Permutation in Hrem.
      change ((0 :: seg) ++ [next_city]) with (0 :: (seg ++ [next_city])) in H.
      apply IH in H; try done.
      * by apply sum_demands_snoc.
      * intros _. lia.
      * rewrite <- Hperm, Hrem, <- !app_assoc.
        apply Permutation_app_head, Permutation_app_head.
        simpl. done.
Qed.

Lemma greedy_solution_valid (c : CVRP) (fuel : nat) t s t' :
  feasible_model c ->
  GreedyAlgorithm._greedy_solution fuel c t = Ok (s, t') -> valid c s.
Proof.
  intros Hc H. apply feasible_model_inv in Hc as (Hne & H0 & Hfit).
  unfold GreedyAlgorithm._greedy_solution in H.
  apply rand_bind_Ok_inv in H as (customers & t1 & Hshuffle & H).
  apply shuffle_Permutation in Hshuffle.
  apply lift_Ok_inv in H as [H _].
  apply bind_Ok_inv in H as ([routes cur] & Hloop & H).
  apply (greedy_loop_spec c fuel Hfit [] [] 0) in Hloop
    as (Hanch & Hcap & seg & load & -> & Hsum & Hload & Hperm); try done.
  apply validate_sufficient; try done;
    destruct seg as [|y seg]; simpl in H; injection H as <-; try done.
  - apply Forall_app. split; [done|]. apply Forall_singleton.
    by exists (y :: seg).
  - apply Forall_app. split; [done|]. apply Forall_singleton.
    exists load. change (0 :: y :: seg ++ [0]) with (0 :: (y :: seg) ++ [0]).
    rewrite interior_anchored. split; [done|]. by apply Hload.
  - by rewrite app_nil_r in Hperm.
  - rewrite flatten_interiors_app.
    change (0 :: y :: seg ++ [0]) with (0 :: (y :: seg) ++ [0]).
    by rewrite flatten_interiors_anchored.
Qed.

Lemma greedy_run_valid (lib : numlib) (fuel : nat) (c : CVRP) (num_runs : Z)
    t r t' s :
  feasible_model c ->
  GreedyAlgorithm.run lib fuel c num_runs t = Ok (r, t') ->
  best_solution r = Some s -> valid c s.
Proof.
  intros Hc H. unfold GreedyAlgorithm.run in H.
  apply rand_bind_Ok_inv in H as (st & t1 & Hloop & H).
  apply rand_bind_Ok_inv in H as (best_idx & t2 & Hidx & H).
  apply rand_bind_Ok_inv in H as (best & t3 & Hbest & H).
  apply lift_Ok_inv in Hbest as [Hbest _].
  apply lift_Ok_inv in Hidx as [Hidx _].
  apply lift_Ok_inv in H as [H _].
  assert (Hall : Forall (valid c) (GreedyAlgorithm.solutions st)).
  { eapply (repeat_loop_invariant
              (fun st => Forall (valid c) (GreedyAlgorithm.solutions st)));
      [| |exact Hloop]; [done|].
    clear -Hc. intros st t st' t' Hst H.
    unfold GreedyAlgorithm.iteration in H.
    apply rand_bind_Ok_inv in H as (s & t1 & Hs & H).
    apply rand_bind_Ok_inv in H as (cost & t2 & _ & H).
    apply rand_bind_Ok_inv in H as (stats' & t3 & _ & H).
    injection H as <- _. simpl. apply Forall_app. split; [done|].
    apply Forall_singleton. by eapply greedy_solution_valid. }
  rewrite index_nonneg in Hbest.
  destruct (GreedyAlgorithm.solutions st !! best_idx) as [b|] eqn:Hb;
    [|discriminate].
  injection Hbest as ->.
  unfold GreedyAlgorithm._prepare_results in H.
  destruct (GreedyAlgorithm.costs st) as [|k ks].
  { unfold Builtin.argmin in Hidx. discriminate. }
  apply bind_Ok_inv in H as (lo & _ & H).
  apply bind_Ok_inv in H as (hi & _ & H). injection H as <-. simpl.
  intros Hs. injection Hs as <-.
  eapply Forall_forall; [exact Hall|]. by eapply list_elem_of_lookup_2.
Qed.

(** *** All five strategies *)

Lemma scenario_feasible : feasible_model scenario_model.
Proof.
  exists (pt 0 0), [pt 1 0; pt 2 0; pt 0 1; pt 0 2], [1; 1; 1; 1], 2.
  split; [exact scenario_model_built|].
  repeat (apply Forall_cons; split; [lia|]). apply Forall_nil_2.
Defined.

(** C1, amended: on every model built by the constructor in which no
    customer's demand exceeds the vehicle capacity, whenever the [run] of a
    strategy (random, greedy, simulated annealing, tabu, genetic) returns a
    result whose best solution is a solution, that solution passes
    [validate_solution].  (The random strategy returns [None] as best
    solution when no sampled cost is below [+inf]; the genetic strategy
    validates every individual and needs no assumption on the demands, see
    [genetic_run_valid].) *)
Theorem strategies_return_valid_solutions (lib : numlib) (c : CVRP)
    (t : tape) (r : result) (t' : tape) (s : solution) :
  feasible_model c ->
  best_solution r = Some s ->
  (forall num_iterations,
     RandomAlgorithm.run lib c num_iterations t = Ok (r, t') -> valid c s) /\
  (forall fuel num_runs,
     GreedyAlgorithm.run lib fuel c num_runs t = Ok (r, t') -> valid c s) /\
  (forall initial_temp cooling_rate iterations,
     SimulatedAnnealing.run lib c initial_temp cooling_rate iterations t
     = Ok (r, t') -> valid c s) /\
  (forall iterations tabu_size neighborhood_size,
     TabuSearch.run lib c iterations tabu_size neighborhood_size t
     = Ok (r, t') -> valid c s) /\
  (forall fuel fuel' pop_size generations mutation_rate crossover_rate
          tournament_size elitism g t1,
     GeneticAlgorithm.__init__ fuel c pop_size generations mutation_rate
       crossover_rate tournament_size elitism t = Ok (g, t1) ->
     GeneticAlgorithm.run lib fuel' g t1 = Ok (r, t') -> valid c s).
Proof.
  intros Hc Hs. repeat split.
  - intros n H. apply split_of_ordering_valid; [done|].
    by eapply random_run_split.
  - intros fuel n H. by eapply greedy_run_valid.
  - intros T0 rate n H. apply split_of_ordering_valid; [done|].
    by eapply annealing_run_split.
  - intros n M K H. apply split_of_ordering_valid; [done|].
    by eapply tabu_run_split.
  - intros fuel fuel' pop_size generations mutation_rate crossover_rate
      tournament_size elitism g t1 Hinit H.
    apply genetic_init_valid in Hinit as [<- Hpop].
    by eapply genetic_run_valid.
Qed.

(** C1 as stated fails: on the model whose only customer has demand 5 and
    capacity 3, one iteration of the random strategy returns the best
    solution [[0; 0]], [[0; 1; 0]], which [validate_solution] rejects; and on
    [unreachable_model], where every tour costs [+inf], it returns [None]. *)
Lemma random_returns_invalid_solution :
  CVRP_init (pt 0 0) [pt 1 0] [5] 3 = Ok overweight_model /\
  (exists r t',
     RandomAlgorithm.run plain_numlib overweight_model 1 [] = Ok (r, t') /\
     best_solution r = Some [[0; 0]; [0; 1; 0]] /\
     validate_solution overweight_model [[0; 0]; [0; 1; 0]] = Ok false) /\
  (exists r t',
     RandomAlgorithm.run plain_numlib unreachable_model 1 [] = Ok (r, t') /\
     best_solution r = None).
Proof.
  split; [exact overweight_model_built|]. split.
  - eexists _, _. split; [vm_compute; reflexivity|].
    split; vm_compute; reflexivity.
  - eexists _, _. split; [vm_compute; reflexivity|]. reflexivity.
Qed.

Lemma strategies_return_valid_solutions_witness :
  feasible_model scenario_model /\
  (exists r t' s,
     RandomAlgorithm.run plain_numlib scenario_model 3 [3; 1; 4; 1; 5]%N
     = Ok (r, t') /\ best_solution r = Some s /\ valid scenario_model s) /\
  (exists r t' s,
     GreedyAlgorithm.run plain_numlib 8 scenario_model 2 [3; 1; 4; 1; 5]%N
     = Ok (r, t') /\ best_solution r = Some s /\ valid scenario_model s) /\
  (exists r t' s,
     SimulatedAnnealing.run plain_numlib scenario_model (Float.of_Z 1000)
       (decimal 99 100) 3 [3; 1; 4; 1; 5]%N
     = Ok (r, t') /\ best_solution r = Some s /\ valid scenario_model s) /\
  (exists r t' s,
     TabuSearch.run plain_numlib scenario_model 3 2 2 [3; 1; 4; 1; 5]%N
     = Ok (r, t') /\ best_solution r = Some s /\ valid scenario_model s) /\
  (exists g t1 r t' s,
     GeneticAlgorithm.__init__ 4 scenario_model 2 1 (decimal 15 100)
       (decimal 85 100) 2 (decimal 1 10)
       [3; 1; 4; 1; 5; 9; 2; 6;
        0; 0; 1; 0; 8000000000000000; 8000000000000000;
        1; 0; 0; 0; 8000000000000000; 8000000000000000]%N = Ok (g, t1) /\
     GeneticAlgorithm.run plain_numlib 4 g t1 = Ok (r, t') /\
     best_solution r = Some s /\ valid scenario_model s).
Proof.
  split; [exact scenario_feasible|].
  split; [|split; [|split; [|split]]].
  - destruct (RandomAlgorithm.run _ _ _ _) as [[r t']| |] eqn:Hrun;
      [|vm_compute in Hrun; discriminate..].
    destruct (best_solution r) as [s|] eqn:Hs.
    + exists r, t', s. split; [done|]. split; [done|].
      exact (proj1 (strategies_return_valid_solutions _ _ _ r t' s
                      scenario_feasible Hs) _ Hrun).
    + vm_compute in Hrun. injection Hrun as <- _. discriminate.
  - destruct (GreedyAlgorithm.run _ _ _ _ _) as [[r t']| |] eqn:Hrun;
      [|vm_compute in Hrun; discriminate..].
    destruct (best_solution r) as [s|] eqn:Hs.
    + exists r, t', s. split; [done|]. split; [done|].
      exact (proj1 (proj2 (strategies_return_valid_solutions _ _ _ r t' s
                             scenario_feasible Hs)) _ _ Hrun).
    + vm_compute in Hrun. injection Hrun as <- _. discriminate.
  - destruct (SimulatedAnnealing.run _ _ _ _ _ _) as [[r t']| |] eqn:Hrun;
      [|vm_compute in Hrun; discriminate..].
    destruct (best_solution r) as [s|] eqn:Hs.
    + exists r, t', s. split; [done|]. split; [done|].
      exact (proj1 (proj2 (proj2 (strategies_return_valid_solutions _ _ _ r
                                    t' s scenario_feasible Hs))) _ _ _ Hrun).
    + vm_compute in Hrun. injection Hrun as <- _. discriminate.
  - destruct (TabuSearch.run _ _ _ _ _ _) as [[r t']| |] eqn:Hrun;
      [|vm_compute in Hrun; discriminate..].
    destruct (best_solution r) as [s|] eqn:Hs.
    + exists r, t', s. split; [done|]. split; [done|].
      exact (proj1 (proj2 (proj2 (proj2
               (strategies_return_valid_solutions _ _ _ r t' s
                  scenario_feasible Hs)))) _ _ _ Hrun).
    + vm_compute in Hrun. injection Hrun as <- _. discriminate.
  - destruct (GeneticAlgorithm.__init__ _ _ _ _ _ _ _ _ _) as [[g t1]| |]
      eqn:Hinit; [|vm_compute in Hinit; discriminate..].
    destruct (GeneticAlgorithm.run plain_numlib 4 g t1) as [[r t']| |]
      eqn:Hrun.
    2,3: vm_compute in Hinit; injection Hinit as <- <-;
         vm_compute in Hrun; discriminate.
    destruct (best_solution r) as [s|] eqn:Hs.
    + exists g, t1, r, t', s. split; [done|]. split; [done|]. split; [done|].
      exact (proj2 (proj2 (proj2 (proj2
               (strategies_return_valid_solutions _ _ _ r t' s
                  scenario_feasible Hs)))) _ _ _ _ _ _ _ _ _ _ Hinit Hrun).
    + vm_compute in Hinit. injection Hinit as <- <-.
      vm_compute in Hrun. injection Hrun as <- _. discriminate.
Defined.

(** * Further properties of the code *)

(** ** [validate_solution]: what a solution that passes looks like *)

Lemma visit_nodes_inv (n : Z) (nodes : list Z) :
  forall visited v : gset Z,
    visit_nodes n visited nodes = Some v ->
    NoDup nodes /\
    (forall x, x ∈ nodes -> (x ∉ visited) /\ 0 < x < n) /\
    v = list_to_set nodes ∪ visited.
Proof.
  induction nodes as [|x rest IH]; intros visited v H; simpl in H.
  - injection H as <-. split; [constructor|]. split.
    + intros x Hx. by apply elem_of_nil in Hx.
    + simpl. by rewrite (left_id_L ∅ (∪)).
  - destruct (bool_decide (x ∈ visited)) eqn:Hin; [discriminate|].
    apply bool_decide_eq_false in Hin.
    destruct (Z.leb_spec x 0); [discriminate|].
    destruct (Z.geb_spec x n); [discriminate|]. simpl in H.
    apply IH in H as (Hnd & Hall & ->). split; [|split].
    + apply NoDup_cons. split; [|done]. intros Hx.
      destruct (Hall x Hx) as [Hnot _]. apply Hnot.
      apply elem_of_union. left. by apply elem_of_singleton.
    + intros y Hy. apply elem_of_cons in Hy as [->|Hy]; [split; [done|lia]|].
      destruct (Hall y Hy) as [Hnot Hr]. split; [|done].
      intros Hv. apply Hnot. apply elem_of_union. by right.
    + apply set_eq. intros y. rewrite list_to_set_cons, !elem_of_union. tauto.
Qed.

Lemma visit_routes_inv (n : Z) (s : solution) :
  forall visited v : gset Z,
    visit_routes n visited s = Some v ->
    NoDup (flatten_interiors s) /\
    (forall x, x ∈ flatten_interiors s -> (x ∉ visited) /\ 0 < x < n) /\
    v = list_to_set (flatten_interiors s) ∪ visited.
Proof.
  induction s as [|r rest IH]; intros visited v H; simpl in H.
  - injection H as <-. split; [constructor|]. split.
    + intros x Hx. by apply elem_of_nil in Hx.
    + simpl. by rewrite (left_id_L ∅ (∪)).
  - destruct (visit_nodes n visited (Py.interior r)) as [v1|] eqn:Hr;
      [|discriminate].
    apply visit_nodes_inv in Hr as (Hnd1 & Hall1 & ->).
    apply IH in H as (Hnd2 & Hall2 & ->).
    change (flatten_interiors (r :: rest))
      with (Py.interior r ++ flatten_interiors rest).
    split; [|split].
    + apply NoDup_app. split; [done|]. split; [|done].
      intros x Hx1 Hx2. destruct (Hall2 x Hx2) as [Hnot _]. apply Hnot.
      apply elem_of_union. left. by apply elem_of_list_to_set.
    + intros x Hx. apply elem_of_app in Hx as [Hx|Hx]; [by apply Hall1|].
      destruct (Hall2 x Hx) as [Hnot Hr]. split; [|done].
      intros Hv. apply Hnot. apply elem_of_union. by right.
    + rewrite list_to_set_app_L. apply set_eq. intros y.
      rewrite !elem_of_union. tauto.
Qed.

Lemma check_capacity_inv (c : CVRP) (s : solution) :
  check_capacity c s = Ok true ->
  Forall (fun r => exists d, sum_demands (demands c) 0 r = Ok d /\
                             d <= vehicle_capacity c) s.
Proof.
  induction s as [|r rest IH]; simpl; intros H; [done|].
  apply bind_Ok_inv in H as (d & Hd & H).
  destruct (Z.gtb_spec d (vehicle_capacity c)); [discriminate|].
  apply Forall_cons. split; [|by apply IH]. exists d. split; [done|lia].
Qed.

Lemma check_capacity_intro (c : CVRP) (s : solution) :
  Forall (fun r => exists d, sum_demands (demands c) 0 r = Ok d /\
                             d <= vehicle_capacity c) s ->
  check_capacity c s = Ok true.
Proof.
  induction 1 as [|r rest (d & Hd & Hle) _ IH]; simpl; [done|].
  rewrite Hd. simpl.
  destruct (Z.gtb_spec d (vehicle_capacity c)); [lia|done].
Qed.

Lemma check_depots_inv (s : solution) :
  check_depots s = Ok true ->
  Forall (fun r => Py.index r 0 = Ok 0 /\ Py.index r (-1) = Ok 0) s.
Proof.
  induction s as [|r rest IH]; simpl; intros H; [done|].
  apply bind_Ok_inv in H as (a & Ha & H).
  destruct (Z.eqb_spec a 0) as [->|]; [|discriminate]. simpl in H.
  apply bind_Ok_inv in H as (b & Hb & H).
  destruct (Z.eqb_spec b 0) as [->|]; [|discriminate]. simpl in H.
  apply Forall_cons. split; [done|by apply IH].
Qed.

Lemma check_depots_intro (s : solution) :
  Forall (fun r => Py.index r 0 = Ok 0 /\ Py.index r (-1) = Ok 0) s ->
  check_depots s = Ok true.
Proof.
  induction 1 as [|r rest [Ha Hb] _ IH]; simpl; [done|].
  by rewrite Ha, Hb.
Qed.

Lemma range_Permutation (n : Z) (l : list Z) :
  NoDup l -> (forall x, x ∈ l -> 0 < x < n) ->
  Z.of_nat (length l) = n - 1 ->
  l ≡ₚ seqZ 1 (n - 1).
Proof.
  intros Hnd Hall Hlen. apply submseteq_length_Permutation.
  - apply NoDup_submseteq; [done|]. intros x Hx. apply elem_of_seqZ.
    specialize (Hall x Hx). lia.
  - rewrite length_seqZ. lia.
Qed.

Lemma valid_iff (c : CVRP) (s : solution) :
  validate_solution c s = Ok true <->
  locations c <> [] /\
  flatten_interiors s ≡ₚ customers_of c /\
  Forall (fun r => exists d, sum_demands (demands c) 0 r = Ok d /\
                             d <= vehicle_capacity c) s /\
  Forall (fun r => Py.index r 0 = Ok 0 /\ Py.index r (-1) = Ok 0) s.
Proof.
  unfold validate_solution. split.
  - intros H.
    destruct (visit_routes _ _ _) as [visited|] eqn:Hvisit; [|discriminate].
    apply visit_routes_inv in Hvisit as (Hnd & Hall & ->).
    rewrite (right_id_L ∅ (∪)), size_list_to_set in H by done.
    destruct (Z.eqb_spec (Z.of_nat (length (flatten_interiors s)))
                (Z.of_nat (length (locations c)) - 1)) as [Hlen|];
      [|discriminate].
    simpl in H. apply bind_Ok_inv in H as (ok & Hcap & H).
    destruct ok; [|discriminate]. simpl in H.
    split; [|split; [|split]].
    + intros Hloc. rewrite Hloc in Hlen. simpl in Hlen. lia.
    + apply range_Permutation; [done| |done]. intros x Hx. by apply Hall.
    + by apply check_capacity_inv.
    + by apply check_depots_inv.
  - intros (Hloc & Hperm & Hcap & Hdep).
    rewrite visit_routes_spec.
    + rewrite (right_id_L ∅ (∪)), size_list_to_set.
      2:{ rewrite Hperm. apply NoDup_seqZ. }
      rewrite Hperm, customers_of_length by done.
      rewrite Z.eqb_refl. simpl.
      rewrite check_capacity_intro by done. simpl.
      by apply check_depots_intro.
    + rewrite Hperm. apply NoDup_seqZ.
    + intros x Hx. rewrite Hperm in Hx. apply customers_of_spec in Hx.
      split; [apply not_elem_of_empty|lia].
Qed.

(** X1: [validate_solution] answers [True] exactly on the solutions in which
    the interiors of the routes together hold every customer [1 .. N] once
    and nothing else, every route is non-empty with the depot 0 as first and
    last node, and the demands of all the nodes of every route can be read
    and sum to at most the capacity.  Routes such as [[0]] and [[0; 0]] are
    accepted. *)
Theorem validate_solution_true_iff (c : CVRP) (s : solution) :
  validate_solution c s = Ok true <->
  locations c <> [] /\
  flatten_interiors s ≡ₚ customers_of c /\
  Forall (fun r => exists d, sum_demands (demands c) 0 r = Ok d /\
                             d <= vehicle_capacity c) s /\
  Forall (fun r => Py.index r 0 = Ok 0 /\ Py.index r (-1) = Ok 0) s.
Proof. apply valid_iff. Qed.

(** ** [_split_to_routes]: when it raises, and why a route was closed *)

Lemma index_out_of_range {A} (l : list A) (i : Z) :
  ~ in_index_range (length l) i -> Py.index l i = Raise IndexError.
Proof.
  unfold in_index_range, Py.index. intros Hi.
  destruct (Z.ltb_spec i 0);
    destruct (Z.leb_spec 0 (i + Z.of_nat (length l)));
    destruct (Z.leb_spec 0 i);
    destruct (Z.ltb_spec (i + Z.of_nat (length l)) (Z.of_nat (length l)));
    destruct (Z.ltb_spec i (Z.of_nat (length l))); simpl; try done; lia.
Qed.

Lemma index_Ok_range {A} (l : list A) (i : Z) :
  is_Ok (Py.index l i) -> in_index_range (length l) i.
Proof.
  intros [x Hx].
  destruct (decide (in_index_range (length l) i)) as [|Hn]; [done|].
  apply index_out_of_range in Hn. congruence.
Qed.

Lemma split_loop_raises (c : CVRP) (customers : list Z) :
  Exists (fun x => ~ in_index_range (length (demands c)) x) customers ->
  forall routes cur load,
    split_loop c routes cur load customers = Raise IndexError.
Proof.
  induction customers as [|x rest IH]; intros H routes cur load.
  - by apply Exists_nil in H.
  - simpl. destruct (Py.index (demands c) x) as [d| |] eqn:Hd; simpl.
    + apply Exists_cons in H as [H|H].
      * exfalso. apply H. apply index_Ok_range. by exists d.
      * destruct (_ >? _); by apply IH.
    + destruct (decide (in_index_range (length (demands c)) x)) as [Hr|Hr].
      * destruct (index_in_range _ _ Hr) as [d' Hd']. congruence.
      * apply index_out_of_range in Hr. congruence.
    + destruct (decide (in_index_range (length (demands c)) x)) as [Hr|Hr].
      * destruct (index_in_range _ _ Hr) as [d' Hd']. congruence.
      * apply index_out_of_range in Hr. congruence.
Qed.

(** X2: [_split_to_routes] returns exactly when every listed customer is an
    index Python accepts for the demand vector, negative indices down to
    [-len(demands)] included; as soon as one is not, the call raises
    [IndexError] and returns no routes. *)
Theorem split_returns_iff_indices_in_range (c : CVRP) (customers : list Z) :
  (is_Ok (_split_to_routes c customers) <->
   Forall (in_index_range (length (demands c))) customers) /\
  (_split_to_routes c customers = Raise IndexError <->
   ~ Forall (in_index_range (length (demands c))) customers).
Proof.
  assert (Hok : Forall (in_index_range (length (demands c))) customers ->
                is_Ok (_split_to_routes c customers)).
  { intros H. apply split_total. eapply Forall_impl; [exact H|].
    intros x Hx. by apply index_in_range. }
  assert (Hraise : ~ Forall (in_index_range (length (demands c))) customers ->
                   _split_to_routes c customers = Raise IndexError).
  { intros H. apply not_Forall_Exists in H; [|apply _].
    unfold _split_to_routes. by rewrite split_loop_raises. }
  split; split; try done.
  - intros [routes Hr].
    destruct (decide (Forall (in_index_range (length (demands c))) customers))
      as [|Hn]; [done|].
    apply Hraise in Hn. congruence.
  - intros Hr Hall. destruct (Hok Hall) as [routes Hroutes]. congruence.
Qed.

Lemma adjacent_nil {A} (R : A -> A -> Prop) : adjacent R [].
Proof. intros k x y H. by rewrite lookup_nil in H. Qed.

Lemma adjacent_snoc {A} (R : A -> A -> Prop) (l : list A) (a : A) :
  adjacent R l -> (forall b, last l = Some b -> R b a) ->
  adjacent R (l ++ [a]).
Proof.
  intros Hl Hlast k x y Hx Hy.
  destruct (decide (S k < length l)%nat) as [Hk|Hk].
  - rewrite lookup_app_l in Hx by lia. rewrite lookup_app_l in Hy by lia.
    by eapply Hl.
  - assert (Hlen : (S k < length (l ++ [a]))%nat)
      by (apply lookup_lt_is_Some; eauto).
    rewrite length_app in Hlen. simpl in Hlen.
    assert (Hk' : S k = length l) by lia.
    rewrite lookup_app_r in Hy by lia.
    rewrite Hk', Nat.sub_diag in Hy. injection Hy as <-.
    rewrite lookup_app_l in Hx by lia.
    apply Hlast. rewrite last_lookup, <- Hk'. exact Hx.
Qed.

Lemma split_loop_chain (c : CVRP) (customers : list Z) :
  forall routes seg load routes' cur',
    split_loop c routes (0 :: seg) load customers = Ok (routes', cur') ->
    adjacent (opened_by_overflow c) routes ->
    sum_demands (demands c) 0 seg = Ok load ->
    (forall r, last routes = Some r -> overflowed_by c r seg) ->
    exists seg', cur' = 0 :: seg' /\
      adjacent (opened_by_overflow c) routes' /\
      (forall r, last routes' = Some r -> overflowed_by c r seg').
Proof.
  induction customers as [|x rest IH];
    intros routes seg load routes' cur' H Hadj Hsum Hlast; simpl in H.
  - injection H as <- <-. by exists seg.
  - apply bind_Ok_inv in H as (d & Hd & H).
    destruct (Z.gtb_spec (load + d) (vehicle_capacity c)) as [Hgt|Hle].
    + apply (IH _ [x]) in H; [done| | |].
      * apply adjacent_snoc; [done|]. intros r Hr.
        unfold opened_by_overflow.
        change ((0 :: seg) ++ [0]) with (0 :: seg ++ [0]).
        rewrite interior_anchored. by apply Hlast.
      * simpl. by rewrite Hd.
      * intros r Hr. rewrite last_snoc in Hr. injection Hr as <-.
        exists load, x, d.
        change ((0 :: seg) ++ [0]) with (0 :: seg ++ [0]).
        rewrite interior_anchored. split; [done|]. split; [done|].
        split; [done|lia].
    + apply (IH _ (seg ++ [x])) in H; [done|done| |].
      * by apply sum_demands_snoc.
      * intros r Hr. destruct (Hlast r Hr) as (l1 & y & dy & H1 & H2 & H3).
        exists l1, y, dy. split; [done|]. split; [|done].
        destruct seg; [discriminate|done].
Qed.

Lemma split_loop_nonempty (c : CVRP) (customers : list Z) :
  Forall (fits c) customers ->
  forall routes seg load routes' cur',
    split_loop c routes (0 :: seg) load customers = Ok (routes', cur') ->
    Forall (fun r => Py.interior r <> []) routes ->
    sum_demands (demands c) 0 seg = Ok load ->
    Forall (fun r => Py.interior r <> []) routes'.
Proof.
  induction 1 as [|x rest (dx & Hdx & Hfit) _ IH];
    intros routes seg load routes' cur' H Hne Hsum; simpl in H.
  - by injection H as <- <-.
  - rewrite Hdx in H. simpl in H.
    destruct (Z.gtb_spec (load + dx) (vehicle_capacity c)) as [Hgt|Hle].
    + apply (IH _ [x]) in H; [done| |].
      * apply Forall_app. split; [done|]. apply Forall_singleton.
        change ((0 :: seg) ++ [0]) with (0 :: seg ++ [0]).
        rewrite interior_anchored. intros ->. simpl in Hsum.
        injection Hsum as <-. lia.
      * simpl. by rewrite Hdx.
    + apply (IH _ (seg ++ [x])) in H; [done|done|].
      by apply sum_demands_snoc.
Qed.

(** X3: the splitting routine is a next-fit packing.  Of two consecutive
    routes it returns, the second starts with a customer whose demand, added
    to the demands of the customers of the first, exceeds the capacity: a
    route is closed only when the next customer would overflow it.  When no
    listed customer has a demand above the capacity, every returned route
    serves at least one customer. *)
Theorem split_is_next_fit (c : CVRP) (customers : list Z) (routes : solution) :
  _split_to_routes c customers = Ok routes ->
  adjacent (opened_by_overflow c) routes /\
  (Forall (fits c) customers ->
   Forall (fun r => Py.interior r <> []) routes).
Proof.
  unfold _split_to_routes. intros H.
  apply bind_Ok_inv in H as ([routes' cur'] & Hloop & H). split.
  - apply (split_loop_chain c customers [] []) in Hloop
      as (seg' & -> & Hadj & Hlast); [|apply adjacent_nil|done|done].
    destruct (_ <? _)%nat; injection H as <-; [|done].
    apply adjacent_snoc; [done|]. intros r Hr. unfold opened_by_overflow.
    change ((0 :: seg') ++ [0]) with (0 :: seg' ++ [0]).
    rewrite interior_anchored. by apply Hlast.
  - intros Hfits.
    pose proof Hloop as Hcur.
    apply (split_loop_order c customers [] []) in Hcur as (seg' & -> & _).
    apply (split_loop_nonempty c customers Hfits [] []) in Hloop;
      [|done|done].
    destruct (Nat.ltb_spec 1 (length (0%Z :: seg'))) as [Hlen|Hlen];
      injection H as <-; [|done].
    apply Forall_app. split; [done|]. apply Forall_singleton.
    change ((0 :: seg') ++ [0]) with (0 :: seg' ++ [0]).
    rewrite interior_anchored. intros ->. simpl in Hlen. lia.
Qed.

Lemma split_is_next_fit_witness :
  exists routes,
    _split_to_routes scenario_model [1; 2; 3; 4] = Ok routes /\
    adjacent (opened_by_overflow scenario_model) routes /\
    Forall (fun r => Py.interior r <> []) routes.
Proof.
  exists [[0; 1; 2; 0]; [0; 3; 4; 0]].
  assert (Hrun : _split_to_routes scenario_model [1; 2; 3; 4]
                 = Ok [[0; 1; 2; 0]; [0; 3; 4; 0]]) by (vm_compute; reflexivity).
  split; [exact Hrun|].
  destruct (split_is_next_fit scenario_model [1; 2; 3; 4] _ Hrun) as [H1 H2].
  split; [exact H1|]. apply H2.
  repeat (apply Forall_cons; split;
          [eexists; split; [vm_compute; reflexivity|vm_compute; discriminate]|]).
  apply Forall_nil_2.
Defined.

(** ** Floats that are not below zero *)

Lemma binary_round_aux_sign (sx : bool) (mx ex : Z) (lx : location) :
  sx = false -> sign_clear (binary_round_aux Float.prec Float.emax sx mx ex lx).
Proof.
  intros ->. unfold binary_round_aux.
  destruct (shr_fexp _ _ mx ex lx) as [mrs' e'].
  destruct (shr_fexp _ _ _ e' loc_Exact) as [mrs'' e''].
  destruct (shr_m mrs''); simpl; [done| |done].
  by destruct (Z.leb _ _).
Qed.

Lemma binary_round_sign (mx : positive) (ex : Z) :
  sign_clear (binary_round Float.prec Float.emax false mx ex).
Proof.
  unfold binary_round. destruct (shl_align _ _ _) as [mz ez].
  by apply binary_round_aux_sign.
Qed.

Lemma add_sign_clear (x y : float) :
  sign_clear x -> sign_clear y -> sign_clear (Float.add x y).
Proof.
  destruct x as [sx|sx| |sx mx ex], y as [sy|sy| |sy my ey]; simpl;
    try done; try (by intros -> ->).
  intros -> ->. simpl. apply binary_round_sign.
Qed.

Lemma pow2_sign_clear (x r : float) : Float.pow2 x = Ok r -> sign_clear r.
Proof.
  destruct x as [s|s| |s m e]; simpl; try (by intros [= <-]).
  destruct (Float.is_inf _); [done|]. intros [= <-].
  apply binary_round_aux_sign. by destruct s.
Qed.

Lemma pow2_outcome (x : float) :
  returns_or_overflows sign_clear (Float.pow2 x).
Proof.
  destruct (Float.pow2 x) as [r|e|] eqn:H; simpl.
  - by eapply pow2_sign_clear.
  - destruct x as [s|s| |s m e']; simpl in H; try discriminate.
    destruct (Float.is_inf _); [|discriminate]. by injection H as <-.
  - destruct x as [s|s| |s m e']; simpl in H; try discriminate.
    destruct (Float.is_inf _); discriminate.
Qed.

Lemma sqrt_sign_clear (x : float) :
  sign_clear x -> exists r, Float.sqrt x = Ok r /\ sign_clear r.
Proof.
  destruct x as [s|s| |s m e]; simpl; intros Hx; subst; try (by eexists).
  eexists. split; [done|]. unfold SFsqrt.
  destruct (SFsqrt_core_binary _ _ _ _) as [[mz ez] lz].
  by apply binary_round_aux_sign.
Qed.

Lemma euclidean_outcome (p q : point) :
  returns_or_overflows sign_clear (euclidean p q).
Proof.
  destruct p as [x1 y1], q as [x2 y2]. unfold euclidean.
  pose proof (pow2_outcome (Float.sub x2 x1)) as Hx.
  destruct (Float.pow2 (Float.sub x2 x1)) as [dx2|[]|]; simpl in *; try done.
  pose proof (pow2_outcome (Float.sub y2 y1)) as Hy.
  destruct (Float.pow2 (Float.sub y2 y1)) as [dy2|[]|]; simpl in *; try done.
  destruct (sqrt_sign_clear (Float.add dx2 dy2)) as (r & -> & Hr); [|done].
  by apply add_sign_clear.
Qed.

Lemma sign_clear_not_below_zero (x : float) :
  sign_clear x -> Float.ltb x Float.zero = false.
Proof. destruct x as [s|s| |s m e]; simpl; try done; by intros ->. Qed.

(** ** The constructor: what it can raise, and the matrix it builds *)

Lemma index_Ok_elem {A} (l : list A) (i : Z) (x : A) :
  Py.index l i = Ok x -> x ∈ l.
Proof.
  unfold Py.index. destruct (_ && _); [|discriminate].
  destruct (l !! _) as [y|] eqn:Hy; [|discriminate].
  intros [= <-]. by eapply list_elem_of_lookup_2.
Qed.

Lemma for_each_outcome {A S} (P : S -> Prop) (body : S -> A -> outcome S)
    (l : list A) :
  forall s,
    P s ->
    (forall s x, x ∈ l -> P s -> returns_or_overflows P (body s x)) ->
    returns_or_overflows P (Py.for_each body l s).
Proof.
  induction l as [|x rest IH]; intros s Hs Hbody; simpl; [done|].
  pose proof (Hbody s x (list_elem_of_here _ _) Hs) as Hx.
  destruct (body s x) as [s1|[]|]; simpl in *; try done.
  apply IH; [done|]. intros s2 y Hy. apply Hbody. by right.
Qed.

Lemma all_cells (P : float -> Prop) (matrix : list (list float)) :
  Forall (Forall P) matrix <->
  (forall a b v, cell matrix a b = Some v -> P v).
Proof.
  unfold cell. split.
  - intros H a b v Hv. destruct (matrix !! a) as [row|] eqn:Hrow;
      simpl in Hv; [|discriminate].
    eapply Forall_lookup_1 in H; [|exact Hrow].
    by eapply Forall_lookup_1 in H.
  - intros H. apply Forall_lookup_2. intros a row Hrow.
    apply Forall_lookup_2. intros b v Hv. apply (H a b). by rewrite Hrow.
Qed.

Lemma set_entry_outcome (Q : float -> Prop) (n : nat)
    (matrix : list (list float)) (i j : Z) (v : float) :
  square n matrix -> Forall (Forall Q) matrix -> Q v ->
  0 <= i < Z.of_nat n -> 0 <= j < Z.of_nat n ->
  exists matrix',
    set_entry matrix i j v = Ok matrix' /\ square n matrix' /\
    Forall (Forall Q) matrix'.
Proof.
  intros [Hlen Hrows] Hall Hv Hi Hj.
  destruct (set_entry_spec n matrix (Z.to_nat i) (Z.to_nat j) v)
    as (m' & Hset & Hlen' & Hrows' & Hcell); [done|done|lia|lia|].
  rewrite !Z2Nat.id in Hset by lia. exists m'. split; [done|].
  split; [done|]. apply all_cells. intros a b w Hw. rewrite Hcell in Hw.
  destruct (decide _); [by injection Hw as <-|].
  revert Hw. by apply all_cells.
Qed.

(** Every entry of the matrix is zero or a distance [euclidean] returned. *)
Lemma create_distance_matrix_entries (Q : float -> Prop)
    (locations : list point) :
  Q Float.zero ->
  (forall p q, p ∈ locations -> q ∈ locations ->
               returns_or_overflows Q (euclidean p q)) ->
  returns_or_overflows
    (fun matrix => square (length locations) matrix /\
                   Forall (Forall Q) matrix)
    (_create_distance_matrix locations).
Proof.
  intros Hzero Hdist.
  unfold _create_distance_matrix. set (n := length locations).
  apply for_each_outcome.
  { split; [split|].
    - by rewrite length_replicate.
    - apply Forall_replicate. by rewrite length_replicate.
    - by apply Forall_replicate, Forall_replicate. }
  intros m i Hi Hm. unfold Py.range in Hi. apply elem_of_seqZ in Hi.
  apply for_each_outcome; [done|].
  clear m Hm. intros m j Hj [Hsq Hall].
  unfold Py.range in Hj. apply elem_of_seqZ in Hj.
  destruct (index_in_range locations i) as [p Hp]; [lia|].
  destruct (index_in_range locations j) as [q Hq]; [lia|].
  rewrite Hp, Hq. simpl.
  apply index_Ok_elem in Hp, Hq.
  pose proof (Hdist p q Hp Hq) as Hd.
  destruct (euclidean p q) as [d|[]|]; simpl in *; try done.
  destruct (set_entry_outcome Q n m i j d) as (m1 & -> & Hsq1 & Hall1);
    [done|done|done|lia|lia|]. simpl.
  destruct (set_entry_outcome Q n m1 j i d) as (m2 & -> & Hsq2 & Hall2);
    [done|done|done|lia|lia|]. by simpl.
Qed.

Lemma create_distance_matrix_outcome (locations : list point) :
  returns_or_overflows
    (fun matrix => square (length locations) matrix /\
                   Forall (Forall sign_clear) matrix)
    (_create_distance_matrix locations).
Proof.
  apply create_distance_matrix_entries; [done|].
  intros p q _ _. apply euclidean_outcome.
Qed.

(** X4: the constructor [CVRP(depot, locations, demands, capacity)] either
    returns a model whose distance matrix has one row and one column per
    location, the depot included, or raises [OverflowError] (a squared
    coordinate difference too large for a float); it raises neither
    [IndexError] nor [ValueError], whatever the coordinates and however many
    demands are given. *)
Theorem constructor_returns_or_overflows (depot : point) (locs : list point)
    (dems : list Z) (cap : Z) :
  returns_or_overflows
    (fun c => locations c = depot :: locs /\ demands c = 0 :: dems /\
              vehicle_capacity c = cap /\
              square (S (length locs)) (distance_matrix c))
    (CVRP_init depot locs dems cap).
Proof.
  unfold CVRP_init.
  pose proof (create_distance_matrix_outcome (depot :: locs)) as H.
  destruct (_create_distance_matrix (depot :: locs)) as [m|[]|]; simpl in *;
    try done.
  by destruct H as [Hsq _].
Qed.

Lemma constructed_matrix (depot : point) (locs : list point) (dems : list Z)
    (cap : Z) (c : CVRP) :
  CVRP_init depot locs dems cap = Ok c ->
  square (length (locations c)) (distance_matrix c) /\
  Forall (Forall sign_clear) (distance_matrix c).
Proof.
  intros H. apply CVRP_init_inv in H as (_ & _ & _ & H).
  pose proof (create_distance_matrix_outcome (locations c)) as Hm.
  by rewrite H in Hm.
Qed.

(** ** [calculate_route_distance]: when it raises, and the sign of a length *)

Lemma entry_outcome (n : nat) (matrix : list (list float)) (a b : Z) :
  square n matrix ->
  (in_index_range n a /\ in_index_range n b -> is_Ok (entry matrix a b)) /\
  (~ (in_index_range n a /\ in_index_range n b) ->
   entry matrix a b = Raise IndexError).
Proof.
  intros [Hlen Hrows]. unfold entry. subst n.
  destruct (decide (in_index_range (length matrix) a)) as [Ha|Ha].
  - destruct (index_in_range matrix a Ha) as [row Hrow]. rewrite Hrow. simpl.
    assert (Hr : length row = length matrix).
    { apply index_Ok_elem in Hrow.
      by eapply (proj1 (Forall_forall _ _)) in Hrows. }
    split.
    + intros [_ Hb]. apply index_in_range. by rewrite Hr.
    + intros Hn. apply index_out_of_range. rewrite Hr. tauto.
  - rewrite (index_out_of_range matrix a Ha). simpl. split; [tauto|done].
Qed.

Lemma route_distance_from_returns (n : nat) (matrix : list (list float))
    (route : list Z) :
  square n matrix -> Forall (in_index_range n) route ->
  forall acc, is_Ok (route_distance_from matrix acc route).
Proof.
  intros Hsq. induction route as [|a [|b rest] IH]; intros Hall acc;
    [by eexists|by eexists|].
  rewrite route_distance_from_step.
  apply Forall_cons in Hall as [Ha Hall]. pose proof Hall as Hb.
  apply Forall_cons in Hb as [Hb _].
  destruct (proj1 (entry_outcome n matrix a b Hsq)) as [d ->]; [done|].
  simpl. by apply IH.
Qed.

Lemma route_distance_from_raises (n : nat) (matrix : list (list float))
    (route : list Z) :
  square n matrix -> (2 <= length route)%nat ->
  ~ Forall (in_index_range n) route ->
  forall acc, route_distance_from matrix acc route = Raise IndexError.
Proof.
  intros Hsq. induction route as [|a [|b rest] IH]; intros Hlen Hall acc;
    [simpl in Hlen; lia|simpl in Hlen; lia|].
  rewrite route_distance_from_step.
  destruct (decide (in_index_range n a /\ in_index_range n b)) as [[Ha Hb]|Hn].
  - destruct (proj1 (entry_outcome n matrix a b Hsq)) as [d ->]; [done|].
    simpl. apply IH.
    + destruct rest; [|simpl; lia]. exfalso. apply Hall.
      by repeat (apply Forall_cons; split; [done|]).
    + intros H. apply Hall. by apply Forall_cons.
  - by rewrite (proj2 (entry_outcome n matrix a b Hsq) Hn).
Qed.

(** X5: on a constructed model with [n] locations, a route of fewer than two
    nodes has length [0.0] whatever node it names; a longer route has a
    length exactly when every node is an index Python accepts for the
    matrix, that is, lies in [-n .. n-1] (a negative node is read from the end
    of the matrix); otherwise the call raises [IndexError]. *)
Theorem route_distance_returns_iff_nodes_in_range (depot : point)
    (locs : list point) (dems : list Z) (cap : Z) (c : CVRP)
    (route : list Z) :
  CVRP_init depot locs dems cap = Ok c ->
  ((length route <= 1)%nat ->
   calculate_route_distance c route = Ok Float.zero) /\
  ((2 <= length route)%nat ->
   (is_Ok (calculate_route_distance c route) <->
    Forall (in_index_range (length (locations c))) route) /\
   (calculate_route_distance c route = Raise IndexError <->
    ~ Forall (in_index_range (length (locations c))) route)).
Proof.
  intros Hc. apply constructed_matrix in Hc as [Hsq _].
  unfold calculate_route_distance. split.
  - intros Hlen. destruct route as [|a [|b rest]]; [done|done|].
    simpl in Hlen. lia.
  - intros Hlen.
    pose proof (route_distance_from_returns _ _ route Hsq) as Hok.
    pose proof (route_distance_from_raises _ _ route Hsq Hlen) as Hraise.
    split; split.
    + intros [d Hd].
      destruct (decide (Forall (in_index_range (length (locations c))) route))
        as [|Hn]; [done|].
      rewrite (Hraise Hn) in Hd. discriminate.
    + intros Hall. by apply Hok.
    + intros Hr Hall. destruct (Hok Hall Float.zero) as [d Hd]. congruence.
    + intros Hn. by apply Hraise.
Qed.

Lemma route_distance_returns_iff_nodes_in_range_witness :
  calculate_route_distance scenario_model [7] = Ok Float.zero /\
  is_Ok (calculate_route_distance scenario_model [0; -1; 2; 0]) /\
  calculate_route_distance scenario_model [0; 5; 0] = Raise IndexError.
Proof.
  pose proof (route_distance_returns_iff_nodes_in_range _ _ _ _ _ [7]
                scenario_model_built) as [H1 _].
  pose proof (route_distance_returns_iff_nodes_in_range _ _ _ _ _ [0; -1; 2; 0]
                scenario_model_built) as [_ H2].
  pose proof (route_distance_returns_iff_nodes_in_range _ _ _ _ _ [0; 5; 0]
                scenario_model_built) as [_ H3].
  split; [apply H1; simpl; lia|]. split.
  - apply H2; [simpl; lia|].
    repeat (apply Forall_cons; split; [vm_compute; split; congruence|]).
    apply Forall_nil_2.
  - apply H3; [simpl; lia|]. intros H.
    apply Forall_cons in H as [_ H]. apply Forall_cons in H as [H _].
    vm_compute in H. destruct H as [_ H]. discriminate.
Defined.

Lemma route_distance_from_closed (Q : float -> Prop)
    (matrix : list (list float)) (route : list Z) :
  (forall a b, Q a -> Q b -> Q (Float.add a b)) ->
  Forall (Forall Q) matrix ->
  forall acc d,
    Q acc -> route_distance_from matrix acc route = Ok d -> Q d.
Proof.
  intros Hadd Hall. induction route as [|a [|b rest] IH]; intros acc d Hacc H;
    [by injection H as <-|by injection H as <-|].
  rewrite route_distance_from_step in H.
  apply bind_Ok_inv in H as (e & He & H).
  eapply IH; [|exact H].
  apply Hadd; [done|].
  unfold entry in He. apply bind_Ok_inv in He as (row & Hrow & He).
  apply index_Ok_elem in Hrow, He.
  eapply (proj1 (Forall_forall _ _)) in Hall; [|exact Hrow].
  by eapply (proj1 (Forall_forall _ _)) in Hall.
Qed.

Lemma sum_route_distances_closed (Q : float -> Prop) (c : CVRP)
    (s : solution) :
  (forall a b, Q a -> Q b -> Q (Float.add a b)) -> Q Float.zero ->
  Forall (Forall Q) (distance_matrix c) ->
  forall acc cost,
    Q acc -> sum_route_distances c acc s = Ok cost -> Q cost.
Proof.
  intros Hadd Hzero Hall. induction s as [|r rest IH]; intros acc cost Hacc H;
    simpl in H; [by injection H as <-|].
  apply bind_Ok_inv in H as (d & Hd & H). eapply IH; [|exact H].
  apply Hadd; [done|].
  by eapply (route_distance_from_closed Q _ r Hadd Hall Float.zero).
Qed.

(** X6: on a constructed model no route length and no solution cost is
    negative: whatever [calculate_route_distance] or [_calculate_cost]
    returns, the comparison [value < 0] is false (the value may be NaN or
    [+inf] when coordinates are infinite or far apart). *)
Theorem distances_never_negative (depot : point) (locs : list point)
    (dems : list Z) (cap : Z) (c : CVRP) :
  CVRP_init depot locs dems cap = Ok c ->
  (forall route d, calculate_route_distance c route = Ok d ->
                   Float.ltb d Float.zero = false) /\
  (forall s cost, _calculate_cost c s = Ok cost ->
                  Float.ltb cost Float.zero = false).
Proof.
  intros Hc. apply constructed_matrix in Hc as [_ Hall]. split.
  - intros route d H. apply sign_clear_not_below_zero.
    by eapply (route_distance_from_closed sign_clear _ route add_sign_clear
                 Hall Float.zero).
  - intros s cost H. apply sign_clear_not_below_zero.
    by eapply (sum_route_distances_closed sign_clear c s add_sign_clear
                 eq_refl Hall Float.zero).
Qed.

Lemma distances_never_negative_witness :
  _calculate_cost scenario_model [[0; 1; 2; 0]; [0; 3; 4; 0]]
  = Ok scenario_cost /\
  Float.ltb scenario_cost Float.zero = false.
Proof.
  assert (H : _calculate_cost scenario_model [[0; 1; 2; 0]; [0; 3; 4; 0]]
              = Ok scenario_cost) by (vm_compute; reflexivity).
  split; [exact H|].
  exact (proj2 (distances_never_negative _ _ _ _ _ scenario_model_built)
           _ _ H).
Defined.

(** ** Runs without iterations *)

Lemma index_index_error_only {A} (l : list A) (i : Z) :
  index_error_only (Py.index l i).
Proof.
  destruct (decide (in_index_range (length l) i)) as [Hi|Hi].
  - by destruct (index_in_range l i Hi) as [x ->].
  - by rewrite index_out_of_range.
Qed.

Lemma split_index_error_only (c : CVRP) (customers : list Z) :
  index_error_only (_split_to_routes c customers).
Proof.
  destruct (decide (Forall (in_index_range (length (demands c))) customers))
    as [H|H].
  - destruct (split_total c customers) as [routes ->]; [|done].
    eapply Forall_impl; [exact H|]. intros x Hx. by apply index_in_range.
  - apply not_Forall_Exists in H; [|apply _].
    unfold _split_to_routes. by rewrite split_loop_raises.
Qed.

Lemma route_distance_from_index_error_only (matrix : list (list float))
    (route : list Z) :
  forall acc, index_error_only (route_distance_from matrix acc route).
Proof.
  induction route as [|a [|b rest] IH]; intros acc; [done|done|].
  rewrite route_distance_from_step. unfold entry.
  pose proof (index_index_error_only matrix a) as Ha.
  destruct (Py.index matrix a) as [row|[]|]; simpl in *; try done.
  pose proof (index_index_error_only row b) as Hb.
  destruct (Py.index row b) as [d|[]|]; simpl in *; try done.
Qed.

Lemma sum_route_distances_index_error_only (c : CVRP) (s : solution) :
  forall acc, index_error_only (sum_route_distances c acc s).
Proof.
  induction s as [|r rest IH]; intros acc; simpl; [done|].
  pose proof (route_distance_from_index_error_only (distance_matrix c) r
                Float.zero) as Hr.
  unfold calculate_route_distance.
  destruct (route_distance_from _ _ r) as [d|[]|]; simpl in *; try done.
Qed.

Lemma initial_solution_outcome (c : CVRP) (t : tape) :
  (exists s cost t1,
     _random_solution c t = Ok (s, t1) /\ _calculate_cost c s = Ok cost) \/
  _random_solution c t = Raise IndexError \/
  (exists s t1,
     _random_solution c t = Ok (s, t1) /\
     _calculate_cost c s = Raise IndexError).
Proof.
  unfold _random_solution.
  destruct (shuffle_total (customers_of c) t) as (p & t1 & Hp).
  unfold mbind, rand_bind. rewrite Hp.
  pose proof (split_index_error_only c p) as Hs.
  destruct (_split_to_routes c p) as [s|[]|]; simpl in *; try done;
    [|by right; left].
  pose proof (sum_route_distances_index_error_only c s Float.zero) as Hc.
  unfold _calculate_cost.
  destruct (sum_route_distances c Float.zero s) as [cost|[]|] eqn:E;
    simpl in *; try done.
  - left. by exists s, cost, t1.
  - right. right. by exists s, t1.
Qed.

(** X7: a run of a newly constructed strategy that is asked for no
    iteration does not return an empty result, it raises.  [RandomAlgorithm.run] and [GreedyAlgorithm.run] with
    a count of zero or less raise [ValueError] ([min] of an empty list, and
    [np.argmin] of one); annealing and tabu search with no iteration raise
    [ValueError] ([max] of the empty worst series) once the initial solution
    is built, or the [IndexError] of building it; and the genetic strategy
    raises [ValueError] on an empty population, which is what a population
    size of zero or less gives. *)
Theorem runs_without_iterations_raise (lib : numlib) (c : CVRP) (t : tape) :
  (forall n, n <= 0 -> RandomAlgorithm.run lib c n t = Raise ValueError) /\
  (forall fuel n, n <= 0 ->
     GreedyAlgorithm.run lib fuel c n t = Raise ValueError) /\
  (forall temp rate n, n <= 0 ->
     SimulatedAnnealing.run lib c temp rate n t = Raise ValueError \/
     SimulatedAnnealing.run lib c temp rate n t = Raise IndexError) /\
  (forall tabu_size size n, n <= 0 ->
     TabuSearch.run lib c n tabu_size size t = Raise ValueError \/
     TabuSearch.run lib c n tabu_size size t = Raise IndexError) /\
  (forall fuel g, GeneticAlgorithm.population g = [] ->
     GeneticAlgorithm.run lib fuel g t = Raise ValueError) /\
  (forall fuel size gens mrate crate tsize elite g t1, size <= 0 ->
     GeneticAlgorithm.__init__ fuel c size gens mrate crate tsize elite t
     = Ok (g, t1) ->
     GeneticAlgorithm.population g = []).
Proof.
  split; [|split; [|split; [|split; [|split]]]].
  - intros n Hn. unfold RandomAlgorithm.run.
    by replace (Z.to_nat n) with 0%nat by lia.
  - intros fuel n Hn. unfold GreedyAlgorithm.run.
    by replace (Z.to_nat n) with 0%nat by lia.
  - intros temp rate n Hn. unfold SimulatedAnnealing.run.
    replace (Z.to_nat n) with 0%nat by lia.
    destruct (initial_solution_outcome c t)
      as [(s & cost & t1 & Hs & Hc)|[Hs|(s & t1 & Hs & Hc)]];
      [left|right|right]; unfold mbind at 1, rand_bind at 1; rewrite Hs;
      [|done|]; unfold mbind at 1, rand_bind at 1; by rewrite Hc.
  - intros tabu_size size n Hn. unfold TabuSearch.run.
    replace (Z.to_nat n) with 0%nat by lia.
    destruct (initial_solution_outcome c t)
      as [(s & cost & t1 & Hs & Hc)|[Hs|(s & t1 & Hs & Hc)]];
      [left|right|right]; unfold mbind at 1, rand_bind at 1; rewrite Hs;
      [|done|]; unfold mbind at 1, rand_bind at 1; by rewrite Hc.
  - intros fuel g Hg. unfold GeneticAlgorithm.run. rewrite Hg.
    by destruct (Z.to_nat (GeneticAlgorithm.generations g)).
  - intros fuel size gens mrate crate tsize elite g t1 Hsize H.
    unfold GeneticAlgorithm.__init__ in H.
    apply rand_bind_Ok_inv in H as (n & t2 & _ & H).
    apply rand_bind_Ok_inv in H as (e & t3 & _ & H).
    apply rand_bind_Ok_inv in H as (pop & t4 & Hpop & H).
    injection H as <- _. simpl.
    destruct fuel; simpl in Hpop;
      (destruct (Z.ltb_spec (Z.of_nat 0) size); [lia|]);
      unfold mret, rand_ret in Hpop; by injection Hpop as <- _.
Qed.

Lemma runs_without_iterations_raise_witness :
  RandomAlgorithm.run plain_numlib scenario_model 0 [] = Raise ValueError /\
  GreedyAlgorithm.run plain_numlib 10 scenario_model (-1) [] = Raise ValueError.
Proof.
  destruct (runs_without_iterations_raise plain_numlib scenario_model [])
    as (H1 & H2 & _).
  split; [apply H1; lia|apply H2; lia].
Defined.

(** ** The statistics series *)

Lemma repeat_loop_count {S} (P : nat -> S -> Prop) (body : S -> rand S)
    (n : nat) :
  forall k s t s' t',
    P k s ->
    (forall k s t s' t', P k s -> body s t = Ok (s', t') -> P (Datatypes.S k) s') ->
    repeat_loop n body s t = Ok (s', t') -> P (k + n)%nat s'.
Proof.
  induction n as [|n IH]; intros k s t s' t' Hs Hbody H; simpl in H.
  - injection H as <- _. by rewrite Nat.add_0_r.
  - apply rand_bind_Ok_inv in H as (s1 & t1 & H1 & H).
    replace (k + Datatypes.S n)%nat with (Datatypes.S k + n)%nat by lia.
    eapply IH; [|done|done]. by eapply Hbody.
Qed.

Lemma series_lengths_snoc (st : stats) (n : nat) (a b d : float) :
  series_lengths st n ->
  series_lengths {| stats_best := stats_best st ++ [a];
                    stats_middle := stats_middle st ++ [b];
                    stats_worst := stats_worst st ++ [d] |} (Datatypes.S n).
Proof.
  intros (H1 & H2 & H3). unfold series_lengths. simpl.
  rewrite !length_app. simpl. lia.
Qed.

Lemma trajectory_update_stats_lengths (st st' : stats) (n : nat)
    (best current : float) :
  series_lengths st n ->
  trajectory_update_stats st best current = Ok st' ->
  series_lengths st' (Datatypes.S n).
Proof.
  intros Hst H. unfold trajectory_update_stats in H.
  apply bind_Ok_inv in H as (w & _ & H). injection H as <-.
  by apply series_lengths_snoc.
Qed.

Lemma empty_stats_lengths : series_lengths empty_stats 0.
Proof. done. Qed.

(** X8: in the result of a run of a newly constructed strategy the three
    statistics series hold exactly one entry per iteration (per restart for
    the greedy strategy, per generation for the genetic one). *)
Theorem statistics_one_entry_per_iteration (lib : numlib) (c : CVRP)
    (t : tape) (r : result) (t' : tape) :
  (forall n, RandomAlgorithm.run lib c n t = Ok (r, t') ->
     series_lengths (result_stats r) (Z.to_nat n)) /\
  (forall fuel n, GreedyAlgorithm.run lib fuel c n t = Ok (r, t') ->
     series_lengths (result_stats r) (Z.to_nat n)) /\
  (forall temp rate n,
     SimulatedAnnealing.run lib c temp rate n t = Ok (r, t') ->
     series_lengths (result_stats r) (Z.to_nat n)) /\
  (forall tabu_size size n,
     TabuSearch.run lib c n tabu_size size t = Ok (r, t') ->
     series_lengths (result_stats r) (Z.to_nat n)) /\
  (forall fuel g, GeneticAlgorithm.run lib fuel g t = Ok (r, t') ->
     series_lengths (result_stats r)
       (Z.to_nat (GeneticAlgorithm.generations g))).
Proof.
  split; [|split; [|split; [|split]]].
  - intros n H. unfold RandomAlgorithm.run in H.
    apply rand_bind_Ok_inv in H as (st & t1 & Hloop & H).
    apply lift_Ok_inv in H as [H _].
    unfold RandomAlgorithm._prepare_results in H.
    apply bind_Ok_inv in H as (lo & _ & H).
    apply bind_Ok_inv in H as (hi & _ & H). injection H as <-. simpl.
    apply (repeat_loop_count
             (fun k st => series_lengths (RandomAlgorithm.run_stats st) k)
             _ _ 0%nat) in Hloop; [done|done|].
    clear. intros k st t st' t' Hst H. unfold RandomAlgorithm.iteration in H.
    apply rand_bind_Ok_inv in H as (s1 & t1 & _ & H).
    apply rand_bind_Ok_inv in H as (cost & t2 & _ & H).
    apply rand_bind_Ok_inv in H as (stats' & t3 & Hstats & H).
    injection H as <- _. simpl. apply lift_Ok_inv in Hstats as [Hstats _].
    unfold RandomAlgorithm._update_stats in Hstats.
    apply bind_Ok_inv in Hstats as (lo & _ & Hstats).
    apply bind_Ok_inv in Hstats as (hi & _ & Hstats). injection Hstats as <-.
    by apply series_lengths_snoc.
  - intros fuel n H. unfold GreedyAlgorithm.run in H.
    apply rand_bind_Ok_inv in H as (st & t1 & Hloop & H).
    apply rand_bind_Ok_inv in H as (idx & t2 & _ & H).
    apply rand_bind_Ok_inv in H as (best & t3 & _ & H).
    apply lift_Ok_inv in H as [H _].
    assert (Hr : result_stats r = GreedyAlgorithm.run_stats st).
    { unfold GreedyAlgorithm._prepare_results in H.
      destruct (GreedyAlgorithm.costs st); [by injection H as <-|].
      apply bind_Ok_inv in H as (lo & _ & H).
      apply bind_Ok_inv in H as (hi & _ & H). by injection H as <-. }
    rewrite Hr.
    apply (repeat_loop_count
             (fun k st => series_lengths (GreedyAlgorithm.run_stats st) k)
             _ _ 0%nat) in Hloop; [done|done|].
    clear. intros k st t st' t' Hst H. unfold GreedyAlgorithm.iteration in H.
    apply rand_bind_Ok_inv in H as (s1 & t1 & _ & H).
    apply rand_bind_Ok_inv in H as (cost & t2 & _ & H).
    apply rand_bind_Ok_inv in H as (stats' & t3 & Hstats & H).
    injection H as <- _. simpl. apply lift_Ok_inv in Hstats as [Hstats _].
    unfold GreedyAlgorithm._update_stats in Hstats.
    destruct (GreedyAlgorithm.costs st ++ [cost]) eqn:E.
    { by destruct (GreedyAlgorithm.costs st). }
    apply bind_Ok_inv in Hstats as (lo & _ & Hstats).
    apply bind_Ok_inv in Hstats as (hi & _ & Hstats). injection Hstats as <-.
    by apply series_lengths_snoc.
  - intros temp rate n H. unfold SimulatedAnnealing.run in H.
    apply rand_bind_Ok_inv in H as (s0 & t1 & _ & H).
    apply rand_bind_Ok_inv in H as (c0 & t2 & _ & H).
    apply rand_bind_Ok_inv in H as (st & t3 & Hloop & H).
    apply lift_Ok_inv in H as [H _].
    unfold trajectory_prepare_results in H.
    apply bind_Ok_inv in H as (w & _ & H). injection H as <-. simpl.
    apply (repeat_loop_count
             (fun k st => series_lengths (SimulatedAnnealing.run_stats st) k)
             _ _ 0%nat) in Hloop; [done|done|].
    clear. intros k st t st' t' Hst H.
    unfold SimulatedAnnealing.iteration in H.
    apply rand_bind_Ok_inv in H as (s1 & t1 & _ & H).
    apply rand_bind_Ok_inv in H as (cost & t2 & _ & H).
    apply rand_bind_Ok_inv in H as (accept & t3 & _ & H).
    apply rand_bind_Ok_inv in H as (stats' & t4 & Hstats & H).
    injection H as <- _. simpl. apply lift_Ok_inv in Hstats as [Hstats _].
    by eapply trajectory_update_stats_lengths.
  - intros tabu_size size n H. unfold TabuSearch.run in H.
    apply rand_bind_Ok_inv in H as (s0 & t1 & _ & H).
    apply rand_bind_Ok_inv in H as (c0 & t2 & _ & H).
    apply rand_bind_Ok_inv in H as (st & t3 & Hloop & H).
    apply lift_Ok_inv in H as [H _].
    unfold trajectory_prepare_results in H.
    apply bind_Ok_inv in H as (w & _ & H). injection H as <-. simpl.
    apply (repeat_loop_count
             (fun k st => series_lengths (TabuSearch.run_stats st) k)
             _ _ 0%nat) in Hloop; [done|done|].
    clear. intros k st t st' t' Hst H. unfold TabuSearch.iteration in H.
    apply rand_bind_Ok_inv in H as (ns & t1 & _ & H).
    apply rand_bind_Ok_inv in H as (ncs & t2 & _ & H).
    apply rand_bind_Ok_inv in H as (stats' & t3 & Hstats & H).
    injection H as <- _. simpl. apply lift_Ok_inv in Hstats as [Hstats _].
    eapply trajectory_update_stats_lengths; [|exact Hstats].
    unfold TabuSearch.move.
    destruct (TabuSearch.best_non_tabu _ _ _ _) as [[[|? ?]|] ?]; done.
  - intros fuel g H. unfold GeneticAlgorithm.run in H.
    apply rand_bind_Ok_inv in H as ([pop st] & t1 & Hloop & H).
    apply rand_bind_Ok_inv in H as (ff & t2 & _ & H).
    apply rand_bind_Ok_inv in H as (best & t3 & _ & H).
    apply rand_bind_Ok_inv in H as (lo & t4 & _ & H).
    apply rand_bind_Ok_inv in H as (hi & t5 & _ & H).
    injection H as <- _. simpl.
    apply (repeat_loop_count
             (fun k (ps : list solution * stats) => series_lengths ps.2 k)
             _ _ 0%nat) in Hloop; [done|done|].
    clear. intros k [pop st] t [pop' st'] t' Hst H.
    unfold GeneticAlgorithm.generation in H.
    apply rand_bind_Ok_inv in H as (ff & t1 & _ & H).
    apply rand_bind_Ok_inv in H as (lo & t2 & _ & H).
    apply rand_bind_Ok_inv in H as (hi & t3 & _ & H).
    apply rand_bind_Ok_inv in H as (np & t4 & _ & H).
    injection H as <- <- _. simpl. by apply series_lengths_snoc.
Qed.

Lemma statistics_one_entry_per_iteration_witness :
  exists r t',
    RandomAlgorithm.run plain_numlib scenario_model 3 [] = Ok (r, t') /\
    series_lengths (result_stats r) 3.
Proof.
  destruct (RandomAlgorithm.run plain_numlib scenario_model 3 [])
    as [[r t']| |] eqn:Hrun; [|vm_compute in Hrun; discriminate..].
  exists r, t'. split; [reflexivity|].
  exact (proj1 (statistics_one_entry_per_iteration plain_numlib scenario_model
                  [] r t') 3 Hrun).
Defined.

(** ** The best-cost series and the reported best *)

Lemma min_from_snoc (x y : float) (l : list float) :
  Builtin.min_from x (l ++ [y]) =
  if Float.ltb y (Builtin.min_from x l) then y else Builtin.min_from x l.
Proof. revert x. induction l as [|z l IH]; intros x; simpl; [done|apply IH]. Qed.

Lemma min_snoc_steps_down (costs : list float) (cost lo b : float) :
  Builtin.min costs = Ok b -> Builtin.min (costs ++ [cost]) = Ok lo ->
  lo = b \/ Float.ltb lo b = true.
Proof.
  destruct costs as [|x rest]; [discriminate|]. simpl.
  intros [= <-] [= <-]. rewrite min_from_snoc.
  destruct (Float.ltb cost _) eqn:E; [by right|by left].
Qed.

Lemma never_rises_snoc (l : list float) (a : float) :
  never_rises l ->
  (forall b, last l = Some b -> a = b \/ Float.ltb a b = true) ->
  never_rises (l ++ [a]).
Proof. intros Hl Ha. by apply adjacent_snoc. Qed.

Lemma move_best_cost (tabu_size : Z) (st : TabuSearch.state)
    (neighbor_costs : list (solution * float)) :
  let st' := TabuSearch.move tabu_size st neighbor_costs in
  TabuSearch.best_cost st' = TabuSearch.best_cost st \/
  Float.ltb (TabuSearch.best_cost st') (TabuSearch.best_cost st) = true.
Proof.
  unfold TabuSearch.move.
  destruct (TabuSearch.best_non_tabu _ _ _ _) as [[[|? ?]|] cost]; simpl;
    (destruct (Float.ltb cost (TabuSearch.best_cost st)) eqn:E;
     [by right|by left]).
Qed.

(** X9: the ['best'] series of the statistics never rises: in the result of
    a run of newly constructed random sampling, greedy strategy, annealing or
    tabu search each entry is its predecessor or a cost strictly below it. *)
Theorem best_series_never_rises (lib : numlib) (c : CVRP) (t : tape)
    (r : result) (t' : tape) :
  (forall n, RandomAlgorithm.run lib c n t = Ok (r, t') ->
     never_rises (stats_best (result_stats r))) /\
  (forall fuel n, GreedyAlgorithm.run lib fuel c n t = Ok (r, t') ->
     never_rises (stats_best (result_stats r))) /\
  (forall temp rate n,
     SimulatedAnnealing.run lib c temp rate n t = Ok (r, t') ->
     never_rises (stats_best (result_stats r))) /\
  (forall tabu_size size n,
     TabuSearch.run lib c n tabu_size size t = Ok (r, t') ->
     never_rises (stats_best (result_stats r))).
Proof.
  split; [|split; [|split]].
  - intros n H. unfold RandomAlgorithm.run in H.
    apply rand_bind_Ok_inv in H as (st & t1 & Hloop & H).
    apply lift_Ok_inv in H as [H _].
    unfold RandomAlgorithm._prepare_results in H.
    apply bind_Ok_inv in H as (lo & _ & H).
    apply bind_Ok_inv in H as (hi & _ & H). injection H as <-. simpl.
    apply (repeat_loop_invariant
             (fun st =>
                never_rises (stats_best (RandomAlgorithm.run_stats st)) /\
                forall m, last (stats_best (RandomAlgorithm.run_stats st))
                          = Some m ->
                          Builtin.min (RandomAlgorithm.costs st) = Ok m))
      in Hloop; [by destruct Hloop|by split; [apply adjacent_nil|]|].
    clear. intros st t st' t' [Hst Hlast] H.
    unfold RandomAlgorithm.iteration in H.
    apply rand_bind_Ok_inv in H as (s1 & t1 & _ & H).
    apply rand_bind_Ok_inv in H as (cost & t2 & _ & H).
    apply rand_bind_Ok_inv in H as (stats' & t3 & Hstats & H).
    injection H as <- _. simpl. apply lift_Ok_inv in Hstats as [Hstats _].
    unfold RandomAlgorithm._update_stats in Hstats.
    apply bind_Ok_inv in Hstats as (lo & Hlo & Hstats).
    apply bind_Ok_inv in Hstats as (hi & _ & Hstats). injection Hstats as <-.
    simpl. split.
    + apply never_rises_snoc; [done|]. intros b Hb.
      by eapply min_snoc_steps_down; [apply Hlast|].
    + intros m Hm. rewrite last_snoc in Hm. by injection Hm as <-.
  - intros fuel n H. unfold GreedyAlgorithm.run in H.
    apply rand_bind_Ok_inv in H as (st & t1 & Hloop & H).
    apply rand_bind_Ok_inv in H as (idx & t2 & _ & H).
    apply rand_bind_Ok_inv in H as (best & t3 & _ & H).
    apply lift_Ok_inv in H as [H _].
    assert (Hr : result_stats r = GreedyAlgorithm.run_stats st).
    { unfold GreedyAlgorithm._prepare_results in H.
      destruct (GreedyAlgorithm.costs st); [by injection H as <-|].
      apply bind_Ok_inv in H as (lo & _ & H).
      apply bind_Ok_inv in H as (hi & _ & H). by injection H as <-. }
    rewrite Hr.
    apply (repeat_loop_invariant
             (fun st =>
                never_rises (stats_best (GreedyAlgorithm.run_stats st)) /\
                forall m, last (stats_best (GreedyAlgorithm.run_stats st))
                          = Some m ->
                          Builtin.min (GreedyAlgorithm.costs st) = Ok m))
      in Hloop; [by destruct Hloop|by split; [apply adjacent_nil|]|].
    clear. intros st t st' t' [Hst Hlast] H.
    unfold GreedyAlgorithm.iteration in H.
    apply rand_bind_Ok_inv in H as (s1 & t1 & _ & H).
    apply rand_bind_Ok_inv in H as (cost & t2 & _ & H).
    apply rand_bind_Ok_inv in H as (stats' & t3 & Hstats & H).
    injection H as <- _. simpl. apply lift_Ok_inv in Hstats as [Hstats _].
    unfold GreedyAlgorithm._update_stats in Hstats.
    destruct (GreedyAlgorithm.costs st ++ [cost]) as [|x rest] eqn:E.
    { by destruct (GreedyAlgorithm.costs st). }
    rewrite <- E in *. clear E x rest.
    apply bind_Ok_inv in Hstats as (lo & Hlo & Hstats).
    apply bind_Ok_inv in Hstats as (hi & _ & Hstats). injection Hstats as <-.
    simpl. split.
    + apply never_rises_snoc; [done|]. intros b Hb.
      by eapply min_snoc_steps_down; [apply Hlast|].
    + intros m Hm. rewrite last_snoc in Hm. by injection Hm as <-.
  - intros temp rate n H. unfold SimulatedAnnealing.run in H.
    apply rand_bind_Ok_inv in H as (s0 & t1 & _ & H).
    apply rand_bind_Ok_inv in H as (c0 & t2 & _ & H).
    apply rand_bind_Ok_inv in H as (st & t3 & Hloop & H).
    apply lift_Ok_inv in H as [H _].
    unfold trajectory_prepare_results in H.
    apply bind_Ok_inv in H as (w & _ & H). injection H as <-. simpl.
    apply (repeat_loop_invariant
             (fun st =>
                never_rises (stats_best (SimulatedAnnealing.run_stats st)) /\
                forall m, last (stats_best (SimulatedAnnealing.run_stats st))
                          = Some m ->
                          m = SimulatedAnnealing.best_cost st))
      in Hloop; [by destruct Hloop|by split; [apply adjacent_nil|]|].
    clear. intros st t st' t' [Hst Hlast] H.
    unfold SimulatedAnnealing.iteration in H.
    apply rand_bind_Ok_inv in H as (s1 & t1 & _ & H).
    apply rand_bind_Ok_inv in H as (cost & t2 & _ & H).
    apply rand_bind_Ok_inv in H as (accept & t3 & _ & H).
    apply rand_bind_Ok_inv in H as (stats' & t4 & Hstats & H).
    injection H as <- _. simpl. apply lift_Ok_inv in Hstats as [Hstats _].
    unfold trajectory_update_stats in Hstats.
    apply bind_Ok_inv in Hstats as (w & _ & Hstats). injection Hstats as <-.
    simpl. split.
    + apply never_rises_snoc; [done|]. intros b Hb.
      rewrite (Hlast b Hb).
      destruct accept; simpl; [|by left].
      destruct (Float.ltb cost _) eqn:E; [by right|by left].
    + intros m Hm. rewrite last_snoc in Hm. by injection Hm as <-.
  - intros tabu_size size n H. unfold TabuSearch.run in H.
    apply rand_bind_Ok_inv in H as (s0 & t1 & _ & H).
    apply rand_bind_Ok_inv in H as (c0 & t2 & _ & H).
    apply rand_bind_Ok_inv in H as (st & t3 & Hloop & H).
    apply lift_Ok_inv in H as [H _].
    unfold trajectory_prepare_results in H.
    apply bind_Ok_inv in H as (w & _ & H). injection H as <-. simpl.
    apply (repeat_loop_invariant
             (fun st =>
                never_rises (stats_best (TabuSearch.run_stats st)) /\
                forall m, last (stats_best (TabuSearch.run_stats st))
                          = Some m ->
                          m = TabuSearch.best_cost st))
      in Hloop; [by destruct Hloop|by split; [apply adjacent_nil|]|].
    clear. intros st t st' t' [Hst Hlast] H. unfold TabuSearch.iteration in H.
    apply rand_bind_Ok_inv in H as (ns & t1 & _ & H).
    apply rand_bind_Ok_inv in H as (ncs & t2 & _ & H).
    apply rand_bind_Ok_inv in H as (stats' & t3 & Hstats & H).
    injection H as <- _. simpl. apply lift_Ok_inv in Hstats as [Hstats _].
    unfold trajectory_update_stats in Hstats.
    apply bind_Ok_inv in Hstats as (w & _ & Hstats). injection Hstats as <-.
    simpl.
    assert (Hstats : TabuSearch.run_stats (TabuSearch.move tabu_size st ncs)
                     = TabuSearch.run_stats st).
    { unfold TabuSearch.move.
      by destruct (TabuSearch.best_non_tabu _ _ _ _) as [[[|? ?]|] ?]. }
    rewrite Hstats. split.
    + apply never_rises_snoc; [done|]. intros b Hb.
      rewrite (Hlast b Hb). apply move_best_cost.
    + intros m Hm. rewrite last_snoc in Hm. by injection Hm as <-.
Qed.

Lemma best_series_never_rises_witness :
  exists r t',
    TabuSearch.run plain_numlib scenario_model 3 2 2 [] = Ok (r, t') /\
    never_rises (stats_best (result_stats r)).
Proof.
  destruct (TabuSearch.run plain_numlib scenario_model 3 2 2 [])
    as [[r t']| |] eqn:Hrun; [|vm_compute in Hrun; discriminate..].
  exists r, t'. split; [reflexivity|].
  exact (proj2 (proj2 (proj2 (best_series_never_rises plain_numlib
                                scenario_model [] r t'))) 2 2 3 Hrun).
Defined.

Lemma evaluate_costs (c : CVRP) (neighbors : list solution)
    (neighbor_costs : list (solution * float)) :
  TabuSearch.evaluate c neighbors = Ok neighbor_costs ->
  forall n k, (n, k) ∈ neighbor_costs -> _calculate_cost c n = Ok k.
Proof.
  unfold TabuSearch.evaluate. revert neighbor_costs.
  induction neighbors as [|x rest IH]; intros ncs H n k Hin; simpl in H.
  - injection H as <-. by apply elem_of_nil in Hin.
  - apply bind_Ok_inv in H as ([x' y] & Hxy & H).
    apply bind_Ok_inv in Hxy as (y' & Hy & Hxy). injection Hxy as <- <-.
    apply bind_Ok_inv in H as (r' & Hr' & H). injection H as <-.
    apply elem_of_cons in Hin as [[= -> ->]|Hin]; [done|].
    by eapply IH.
Qed.

Lemma min_by_from_min_from {A} (key : A -> outcome float) (l : list A) :
  forall ks best bk w,
    Py.map_outcome key l = Ok ks ->
    Builtin.min_by_from key best bk l = Ok w ->
    key best = Ok bk ->
    key w = Ok (Builtin.min_from bk ks).
Proof.
  induction l as [|x rest IH]; intros ks best bk w Hks H Hbest;
    simpl in Hks, H.
  - injection Hks as <-. by injection H as <-.
  - apply bind_Ok_inv in Hks as (k & Hk & Hks).
    apply bind_Ok_inv in Hks as (ks' & Hks' & Hks). injection Hks as <-.
    rewrite Hk in H. simpl in H. simpl.
    destruct (Float.ltb k bk); by eapply IH.
Qed.

(** X10: the reported best distance is the cost of the reported best
    solution.  In the result of annealing, of tabu search and of the genetic
    strategy, [_calculate_cost] (the fitness, for the genetic strategy) of
    ['best_solution'] returns ['best_distance']. *)
Theorem best_distance_is_cost_of_best_solution (lib : numlib) (c : CVRP)
    (t : tape) (r : result) (t' : tape) (s : solution) :
  best_solution r = Some s ->
  (forall temp rate n,
     SimulatedAnnealing.run lib c temp rate n t = Ok (r, t') ->
     _calculate_cost c s = Ok (best_distance r)) /\
  (forall tabu_size size n,
     TabuSearch.run lib c n tabu_size size t = Ok (r, t') ->
     _calculate_cost c s = Ok (best_distance r)) /\
  (forall fuel g,
     GeneticAlgorithm.cvrp g = c ->
     GeneticAlgorithm.run lib fuel g t = Ok (r, t') ->
     GeneticAlgorithm._calculate_fitness c s = Ok (best_distance r)).
Proof.
  intros Hs. split; [|split].
  - intros temp rate n H. unfold SimulatedAnnealing.run in H.
    apply rand_bind_Ok_inv in H as (s0 & t1 & _ & H).
    apply rand_bind_Ok_inv in H as (c0 & t2 & Hc0 & H).
    apply lift_Ok_inv in Hc0 as [Hc0 _].
    apply rand_bind_Ok_inv in H as (st & t3 & Hloop & H).
    apply lift_Ok_inv in H as [H _].
    unfold trajectory_prepare_results in H.
    apply bind_Ok_inv in H as (w & _ & H). injection H as <-.
    simpl in *. injection Hs as <-.
    apply (repeat_loop_invariant
             (fun st => _calculate_cost c (SimulatedAnnealing.best_solution st)
                        = Ok (SimulatedAnnealing.best_cost st)))
      in Hloop; [done|done|].
    clear -c. intros st t st' t' Hst H.
    unfold SimulatedAnnealing.iteration in H.
    apply rand_bind_Ok_inv in H as (s1 & t1 & _ & H).
    apply rand_bind_Ok_inv in H as (cost & t2 & Hcost & H).
    apply lift_Ok_inv in Hcost as [Hcost _].
    apply rand_bind_Ok_inv in H as (accept & t3 & _ & H).
    apply rand_bind_Ok_inv in H as (stats' & t4 & _ & H).
    injection H as <- _. simpl.
    by destruct (accept && _).
  - intros tabu_size size n H. unfold TabuSearch.run in H.
    apply rand_bind_Ok_inv in H as (s0 & t1 & _ & H).
    apply rand_bind_Ok_inv in H as (c0 & t2 & Hc0 & H).
    apply lift_Ok_inv in Hc0 as [Hc0 _].
    apply rand_bind_Ok_inv in H as (st & t3 & Hloop & H).
    apply lift_Ok_inv in H as [H _].
    unfold trajectory_prepare_results in H.
    apply bind_Ok_inv in H as (w & _ & H). injection H as <-.
    simpl in *. revert s Hs.
    eapply (repeat_loop_invariant
              (fun st => forall s, TabuSearch.best_solution st = Some s ->
                           _calculate_cost c s = Ok (TabuSearch.best_cost st)));
      [| |exact Hloop]; [by intros s [= <-]|].
    clear -c. intros st t st' t' Hst H. unfold TabuSearch.iteration in H.
    apply rand_bind_Ok_inv in H as (ns & t1 & _ & H).
    apply rand_bind_Ok_inv in H as (ncs & t2 & Hncs & H).
    apply lift_Ok_inv in Hncs as [Hncs _].
    pose proof (evaluate_costs c ns ncs Hncs) as Hcosts.
    apply rand_bind_Ok_inv in H as (stats' & t3 & _ & H).
    injection H as <- _. simpl. unfold TabuSearch.move.
    pose proof (best_non_tabu_from_none (TabuSearch.tabu_list st) ncs) as Hsel.
    destruct (TabuSearch.best_non_tabu _ _ _ _) as [[chosen|] cost].
    + destruct Hsel as (Hin & _ & _). apply Hcosts in Hin.
      destruct chosen as [|r0 chosen]; simpl;
        (destruct (Float.ltb cost (TabuSearch.best_cost st));
         [by intros s [= <-]|done]).
    + destruct Hsel as [-> _]. simpl. by rewrite ltb_inf_r.
  - intros fuel g <- H. unfold GeneticAlgorithm.run in H.
    apply rand_bind_Ok_inv in H as ([pop st] & t1 & _ & H).
    apply rand_bind_Ok_inv in H as (ff & t2 & Hff & H).
    apply lift_Ok_inv in Hff as [Hff _].
    apply rand_bind_Ok_inv in H as (best & t3 & Hbest & H).
    apply lift_Ok_inv in Hbest as [Hbest _].
    apply rand_bind_Ok_inv in H as (lo & t4 & Hlo & H).
    apply lift_Ok_inv in Hlo as [Hlo _].
    apply rand_bind_Ok_inv in H as (hi & t5 & _ & H).
    injection H as <- _. simpl in *. injection Hs as <-.
    destruct pop as [|x rest]; [discriminate|]. simpl in Hff, Hbest.
    apply bind_Ok_inv in Hff as (k & Hk & Hff).
    apply bind_Ok_inv in Hff as (ks & Hks & Hff). injection Hff as <-.
    rewrite Hk in Hbest. simpl in Hbest, Hlo. injection Hlo as <-.
    by eapply min_by_from_min_from.
Qed.

Lemma best_distance_is_cost_of_best_solution_witness :
  exists r t' s,
    SimulatedAnnealing.run plain_numlib scenario_model (Float.of_Z 1000)
      (decimal 95 100) 3 [] = Ok (r, t') /\
    best_solution r = Some s /\
    _calculate_cost scenario_model s = Ok (best_distance r).
Proof.
  destruct (SimulatedAnnealing.run plain_numlib scenario_model
              (Float.of_Z 1000) (decimal 95 100) 3 [])
    as [[r t']| |] eqn:Hrun; [|vm_compute in Hrun; discriminate..].
  destruct (best_solution r) as [s|] eqn:Hs;
    [|vm_compute in Hrun; injection Hrun as <- _; discriminate].
  exists r, t', s. split; [reflexivity|]. split; [exact Hs|].
  exact (proj1 (best_distance_is_cost_of_best_solution plain_numlib
                  scenario_model [] r t' s Hs) _ _ _ Hrun).
Defined.

(** ** Tabu search: the length of the tabu list *)

Lemma move_tabu_list_length (tabu_size : Z) (st : TabuSearch.state)
    (neighbor_costs : list (solution * float)) :
  (length (TabuSearch.tabu_list st) <= Z.to_nat tabu_size)%nat ->
  (length (TabuSearch.tabu_list (TabuSearch.move tabu_size st neighbor_costs))
   <= Z.to_nat tabu_size)%nat.
Proof.
  intros Hst. unfold TabuSearch.move.
  destruct (TabuSearch.best_non_tabu _ _ _ _) as [[[|r chosen]|] cost];
    simpl; try done.
  destruct (Z.ltb_spec tabu_size
              (Z.of_nat (length (TabuSearch.tabu_list st
                                   ++ [Py.str_lists (r :: chosen)]))))
    as [Hlt|Hge].
  - rewrite length_drop, length_app. simpl. lia.
  - lia.
Qed.

(** X11: the tabu list never holds more than [tabu_size] signatures: if it
    does not before the iterations of [run] it does not after any number of
    them, and [run] starts from the empty list.  With a [tabu_size] of zero
    or less the list is always empty, so that no neighbour is ever tabu. *)
Theorem tabu_list_never_exceeds_size (c : CVRP) (tabu_size size : Z)
    (n : nat) (st : TabuSearch.state) (t : tape) (st' : TabuSearch.state)
    (t' : tape) :
  (length (TabuSearch.tabu_list st) <= Z.to_nat tabu_size)%nat ->
  repeat_loop n (TabuSearch.iteration c tabu_size size) st t = Ok (st', t') ->
  (length (TabuSearch.tabu_list st') <= Z.to_nat tabu_size)%nat.
Proof.
  intros Hst Hloop.
  eapply (repeat_loop_invariant
            (fun st => (length (TabuSearch.tabu_list st)
                        <= Z.to_nat tabu_size)%nat));
    [exact Hst| |exact Hloop].
  clear. intros st t st' t' Hst H. unfold TabuSearch.iteration in H.
  apply rand_bind_Ok_inv in H as (ns & t1 & _ & H).
  apply rand_bind_Ok_inv in H as (ncs & t2 & _ & H).
  apply rand_bind_Ok_inv in H as (stats' & t3 & _ & H).
  injection H as <- _. simpl. by apply move_tabu_list_length.
Qed.

Lemma tabu_list_never_exceeds_size_witness :
  exists st' t',
    repeat_loop 3 (TabuSearch.iteration scenario_model 1 2) scenario_start []
    = Ok (st', t') /\
    (length (TabuSearch.tabu_list st') <= 1)%nat.
Proof.
  destruct (repeat_loop 3 (TabuSearch.iteration scenario_model 1 2)
              scenario_start [])
    as [[st' t']| |] eqn:Hrun; [|vm_compute in Hrun; discriminate..].
  exists st', t'. split; [reflexivity|].
  apply (tabu_list_never_exceeds_size scenario_model 1 2 3 scenario_start []
           st' t'); [simpl; lia|exact Hrun].
Defined.

(** ** Annealing at temperature zero *)



(** ** The genetic strategy: what crossover returns *)

Lemma filter_nonzero_id (l : list Z) :
  Forall (fun x => x <> 0) l -> filter (fun node => node ≠ 0) l = l.
Proof.
  induction 1 as [|x l Hx _ IH]; [done|].
  rewrite filter_cons_True by done. by rewrite IH.
Qed.

Lemma flatten_nonzero_cons (r : list Z) (s : solution) :
  flatten_nonzero (r :: s) = filter (fun node => node ≠ 0) r ++ flatten_nonzero s.
Proof. unfold flatten_nonzero. simpl. apply filter_app. Qed.

Lemma filter_nonzero_single : filter (fun node : Z => node ≠ 0) [0] = [].
Proof. by rewrite filter_cons_False by (intros H; by apply H). Qed.

Lemma filter_nonzero_anchored (seg : list Z) :
  filter (fun node : Z => node ≠ 0) (0 :: seg ++ [0])
  = filter (fun node : Z => node ≠ 0) seg.
Proof.
  rewrite filter_cons_False by (intros H; by apply H).
  by rewrite filter_app, filter_nonzero_single, app_nil_r.
Qed.

Lemma filter_nonzero_route (r : list Z) :
  Py.index r 0 = Ok 0 -> Py.index r (-1) = Ok 0 ->
  filter (fun node : Z => node ≠ 0) r
  = filter (fun node : Z => node ≠ 0) (Py.interior r).
Proof.
  intros Ha Hb. destruct r as [|a r]; [discriminate|].
  destruct (route_ends (a :: r)) as (x & y & Hx & Hy & Hr); [done|].
  rewrite Ha in Hx. rewrite Hb in Hy. injection Hx as <-. injection Hy as <-.
  destruct Hr as [Hr|Hr].
  - injection Hr as -> ->. by rewrite filter_nonzero_single.
  - rewrite Hr at 1. apply filter_nonzero_anchored.
Qed.


Lemma flatten_nonzero_valid (c : CVRP) (s : solution) :
  valid c s -> flatten_nonzero s = flatten_interiors s.
Proof.
  intros H. apply valid_iff in H as (_ & Hperm & _ & Hends).
  assert (Hnz : Forall (fun x => x <> 0) (flatten_interiors s)).
  { apply Forall_forall. intros x Hx. rewrite Hperm in Hx.
    apply customers_of_spec in Hx. lia. }
  clear Hperm. induction Hends as [|r rest [Ha Hb] _ IH]; [done|].
  rewrite flatten_nonzero_cons.
  change (flatten_interiors (r :: rest))
    with (Py.interior r ++ flatten_interiors rest) in *.
  apply Forall_app in Hnz as [Hr Hrest]. rewrite (IH Hrest). f_equal.
  rewrite filter_nonzero_route by done. by apply filter_nonzero_id.
Qed.

Lemma valid_length (c : CVRP) (s : solution) :
  valid c s -> length (flatten_interiors s) = length (customers_of c).
Proof.
  intros H. apply valid_iff in H as (_ & Hperm & _). by rewrite Hperm.
Qed.






(** ** The greedy strategy: when the construction loop ends *)

Lemma greedy_loop_oversized (c : CVRP) (x d : Z) (fuel : nat) :
  Py.index (demands c) x = Ok d -> vehicle_capacity c < d ->
  Forall (fun d => 0 <= d) (demands c) ->
  forall routes cur load customers r,
    x ∈ customers -> 0 <= load ->
    GreedyAlgorithm.greedy_loop fuel c routes cur load customers <> Ok r.
Proof.
  intros Hd Hover Hnonneg.
  induction fuel as [|fuel IH]; intros routes cur load customers r Hx Hload H;
    destruct customers as [|y rest]; try (by apply elem_of_nil in Hx);
    [discriminate|].
  cbn [GreedyAlgorithm.greedy_loop] in H.
  apply bind_Ok_inv in H as (last_city & _ & H).
  apply bind_Ok_inv in H as (cands & Hcands & H).
  apply candidates_of_spec in Hcands as [Hsound _].
  destruct cands as [|z cands].
  - by apply IH in H.
  - apply bind_Ok_inv in H as (next_city & Hmin & H).
    apply min_by_spec in Hmin as [Hin _].
    destruct (Hsound next_city Hin) as (Hnext & dn & Hdn & Hle).
    apply bind_Ok_inv in H as (dn' & Hdn' & H).
    rewrite Hdn in Hdn'. injection Hdn' as <-.
    apply bind_Ok_inv in H as (customers' & Hrem & H).
    apply remove_Permutation in Hrem.
    apply IH in H; [done| |].
    + assert (Hne : x <> next_city).
      { intros ->. rewrite Hd in Hdn. injection Hdn as <-. lia. }
      rewrite Hrem in Hx. apply elem_of_cons in Hx as [Hx|Hx]; done.
    + apply index_Ok_elem in Hdn.
      eapply (proj1 (Forall_forall _ _)) in Hnonneg; [|exact Hdn]. lia.
Qed.

(** X14: when some customer's demand exceeds the vehicle capacity (and no
    demand is negative) the greedy construction never returns: the customer is
    never a candidate, so the [while customers:] loop closes empty routes for
    ever.  Whatever the number of turns allowed, [_greedy_solution] yields no
    solution and [run], asked for at least one restart, no result. *)
Theorem greedy_never_returns_with_oversized_demand (c : CVRP) (x d : Z) :
  x ∈ customers_of c ->
  Py.index (demands c) x = Ok d -> vehicle_capacity c < d ->
  Forall (fun d => 0 <= d) (demands c) ->
  (forall fuel t s t',
     GreedyAlgorithm._greedy_solution fuel c t <> Ok (s, t')) /\
  (forall lib fuel n t r t',
     1 <= n -> GreedyAlgorithm.run lib fuel c n t <> Ok (r, t')).
Proof.
  intros Hx Hd Hover Hnonneg.
  assert (Hsol : forall fuel t s t',
             GreedyAlgorithm._greedy_solution fuel c t <> Ok (s, t')).
  { intros fuel t s t' H. unfold GreedyAlgorithm._greedy_solution in H.
    apply rand_bind_Ok_inv in H as (p & t1 & Hp & H).
    apply shuffle_Permutation in Hp. apply lift_Ok_inv in H as [H _].
    apply bind_Ok_inv in H as (r & Hloop & _). revert Hloop.
    eapply greedy_loop_oversized; try done. by rewrite Hp. }
  split; [done|].
  intros lib fuel n t r t' Hn H. unfold GreedyAlgorithm.run in H.
  apply rand_bind_Ok_inv in H as (st & t1 & Hloop & _).
  destruct (Z.to_nat n) as [|k] eqn:E; [lia|]. simpl in Hloop.
  apply rand_bind_Ok_inv in Hloop as (st1 & t2 & Hit & _).
  unfold GreedyAlgorithm.iteration in Hit.
  apply rand_bind_Ok_inv in Hit as (s & t3 & Hs & _). by eapply Hsol.
Qed.

Lemma greedy_never_returns_with_oversized_demand_witness :
  GreedyAlgorithm._greedy_solution 20 overweight_model [] = OutOfFuel.
Proof.
  destruct (GreedyAlgorithm._greedy_solution 20 overweight_model [])
    as [[s t']| |] eqn:Hrun; [|vm_compute in Hrun; discriminate|reflexivity].
  exfalso. revert Hrun.
  apply (greedy_never_returns_with_oversized_demand overweight_model 1 5).
  - vm_compute. apply list_elem_of_here.
  - vm_compute. reflexivity.
  - vm_compute. reflexivity.
  - repeat (apply Forall_cons; split; [vm_compute; discriminate|]).
    apply Forall_nil_2.
Defined.

Lemma candidates_of_returns (c : CVRP) (load : Z) (customers : list Z) :
  Forall (fun x => is_Ok (Py.index (demands c) x)) customers ->
  is_Ok (GreedyAlgorithm.candidates_of c load customers).
Proof.
  induction 1 as [|x rest [d Hd] _ [others IH]]; simpl; [by eexists|].
  rewrite Hd, IH. simpl. by eexists.
Qed.

Lemma min_by_from_returns {A} (key : A -> outcome float) (l : list A) :
  Forall (fun x => is_Ok (key x)) l ->
  forall best bk, is_Ok (Builtin.min_by_from key best bk l).
Proof.
  induction 1 as [|x rest [k Hk] _ IH]; intros best bk; simpl; [by eexists|].
  rewrite Hk. simpl. destruct (Float.ltb k bk); apply IH.
Qed.

Lemma min_by_returns {A} (key : A -> outcome float) (l : list A) :
  l <> [] -> Forall (fun x => is_Ok (key x)) l ->
  is_Ok (Builtin.min_by key l).
Proof.
  intros Hne Hall. destruct l as [|x rest]; [done|].
  apply Forall_cons in Hall as [[k Hk] Hall]. simpl. rewrite Hk. simpl.
  by apply min_by_from_returns.
Qed.

Lemma remove_returns (x : Z) (l : list Z) :
  x ∈ l -> is_Ok (Builtin.remove x l).
Proof.
  induction l as [|y rest IH]; intros Hx; [by apply elem_of_nil in Hx|].
  simpl. destruct (Z.eqb_spec x y) as [->|Hne]; [by eexists|].
  apply elem_of_cons in Hx as [Hx|Hx]; [done|].
  destruct (IH Hx) as [rest' ->]. by eexists.
Qed.

Lemma index_last_elem (l : list Z) :
  l <> [] -> exists x, Py.index l (-1) = Ok x /\ x ∈ l.
Proof.
  intros Hne. destruct (route_ends l Hne) as (a & b & _ & Hb & _).
  exists b. split; [done|]. by eapply index_Ok_elem.
Qed.

(** The turns the loop needs at most: two per customer left, and one more
    when the current route is loaded. *)
Lemma greedy_loop_returns (c : CVRP) (n : nat) (fuel : nat) :
  square n (distance_matrix c) -> length (demands c) = n ->
  (forall x d, 0 < x < Z.of_nat n -> Py.index (demands c) x = Ok d ->
               d <= vehicle_capacity c) ->
  forall routes cur (load : Z) customers,
    cur <> [] -> Forall (fun x => 0 <= x < Z.of_nat n) cur ->
    Forall (fun x => 0 < x < Z.of_nat n) customers ->
    (2 * length customers + (if (load =? 0)%Z then 0 else 1) <= fuel)%nat ->
    is_Ok (GreedyAlgorithm.greedy_loop fuel c routes cur load customers).
Proof.
  intros Hsq Hdem Hfit.
  induction fuel as [|fuel IH]; intros routes cur load customers Hne Hcur Hcus
    Hfuel; destruct customers as [|x rest]; try (by eexists);
    [simpl in Hfuel; lia|].
  cbn [GreedyAlgorithm.greedy_loop].
  destruct (index_last_elem cur Hne) as (last_city & -> & Hlast).
  rewrite bind_Ok.
  assert (Hread : Forall (fun x => is_Ok (Py.index (demands c) x)) (x :: rest)).
  { eapply Forall_impl; [exact Hcus|]. intros y Hy. cbv beta in Hy.
    apply index_in_range. rewrite Hdem. lia. }
  destruct (candidates_of_returns c load _ Hread) as [cands Hcands].
  rewrite Hcands, bind_Ok.
  apply candidates_of_spec in Hcands as [Hsound Hcomplete].
  pose proof Hcus as Hx. apply Forall_cons in Hx as [Hx _].
  destruct cands as [|z cands].
  - apply IH; [done|apply Forall_singleton; lia|done|].
    destruct (Z.eqb_spec load 0) as [->|Hload]; [|simpl in *; lia].
    exfalso. destruct (Hcomplete x) as (d & Hd & Hin); [left|].
    specialize (Hfit x d Hx Hd).
    assert (Hnil : x ∈ @nil Z) by (apply Hin; lia).
    by apply elem_of_nil in Hnil.
  - assert (Hkeys : Forall (fun y => is_Ok (row ← Py.index (distance_matrix c)
                                                     last_city;
                                            Py.index row y)) (z :: cands)).
    { apply Forall_forall. intros y Hy.
      destruct (Hsound y Hy) as [Hy' _].
      eapply (proj1 (Forall_forall _ _)) in Hcus; [|exact Hy'].
      eapply (proj1 (Forall_forall _ _)) in Hcur; [|exact Hlast].
      apply (proj1 (entry_outcome n (distance_matrix c) last_city y Hsq)).
      unfold in_index_range. lia. }
    destruct (min_by_returns _ (z :: cands) ltac:(done) Hkeys)
      as [next_city Hmin].
    rewrite Hmin, bind_Ok. apply min_by_spec in Hmin as [Hin _].
    destruct (Hsound next_city Hin) as (Hnext & d & Hd & _).
    rewrite Hd, bind_Ok.
    destruct (remove_returns next_city (x :: rest) Hnext) as [customers' Hrem].
    rewrite Hrem, bind_Ok. apply remove_Permutation in Hrem.
    pose proof (Permutation_length Hrem) as Hlen.
    apply IH.
    + by destruct cur.
    + apply Forall_app. split; [done|]. apply Forall_singleton.
      eapply (proj1 (Forall_forall _ _)) in Hcus; [|exact Hnext]. lia.
    + rewrite Hrem in Hcus. by apply Forall_cons in Hcus as [_ Hcus].
    + simpl in Hlen, Hfuel. destruct (load + d =? 0); lia.
Qed.

(** ** Runs that return *)

Lemma rand_bind_Ok {A B} (m : rand A) (k : A -> rand B) t a t1 :
  m t = Ok (a, t1) -> (x ← m; k x) t = k a t1.
Proof. intros H. unfold mbind, rand_bind. by rewrite H. Qed.

Lemma lift_Ok {A} (m : outcome A) (a : A) (t : tape) :
  m = Ok a -> lift m t = Ok (a, t).
Proof. by intros ->. Qed.

Lemma repeat_loop_returns {S} (P : S -> Prop) (body : S -> rand S) (n : nat) :
  (forall s t, P s -> exists s' t', body s t = Ok (s', t') /\ P s') ->
  forall s t, P s -> exists s' t', repeat_loop n body s t = Ok (s', t') /\ P s'.
Proof.
  intros Hbody. induction n as [|n IH]; intros s t Hs; simpl.
  - by exists s, t.
  - destruct (Hbody s t Hs) as (s1 & t1 & H1 & Hs1).
    rewrite (rand_bind_Ok _ _ _ _ _ H1). by apply IH.
Qed.

Lemma min_returns (l : list float) : l <> [] -> is_Ok (Builtin.min l).
Proof. destruct l; [done|]. by eexists. Qed.

Lemma max_returns (l : list float) : l <> [] -> is_Ok (Builtin.max l).
Proof. destruct l; [done|]. by eexists. Qed.

Lemma snoc_not_nil {A} (l : list A) (x : A) : l ++ [x] <> [].
Proof. by destruct l. Qed.

Lemma map_outcome_returns {A B} (f : A -> outcome B) (l : list A) :
  Forall (fun x => is_Ok (f x)) l -> is_Ok (Py.map_outcome f l).
Proof.
  induction 1 as [|x rest [y Hy] _ [ys IH]]; simpl; [by eexists|].
  rewrite Hy, IH. by eexists.
Qed.

Lemma sample_pair_returns (n : nat) (t : tape) :
  (2 <= n)%nat -> exists i j t', Random.sample_pair n t = Ok (i, j, t').
Proof.
  intros Hn. unfold Random.sample_pair, Random.sample.
  rewrite length_seq.
  destruct (Z.ltb_spec (Z.of_nat n) 2); [lia|]. simpl.
  destruct (pick_total 2 (seq 0 n) t) as (res & t1 & Hres);
    [rewrite length_seq; lia|].
  change (Z.to_nat 2) with 2%nat.
  rewrite (rand_bind_Ok _ _ _ _ _ Hres).
  apply pick_Permutation in Hres as [Hlen _]; [|rewrite length_seq; lia].
  destruct res as [|i [|j [|? ?]]]; try discriminate. by exists i, j, t1.
Qed.

Lemma constructed_well_formed (depot : point) (locs : list point)
    (dems : list Z) (cap : Z) (c : CVRP) :
  CVRP_init depot locs dems cap = Ok c -> length dems = length locs ->
  well_formed c.
Proof.
  intros Hc Hlen. pose proof (constructed_matrix _ _ _ _ _ Hc) as [Hsq _].
  apply CVRP_init_inv in Hc as (Hloc & Hdem & _).
  split; [by rewrite Hloc|]. split; [done|].
  rewrite Hloc, Hdem. simpl. by rewrite Hlen.
Qed.

Lemma ordering_readable (c : CVRP) (p : list Z) :
  well_formed c -> p ≡ₚ customers_of c ->
  Forall (fun x => is_Ok (Py.index (demands c) x)) p.
Proof.
  intros (_ & _ & Hdem) Hp. apply Forall_forall. intros x Hx.
  rewrite Hp in Hx. apply customers_of_spec in Hx.
  apply index_in_range. rewrite Hdem. lia.
Qed.

Lemma ordering_nodes (c : CVRP) (s : solution) :
  well_formed c -> split_of_ordering c s ->
  Forall (Forall (in_index_range (length (locations c)))) s.
Proof.
  intros (Hne & _ & _) (p & Hp & Hsplit).
  pose proof (split_anchored c p s Hsplit) as Hanch.
  pose proof (split_flatten c p s Hsplit) as Hflat.
  assert (Hseg : Forall (fun x => 0 < x < Z.of_nat (length (locations c)))
                   (flatten_interiors s)).
  { rewrite Hflat. apply Forall_forall. intros x Hx. rewrite Hp in Hx.
    apply customers_of_spec in Hx. lia. }
  assert (H0 : in_index_range (length (locations c)) 0).
  { unfold in_index_range. destruct (locations c); [done|]. simpl. lia. }
  clear Hflat Hsplit Hp. induction Hanch as [|r rest [seg ->] _ IH]; [done|].
  change (flatten_interiors ((0 :: seg ++ [0]) :: rest))
    with (Py.interior (0 :: seg ++ [0]) ++ flatten_interiors rest) in Hseg.
  rewrite interior_anchored in Hseg. apply Forall_app in Hseg as [Hs Hrest].
  apply Forall_cons. split; [|by apply IH].
  apply Forall_cons. split; [done|]. apply Forall_app. split.
  - eapply Forall_impl; [exact Hs|]. intros x Hx. unfold in_index_range.
    cbv beta in Hx. lia.
  - by apply Forall_singleton.
Qed.

Lemma sum_route_distances_returns (c : CVRP) (n : nat) (s : solution) :
  square n (distance_matrix c) -> Forall (Forall (in_index_range n)) s ->
  forall acc, is_Ok (sum_route_distances c acc s).
Proof.
  intros Hsq. induction 1 as [|r rest Hr _ IH]; intros acc; simpl;
    [by eexists|].
  destruct (route_distance_from_returns n _ r Hsq Hr Float.zero) as [d Hd].
  unfold calculate_route_distance. rewrite Hd. apply IH.
Qed.

Lemma ordering_cost_returns (c : CVRP) (s : solution) :
  well_formed c -> split_of_ordering c s -> is_Ok (_calculate_cost c s).
Proof.
  intros Hc Hs. pose proof (ordering_nodes c s Hc Hs) as Hnodes.
  destruct Hc as (_ & Hsq & _).
  by eapply sum_route_distances_returns.
Qed.

Lemma random_solution_returns (c : CVRP) (t : tape) :
  well_formed c ->
  exists s t', _random_solution c t = Ok (s, t') /\ split_of_ordering c s.
Proof.
  intros Hc. unfold _random_solution.
  destruct (shuffle_total (customers_of c) t) as (p & t1 & Hp).
  rewrite (rand_bind_Ok _ _ _ _ _ Hp).
  apply shuffle_Permutation in Hp.
  destruct (split_total c p) as [s Hs]; [by apply ordering_readable|].
  exists s, t1. split; [by apply lift_Ok|]. by exists p.
Qed.

Lemma random_iteration_returns (lib : numlib) (c : CVRP)
    (st : RandomAlgorithm.state) (t : tape) :
  well_formed c ->
  exists st' t', RandomAlgorithm.iteration lib c st t = Ok (st', t').
Proof.
  intros Hc. unfold RandomAlgorithm.iteration.
  destruct (random_solution_returns c t Hc) as (s & t1 & Hs & Hsplit).
  rewrite (rand_bind_Ok _ _ _ _ _ Hs).
  destruct (ordering_cost_returns c s Hc Hsplit) as [cost Hcost].
  rewrite (rand_bind_Ok _ _ _ _ _ (lift_Ok _ _ _ Hcost)).
  unfold RandomAlgorithm._update_stats.
  destruct (min_returns (RandomAlgorithm.costs st ++ [cost]))
    as [lo ->]; [apply snoc_not_nil|].
  destruct (max_returns (RandomAlgorithm.costs st ++ [cost]))
    as [hi ->]; [apply snoc_not_nil|].
  by eexists _, _.
Qed.

Lemma swap_neighbor_returns (c : CVRP) (s : solution) (t : tape) :
  well_formed c -> split_of_ordering c s ->
  exists n t', swap_neighbor c s t = Ok (n, t').
Proof.
  intros Hc (p & Hp & Hsplit). unfold swap_neighbor.
  rewrite (split_flatten c p s Hsplit).
  destruct (Nat.ltb_spec (length p) 2); [by eexists _, _|].
  destruct (sample_pair_returns (length p) t) as (i & j & t1 & Hij); [done|].
  rewrite (rand_bind_Ok _ _ _ _ _ Hij).
  destruct (split_total c (Py.swap p i j)) as [s' Hs'].
  { apply ordering_readable; [done|]. by rewrite swap_Permutation. }
  rewrite (rand_bind_Ok _ _ _ _ _ (lift_Ok _ _ _ Hs')). by eexists _, _.
Qed.

Lemma generate_neighbors_returns (c : CVRP) (size : Z) (s : solution)
    (t : tape) :
  well_formed c -> split_of_ordering c s ->
  exists ns t', TabuSearch._generate_neighbors c size s t = Ok (ns, t').
Proof.
  intros Hc Hs. unfold TabuSearch._generate_neighbors.
  match goal with
  | |- context [repeat_loop ?n ?body ?init] =>
      destruct (repeat_loop_returns (fun _ => True) body n) with (s := init)
                                                                (t := t)
        as (ns & t1 & Hloop & _); [|done|]
  end.
  - intros ns t0 _.
    destruct (swap_neighbor_returns c s t0 Hc Hs) as (n & t1 & Hn).
    rewrite (rand_bind_Ok _ _ _ _ _ Hn). by eexists _, _.
  - rewrite (rand_bind_Ok _ _ _ _ _ Hloop). by eexists _, _.
Qed.

Lemma trajectory_update_stats_returns (st : stats) (best current : float) :
  is_Ok (trajectory_update_stats st best current).
Proof.
  unfold trajectory_update_stats.
  destruct (max_returns ((stats_best st ++ [best]) ++ [current])) as [w ->];
    [apply snoc_not_nil|].
  by eexists.
Qed.

Lemma tabu_iteration_returns (c : CVRP) (tabu_size size : Z)
    (st : TabuSearch.state) (t : tape) :
  well_formed c ->
  split_of_ordering c (TabuSearch.current_solution st) ->
  exists st' t', TabuSearch.iteration c tabu_size size st t = Ok (st', t').
Proof.
  intros Hc Hcur. unfold TabuSearch.iteration.
  destruct (generate_neighbors_returns c size _ t Hc Hcur)
    as (ns & t1 & Hns).
  rewrite (rand_bind_Ok _ _ _ _ _ Hns).
  apply generate_neighbors_split in Hns; [|done].
  destruct (map_outcome_returns
              (fun neighbor => cost ← _calculate_cost c neighbor;
                               Ok (neighbor, cost)) ns) as [ncs Hncs].
  { eapply Forall_impl; [exact Hns|]. intros n Hn.
    destruct (ordering_cost_returns c n Hc Hn) as [k ->]. by eexists. }
  unfold TabuSearch.evaluate.
  rewrite (rand_bind_Ok _ _ _ _ _ (lift_Ok _ _ _ Hncs)).
  destruct (trajectory_update_stats_returns
              (TabuSearch.run_stats (TabuSearch.move tabu_size st ncs))
              (TabuSearch.best_cost (TabuSearch.move tabu_size st ncs))
              (TabuSearch.current_cost (TabuSearch.move tabu_size st ncs)))
    as [stats' Hstats].
  rewrite (rand_bind_Ok _ _ _ _ _ (lift_Ok _ _ _ Hstats)). by eexists _, _.
Qed.

(** X15: on a model the constructor built from as many demands as customers,
    random sampling and tabu search never raise: asked for at least one
    iteration, [run] returns a result, whatever the random draws, the
    [tabu_size] and the neighbourhood size. *)
Theorem random_and_tabu_runs_return (depot : point) (locs : list point)
    (dems : list Z) (cap : Z) (c : CVRP) (lib : numlib) (n : Z) (t : tape) :
  CVRP_init depot locs dems cap = Ok c -> length dems = length locs ->
  1 <= n ->
  (exists r t', RandomAlgorithm.run lib c n t = Ok (r, t')) /\
  (forall tabu_size size,
     exists r t', TabuSearch.run lib c n tabu_size size t = Ok (r, t')).
Proof.
  intros Hinit Hlen Hn.
  pose proof (constructed_well_formed _ _ _ _ _ Hinit Hlen) as Hc. split.
  - unfold RandomAlgorithm.run.
    match goal with
    | |- context [repeat_loop ?k ?body ?init] =>
        destruct (repeat_loop_returns (fun _ => True) body k) with (s := init)
                                                                  (t := t)
          as (st & t1 & Hloop & _); [|done|]
    end.
    { intros st t0 _.
      destruct (random_iteration_returns lib c st t0 Hc) as (st' & t1 & H).
      by exists st', t1. }
    rewrite (rand_bind_Ok _ _ _ _ _ Hloop).
    apply (repeat_loop_count
             (fun k st => length (RandomAlgorithm.costs st) = k) _ _ 0%nat)
      in Hloop; [|done|].
    + unfold RandomAlgorithm._prepare_results.
      destruct (RandomAlgorithm.costs st) as [|x costs];
        [simpl in Hloop; lia|].
      by eexists _, _.
    + clear. intros k st t st' t' Hst H.
      unfold RandomAlgorithm.iteration in H.
      apply rand_bind_Ok_inv in H as (s1 & t1 & _ & H).
      apply rand_bind_Ok_inv in H as (cost & t2 & _ & H).
      apply rand_bind_Ok_inv in H as (stats' & t3 & _ & H).
      injection H as <- _. simpl. rewrite length_app. simpl. lia.
  - intros tabu_size size. unfold TabuSearch.run.
    destruct (random_solution_returns c t Hc) as (s0 & t1 & Hs0 & Hsplit).
    rewrite (rand_bind_Ok _ _ _ _ _ Hs0).
    destruct (ordering_cost_returns c s0 Hc Hsplit) as [c0 Hc0].
    rewrite (rand_bind_Ok _ _ _ _ _ (lift_Ok _ _ _ Hc0)).
    match goal with
    | |- context [repeat_loop ?k ?body ?init] =>
        destruct (repeat_loop_returns
                    (fun st =>
                       split_of_ordering c (TabuSearch.current_solution st) /\
                       (forall s, TabuSearch.best_solution st = Some s ->
                                  split_of_ordering c s))
                    body k) with (s := init) (t := t1)
          as (st & t2 & Hloop & _)
    end.
    { intros st t0 [Hcur Hbest].
      destruct (tabu_iteration_returns c tabu_size size st t0 Hc Hcur)
        as (st' & t2 & H).
      exists st', t2. split; [done|].
      by eapply tabu_iteration_invariant. }
    { split; [done|]. by intros s [= <-]. }
    rewrite (rand_bind_Ok _ _ _ _ _ Hloop).
    apply (repeat_loop_count
             (fun k st => length (stats_worst (TabuSearch.run_stats st)) = k)
             _ _ 0%nat) in Hloop; [|done|].
    + unfold trajectory_prepare_results.
      destruct (stats_worst (TabuSearch.run_stats st)) as [|x ws];
        [simpl in Hloop; lia|].
      by eexists _, _.
    + clear. intros k st t st' t' Hst H. unfold TabuSearch.iteration in H.
      apply rand_bind_Ok_inv in H as (ns & t1 & _ & H).
      apply rand_bind_Ok_inv in H as (ncs & t2 & _ & H).
      apply rand_bind_Ok_inv in H as (stats' & t3 & Hstats & H).
      injection H as <- _. simpl. apply lift_Ok_inv in Hstats as [Hstats _].
      unfold trajectory_update_stats in Hstats.
      apply bind_Ok_inv in Hstats as (w & _ & Hstats).
      injection Hstats as <-. simpl. rewrite length_app. simpl.
      assert (E : TabuSearch.run_stats (TabuSearch.move tabu_size st ncs)
                  = TabuSearch.run_stats st).
      { unfold TabuSearch.move.
        by destruct (TabuSearch.best_non_tabu _ _ _ _) as [[[|? ?]|] ?]. }
      rewrite E. lia.
Qed.

Lemma random_and_tabu_runs_return_witness :
  exists r t', TabuSearch.run plain_numlib scenario_model 2 1 2 [5; 3]%N
               = Ok (r, t').
Proof.
  apply (random_and_tabu_runs_return _ _ _ _ scenario_model plain_numlib 2
           [5; 3]%N scenario_model_built); [reflexivity|lia].
Defined.

(** ** The greedy strategy returns *)

Lemma valid_nodes (c : CVRP) (s : solution) :
  valid c s -> Forall (Forall (in_index_range (length (locations c)))) s.
Proof.
  intros H. apply valid_iff in H as (Hne & Hperm & _ & Hends).
  assert (Hseg : Forall (fun x => 0 < x < Z.of_nat (length (locations c)))
                   (flatten_interiors s)).
  { apply Forall_forall. intros x Hx. rewrite Hperm in Hx.
    apply customers_of_spec in Hx. lia. }
  assert (H0 : in_index_range (length (locations c)) 0).
  { unfold in_index_range. destruct (locations c); [done|]. simpl. lia. }
  clear Hperm. induction Hends as [|r rest [Ha Hb] _ IH]; [done|].
  change (flatten_interiors (r :: rest))
    with (Py.interior r ++ flatten_interiors rest) in Hseg.
  apply Forall_app in Hseg as [Hr Hrest].
  apply Forall_cons. split; [|by apply IH].
  destruct r as [|a r]; [discriminate|].
  destruct (route_ends (a :: r)) as (x & y & Hx & Hy & Heq); [done|].
  rewrite Ha in Hx. rewrite Hb in Hy. injection Hx as <-. injection Hy as <-.
  destruct Heq as [Heq|Heq]; rewrite Heq.
  - by apply Forall_singleton.
  - apply Forall_cons. split; [done|]. apply Forall_app. split.
    + eapply Forall_impl; [exact Hr|]. intros z Hz. unfold in_index_range.
      cbv beta in Hz. lia.
    + by apply Forall_singleton.
Qed.

Lemma argmin_from_lt (l : list float) :
  forall best_idx best idx,
    (best_idx < idx)%nat ->
    (Builtin.argmin_from best_idx best idx l < idx + length l)%nat.
Proof.
  induction l as [|x rest IH]; intros bi b i Hlt; simpl; [lia|].
  destruct (Float.is_nan b); [lia|].
  destruct (_ || _).
  - specialize (IH i x (S i)). lia.
  - specialize (IH bi b (S i)). lia.
Qed.

Lemma argmin_lt (l : list float) (i : nat) :
  Builtin.argmin l = Ok i -> (i < length l)%nat.
Proof.
  destruct l as [|x rest]; [discriminate|]. simpl. intros [= <-].
  pose proof (argmin_from_lt rest 0 x 1). lia.
Qed.

Lemma greedy_solution_returns (depot : point) (locs : list point)
    (dems : list Z) (cap : Z) (c : CVRP) (fuel : nat) (t : tape) :
  CVRP_init depot locs dems cap = Ok c -> length dems = length locs ->
  Forall (fun d => d <= cap) dems ->
  (2 * length locs <= fuel)%nat ->
  exists s t', GreedyAlgorithm._greedy_solution fuel c t = Ok (s, t') /\
               valid c s.
Proof.
  intros Hinit Hlen Hdems Hfuel.
  assert (Hfeasible : feasible_model c) by by exists depot, locs, dems, cap.
  pose proof (constructed_well_formed _ _ _ _ _ Hinit Hlen)
    as (Hne & Hsq & Hdem).
  pose proof (feasible_model_inv c Hfeasible) as (_ & _ & Hfit).
  assert (Hlocs : length (locations c) = S (length locs)).
  { apply CVRP_init_inv in Hinit as (-> & _). done. }
  assert (Hsol : exists s t', GreedyAlgorithm._greedy_solution fuel c t
                              = Ok (s, t')).
  { unfold GreedyAlgorithm._greedy_solution.
    destruct (shuffle_total (customers_of c) t) as (p & t1 & Hp).
    rewrite (rand_bind_Ok _ _ _ _ _ Hp).
    apply shuffle_Permutation in Hp.
    destruct (greedy_loop_returns c (length (locations c)) fuel Hsq Hdem)
      with (routes := @nil (list Z)) (cur := [0]) (load := 0) (customers := p)
      as [[routes cur] Hloop].
    - intros x d Hx. apply Hfit. apply customers_of_spec. lia.
    - done.
    - apply Forall_singleton. lia.
    - apply Forall_forall. intros x Hx. rewrite Hp in Hx.
      apply customers_of_spec in Hx. lia.
    - pose proof (customers_of_length c Hne) as Hn.
      apply Permutation_length in Hp. simpl. lia.
    - rewrite Hloop. simpl. destruct (_ <? _)%nat; by eexists _, _. }
  destruct Hsol as (s & t' & Hs). exists s, t'. split; [done|].
  by eapply greedy_solution_valid.
Qed.

(** X16: on a model built from as many demands as customers, none above the
    capacity, the greedy construction ends: within two turns of its [while]
    loop per customer [_greedy_solution] returns a solution, which passes
    [validate_solution]; and [run], asked for at least one restart, returns a
    result whose best solution passes [validate_solution]. *)
Theorem greedy_terminates (depot : point) (locs : list point)
    (dems : list Z) (cap : Z) (c : CVRP) (fuel : nat) :
  CVRP_init depot locs dems cap = Ok c -> length dems = length locs ->
  Forall (fun d => d <= cap) dems ->
  (2 * length locs <= fuel)%nat ->
  (forall t, exists s t',
     GreedyAlgorithm._greedy_solution fuel c t = Ok (s, t') /\ valid c s) /\
  (forall lib n t, 1 <= n ->
     exists r t' s,
       GreedyAlgorithm.run lib fuel c n t = Ok (r, t') /\
       best_solution r = Some s /\ valid c s).
Proof.
  intros Hinit Hlen Hdems Hfuel.
  assert (Hsol : forall t, exists s t',
             GreedyAlgorithm._greedy_solution fuel c t = Ok (s, t') /\
             valid c s) by (intros t; by eapply greedy_solution_returns).
  split; [done|]. intros lib n t Hn.
  assert (Hfeasible : feasible_model c) by by exists depot, locs, dems, cap.
  pose proof (constructed_well_formed _ _ _ _ _ Hinit Hlen)
    as (Hne & Hsq & Hdem).
  assert (Hrun : exists r t', GreedyAlgorithm.run lib fuel c n t = Ok (r, t') /\
                              is_Some (best_solution r)).
  { unfold GreedyAlgorithm.run.
    match goal with
    | |- context [repeat_loop ?k ?body ?init] =>
        destruct (repeat_loop_returns (fun _ => True) body k) with (s := init)
                                                                  (t := t)
          as (st & t1 & Hloop & _); [|done|]
    end.
    { intros st t0 _. unfold GreedyAlgorithm.iteration.
      destruct (Hsol t0) as (s & t1 & Hs & Hvalid).
      rewrite (rand_bind_Ok _ _ _ _ _ Hs).
      assert (Hcost : is_Ok (GreedyAlgorithm._calculate_cost c s)).
      { unfold GreedyAlgorithm._calculate_cost. destruct s; [by eexists|].
        eapply sum_route_distances_returns; [exact Hsq|].
        by apply valid_nodes. }
      destruct Hcost as [cost Hcost].
      rewrite (rand_bind_Ok _ _ _ _ _ (lift_Ok _ _ _ Hcost)).
      unfold GreedyAlgorithm._update_stats.
      destruct (GreedyAlgorithm.costs st ++ [cost]) as [|x costs] eqn:E.
      { by destruct (GreedyAlgorithm.costs st). }
      by eexists _, _. }
    rewrite (rand_bind_Ok _ _ _ _ _ Hloop).
    apply (repeat_loop_count
             (fun k st => length (GreedyAlgorithm.costs st) = k /\
                          length (GreedyAlgorithm.solutions st) = k)
             _ _ 0%nat) in Hloop; [|done|].
    - destruct Hloop as [Hcosts Hsols].
      destruct (GreedyAlgorithm.costs st) as [|x costs] eqn:E;
        [simpl in Hcosts; lia|].
      destruct (Builtin.argmin (x :: costs)) as [idx| |] eqn:Hidx;
        try discriminate.
      rewrite (rand_bind_Ok _ _ _ _ _ (lift_Ok _ _ _ eq_refl)).
      apply argmin_lt in Hidx. rewrite index_nonneg.
      destruct (lookup_lt_is_Some_2 (GreedyAlgorithm.solutions st) idx)
        as [best Hbest]; [lia|].
      rewrite Hbest.
      rewrite (rand_bind_Ok _ _ _ _ _ (lift_Ok _ _ _ eq_refl)).
      unfold GreedyAlgorithm._prepare_results. by eexists _, _.
    - clear. intros k st t st' t' [Hc Hs] H.
      unfold GreedyAlgorithm.iteration in H.
      apply rand_bind_Ok_inv in H as (s1 & t1 & _ & H).
      apply rand_bind_Ok_inv in H as (cost & t2 & _ & H).
      apply rand_bind_Ok_inv in H as (stats' & t3 & _ & H).
      injection H as <- _. simpl. rewrite !length_app. simpl. lia. }
  destruct Hrun as (r & t' & Hrun & [s Hs]). exists r, t', s.
  split; [done|]. split; [done|]. by eapply greedy_run_valid.
Qed.

Lemma greedy_terminates_witness :
  exists r t' s,
    GreedyAlgorithm.run plain_numlib 8 scenario_model 2 [7; 1]%N = Ok (r, t') /\
    best_solution r = Some s /\ valid scenario_model s.
Proof.
  apply (greedy_terminates _ _ _ _ scenario_model 8 scenario_model_built);
    [reflexivity| |simpl; lia|lia].
  repeat (apply Forall_cons; split; [lia|]). apply Forall_nil_2.
Defined.

(** ** The genetic strategy: population size and elites *)

Lemma adjacent_tail {A} (R : A -> A -> Prop) (a : A) (l : list A) :
  adjacent R (a :: l) -> adjacent R l.
Proof. intros H k x y Hx Hy. by apply (H (S k)). Qed.

Lemma adjacent_cons {A} (R : A -> A -> Prop) (a : A) (l : list A) :
  (forall b, head l = Some b -> R a b) -> adjacent R l ->
  adjacent R (a :: l).
Proof.
  intros Ha Hl [|k] x y Hx Hy; simpl in Hx, Hy.
  - injection Hx as <-. apply Ha. by rewrite head_lookup.
  - by eapply Hl.
Qed.

Lemma adjacent_head {A} (R : A -> A -> Prop) (a b : A) (l : list A) :
  adjacent R (a :: b :: l) -> R a b.
Proof. intros H. by apply (H 0%nat). Qed.

Lemma ltb_asym (x y : float) :
  Float.ltb x y = true -> Float.ltb y x = false.
Proof.
  intros Hxy. destruct (Float.ltb y x) eqn:Hyx; [|done].
  pose proof (ltb_trans _ _ _ Hxy Hyx) as H. by rewrite ltb_irrefl in H.
Qed.

Lemma insert_sorted_head {A} (x : A * float) (l : list (A * float)) :
  head (Builtin.insert_sorted x l) = Some x \/
  (exists y, head (Builtin.insert_sorted x l) = Some y /\ head l = Some y /\
             Float.ltb y.2 x.2 = true).
Proof.
  destruct l as [|y rest]; simpl; [by left|].
  destruct (Float.ltb (snd y) (snd x)) eqn:E; [|by left].
  right. by exists y.
Qed.

Lemma insert_sorted_ranked {A} (x : A * float) (l : list (A * float)) :
  ranked l -> ranked (Builtin.insert_sorted x l).
Proof.
  unfold ranked. induction l as [|y rest IH]; intros Hl; simpl.
  - intros k a b Ha Hb. destruct k; discriminate.
  - destruct (Float.ltb (snd y) (snd x)) eqn:E.
    + apply adjacent_cons; [|apply IH; by eapply adjacent_tail].
      intros b Hb.
      destruct (insert_sorted_head x rest) as [H|(z & H & Hz & _)];
        rewrite H in Hb; injection Hb as <-.
      * by apply ltb_asym.
      * destruct rest as [|z' rest]; [discriminate|]. injection Hz as ->.
        by apply adjacent_head in Hl.
    + apply adjacent_cons; [|done]. intros b [= <-]. done.
Qed.

Lemma sort_keyed_ranked {A} (l : list (A * float)) :
  ranked (Builtin.sort_keyed l).
Proof.
  induction l as [|x rest IH]; simpl; [apply adjacent_nil|].
  by apply insert_sorted_ranked.
Qed.

Lemma map_outcome_zip {A B} (f : A -> outcome B) (l : list A) (ys : list B) :
  Py.map_outcome f l = Ok ys ->
  length ys = length l /\ Forall (fun p => f p.1 = Ok p.2) (zip l ys).
Proof.
  revert ys. induction l as [|x rest IH]; intros ys H; simpl in H.
  - by injection H as <-.
  - apply bind_Ok_inv in H as (y & Hy & H).
    apply bind_Ok_inv in H as (ys' & Hys' & H). injection H as <-.
    destruct (IH _ Hys') as [Hlen Hall]. split; [simpl; by rewrite Hlen|].
    simpl. by apply Forall_cons.
Qed.

Lemma initialize_population_length (c : CVRP) (size : Z) (fuel : nat) :
  forall population t population' t',
    (length population <= Z.to_nat size)%nat ->
    GeneticAlgorithm._initialize_population fuel c size population t
    = Ok (population', t') ->
    length population' = Z.to_nat size.
Proof.
  induction fuel as [|fuel IH]; intros population t population' t' Hlen H;
    simpl in H;
    destruct (Z.ltb_spec (Z.of_nat (length population)) size);
    try discriminate;
    try (unfold mret, rand_ret in H; injection H as <- _; lia).
  apply rand_bind_Ok_inv in H as (s & t1 & _ & H).
  apply rand_bind_Ok_inv in H as (ok & t2 & _ & H).
  eapply IH; [|exact H]. destruct ok; [|done].
  rewrite length_app. simpl. lia.
Qed.

Lemma offspring_length (g : GeneticAlgorithm.t) (population : list solution)
    (fuel : nat) :
  forall new_pop t new_pop' t',
    (length new_pop <= Z.to_nat (GeneticAlgorithm.pop_size g))%nat ->
    GeneticAlgorithm.offspring fuel g population new_pop t
    = Ok (new_pop', t') ->
    length new_pop' = Z.to_nat (GeneticAlgorithm.pop_size g) /\
    new_pop `prefix_of` new_pop'.
Proof.
  induction fuel as [|fuel IH]; intros new_pop t new_pop' t' Hlen H;
    simpl in H;
    destruct (Z.ltb_spec (Z.of_nat (length new_pop))
                (GeneticAlgorithm.pop_size g));
    try discriminate;
    try (unfold mret, rand_ret in H; injection H as <- _; split; [lia|done]).
  apply rand_bind_Ok_inv in H as (parent1 & t1 & _ & H).
  apply rand_bind_Ok_inv in H as (parent2 & t2 & _ & H).
  apply rand_bind_Ok_inv in H as (u & t3 & _ & H).
  apply rand_bind_Ok_inv in H as (child & t4 & _ & H).
  apply rand_bind_Ok_inv in H as (child' & t5 & _ & H).
  apply rand_bind_Ok_inv in H as (ok & t6 & _ & H).
  apply IH in H.
  - destruct H as [Hsize Hprefix]. split; [done|].
    destruct ok; [|done]. etrans; [|exact Hprefix]. by apply prefix_app_r.
  - destruct ok; [|done]. rewrite length_app. simpl. lia.
Qed.

Lemma slice_to_length {A} (l : list A) (k : Z) :
  (length (Py.slice_to l k) <= length l)%nat.
Proof.
  unfold Py.slice_to. destruct (k <? 0); rewrite length_take; lia.
Qed.

(** X17: the genetic strategy keeps its population at [pop_size]
    individuals: [__init__] builds exactly that many, and every generation
    that starts from that many ends with that many.  The new population
    begins with the elites, that is, with the first [elitism] individuals of
    the old population ranked by fitness (no individual of the ranking has a
    fitness strictly below its predecessor's), unchanged. *)
Theorem genetic_population_size_and_elites (lib : numlib) (fuel : nat)
    (t : tape) :
  (forall c size gens mrate crate tsize elite g t',
     GeneticAlgorithm.__init__ fuel c size gens mrate crate tsize elite t
     = Ok (g, t') ->
     GeneticAlgorithm.pop_size g = size /\
     length (GeneticAlgorithm.population g) = Z.to_nat size) /\
  (forall g population st population' st' t',
     GeneticAlgorithm.generation lib fuel g (population, st) t
     = Ok ((population', st'), t') ->
     length population = Z.to_nat (GeneticAlgorithm.pop_size g) ->
     length population' = Z.to_nat (GeneticAlgorithm.pop_size g) /\
     exists ranking : list (solution * float),
       ranking.*1 ≡ₚ population /\
       Forall (fun p => GeneticAlgorithm._calculate_fitness
                          (GeneticAlgorithm.cvrp g) p.1 = Ok p.2) ranking /\
       ranked ranking /\
       Py.slice_to ranking.*1 (GeneticAlgorithm.elitism g)
         `prefix_of` population').
Proof.
  split.
  - intros c size gens mrate crate tsize elite g t' H.
    unfold GeneticAlgorithm.__init__ in H.
    apply rand_bind_Ok_inv in H as (n & t1 & _ & H).
    apply rand_bind_Ok_inv in H as (e & t2 & _ & H).
    apply rand_bind_Ok_inv in H as (pop & t3 & Hpop & H).
    injection H as <- _. simpl. split; [done|].
    eapply initialize_population_length; [|exact Hpop]. simpl. lia.
  - intros g population st population' st' t' H Hsize.
    unfold GeneticAlgorithm.generation in H.
    apply rand_bind_Ok_inv in H as (fitness & t1 & Hfit & H).
    apply lift_Ok_inv in Hfit as [Hfit _].
    apply map_outcome_zip in Hfit as [Hlen Hkeys].
    apply rand_bind_Ok_inv in H as (lo & t2 & _ & H).
    apply rand_bind_Ok_inv in H as (hi & t3 & _ & H).
    apply rand_bind_Ok_inv in H as (new_pop & t4 & Hoff & H).
    injection H as <- _ _.
    assert (Hperm : (Builtin.sort_keyed (zip population fitness)).*1
                    ≡ₚ population).
    { rewrite sort_keyed_Permutation. rewrite fst_zip; [done|lia]. }
    apply offspring_length in Hoff as [Hnew Hprefix].
    + split; [done|]. exists (Builtin.sort_keyed (zip population fitness)).
      split; [done|]. split; [|split; [apply sort_keyed_ranked|done]].
      by rewrite sort_keyed_Permutation.
    + etrans; [apply slice_to_length|].
      apply Permutation_length in Hperm.
      change (length (map fst (Builtin.sort_keyed (zip population fitness)))
              = length population) in Hperm.
      lia.
Qed.

Lemma genetic_population_size_and_elites_witness :
  exists g t',
    GeneticAlgorithm.__init__ 4 scenario_model 2 1 (decimal 15 100)
      (decimal 85 100) 2 (decimal 1 10) [3; 1; 4; 1; 5; 9; 2; 6]%N
    = Ok (g, t') /\
    length (GeneticAlgorithm.population g) = 2%nat.
Proof.
  destruct (GeneticAlgorithm.__init__ 4 scenario_model 2 1 (decimal 15 100)
              (decimal 85 100) 2 (decimal 1 10) [3; 1; 4; 1; 5; 9; 2; 6]%N)
    as [[g t']| |] eqn:Hinit; [|vm_compute in Hinit; discriminate..].
  exists g, t'. split; [reflexivity|].
  exact (proj2 (proj1 (genetic_population_size_and_elites plain_numlib 4 _)
                  _ _ _ _ _ _ _ _ _ Hinit)).
Defined.

(** ** The genetic strategy on small models *)

Lemma sample_pair_raises (n : nat) (t : tape) :
  (n < 2)%nat -> Random.sample_pair n t = Raise ValueError.
Proof.
  intros Hn. unfold Random.sample_pair, Random.sample.
  rewrite length_seq.
  destruct (Z.ltb_spec (Z.of_nat n) 2); [|lia]. done.
Qed.

(** X18: the genetic operators need customers to work on.  On a model with
    fewer than three customers [_ordered_crossover] of a valid parent raises
    [ValueError] (it draws two cut points from the ordering without its last
    customer); on a model with fewer than two, [_mutate] of a valid solution
    raises [ValueError] whenever the mutation is applied. *)
Theorem genetic_operators_need_customers (c : CVRP) :
  (forall parent1 parent2 t,
     valid c parent1 -> (length (customers_of c) < 3)%nat ->
     GeneticAlgorithm._ordered_crossover c parent1 parent2 t
     = Raise ValueError) /\
  (forall rate s t u t1,
     valid c s -> (length (customers_of c) < 2)%nat ->
     Random.random t = Ok (u, t1) -> Float.ltb u rate = true ->
     GeneticAlgorithm._mutate c rate s t = Raise ValueError).
Proof.
  split.
  - intros parent1 parent2 t Hvalid Hn.
    unfold GeneticAlgorithm._ordered_crossover.
    unfold mbind at 1, rand_bind at 1. rewrite sample_pair_raises; [done|].
    unfold Py.drop_last. rewrite length_take.
    rewrite (flatten_nonzero_valid c), (valid_length c) by done. lia.
  - intros rate s t u t1 Hvalid Hn Hu Hlt. unfold GeneticAlgorithm._mutate.
    rewrite (rand_bind_Ok _ _ _ _ _ Hu), Hlt.
    unfold mbind at 1, rand_bind at 1. rewrite sample_pair_raises; [done|].
    rewrite (flatten_nonzero_valid c), (valid_length c) by done. lia.
Qed.

Lemma genetic_operators_need_customers_witness :
  GeneticAlgorithm._ordered_crossover single_model [[0; 1; 0]] [[0; 1; 0]] []
  = Raise ValueError.
Proof.
  apply (proj1 (genetic_operators_need_customers single_model)).
  - vm_compute. reflexivity.
  - vm_compute. lia.
Defined.

(** ** Tabu search: how many neighbours are generated *)

(** X19: [_generate_neighbors] never returns an empty list.  When the
    current solution serves fewer than two customers, or the neighbourhood
    size is zero or less, it returns the current solution alone; otherwise it
    returns exactly [neighborhood_size] neighbours. *)
Theorem generate_neighbors_count (c : CVRP) (size : Z) (s : solution)
    (t : tape) (ns : list solution) (t' : tape) :
  TabuSearch._generate_neighbors c size s t = Ok (ns, t') ->
  ns <> [] /\
  ((length (flatten_interiors s) < 2)%nat \/ size <= 0 -> ns = [s]) /\
  ((2 <= length (flatten_interiors s))%nat -> 1 <= size ->
   length ns = Z.to_nat size).
Proof.
  intros H. unfold TabuSearch._generate_neighbors in H.
  apply rand_bind_Ok_inv in H as (ns1 & t1 & Hloop & H).
  apply (repeat_loop_count
           (fun k (neighbors : list solution) =>
              ((length (flatten_interiors s) < 2)%nat -> neighbors = []) /\
              ((2 <= length (flatten_interiors s))%nat ->
               length neighbors = k)) _ _ 0%nat) in Hloop; [|done|].
  - destruct Hloop as [Hfew Hmany]. simpl in Hmany.
    injection H as <- _.
    destruct (Nat.ltb_spec (length (flatten_interiors s)) 2) as [Hlt|Hge].
    + rewrite (Hfew Hlt). split; [done|]. split; [done|]. lia.
    + specialize (Hmany Hge). destruct ns1 as [|n ns1].
      * split; [done|]. split; [done|]. simpl in Hmany. lia.
      * split; [done|]. split; [|done]. intros [?|?]; [lia|].
        simpl in Hmany. lia.
  - clear. intros k neighbors t neighbors' t' [Hfew Hmany] H.
    apply rand_bind_Ok_inv in H as (n & t1 & Hn & H).
    injection H as <- _. unfold swap_neighbor in Hn.
    destruct (Nat.ltb_spec (length (flatten_interiors s)) 2) as [Hlt|Hge].
    + injection Hn as <- _. split; [done|lia].
    + apply rand_bind_Ok_inv in Hn as ([i j] & t2 & _ & Hn).
      apply rand_bind_Ok_inv in Hn as (s' & t3 & _ & Hn).
      injection Hn as <- _. split; [lia|]. intros _.
      rewrite length_app, (Hmany Hge). simpl. lia.
Qed.

Lemma generate_neighbors_count_witness :
  exists ns t',
    TabuSearch._generate_neighbors scenario_model 3
      [[0; 1; 2; 0]; [0; 3; 4; 0]] [1; 2]%N = Ok (ns, t') /\
    length ns = 3%nat.
Proof.
  destruct (TabuSearch._generate_neighbors scenario_model 3
              [[0; 1; 2; 0]; [0; 3; 4; 0]] [1; 2]%N)
    as [[ns t']| |] eqn:Hrun; [|vm_compute in Hrun; discriminate..].
  exists ns, t'. split; [reflexivity|].
  apply (generate_neighbors_count _ _ _ _ _ _ Hrun); [simpl; lia|lia].
Defined.

(** ** Lengths are numbers when the coordinates are finite *)

Lemma shr_1_nonneg (mrs : shr_record) :
  0 <= shr_m mrs -> 0 <= shr_m (shr_1 mrs).
Proof. destruct mrs as [[|[p|p|]|[p|p|]] r s]; simpl; lia. Qed.

Lemma iter_pos_invariant {A} (P : A -> Prop) (f : A -> A) :
  (forall x, P x -> P (f x)) ->
  forall n x, P x -> P (SpecFloat.iter_pos f n x).
Proof.
  intros Hf. induction n as [n IH|n IH|]; intros x Hx; simpl; auto.
Qed.

Lemma shr_fexp_nonneg (m e : Z) (l : location) :
  0 <= m -> 0 <= shr_m (shr_fexp Float.prec Float.emax m e l).1.
Proof.
  intros Hm. unfold shr_fexp, shr.
  assert (H0 : 0 <= shr_m (shr_record_of_loc m l)) by by destruct l as [|[]].
  destruct (_ - e); simpl; try done.
  apply (iter_pos_invariant (fun mrs => 0 <= shr_m mrs)); [|done].
  apply shr_1_nonneg.
Qed.

Lemma round_nearest_even_nonneg (m : Z) (l : location) :
  0 <= m -> 0 <= round_nearest_even m l.
Proof.
  intros Hm. destruct l as [|[]]; simpl; try lia. destruct (Z.even m); lia.
Qed.

Lemma binary_round_aux_not_nan (sx : bool) (mx ex : Z) (lx : location) :
  0 <= mx ->
  Float.is_nan (binary_round_aux Float.prec Float.emax sx mx ex lx) = false.
Proof.
  intros Hm. unfold binary_round_aux.
  pose proof (shr_fexp_nonneg mx ex lx Hm) as H1.
  destruct (shr_fexp _ _ mx ex lx) as [mrs' e']. simpl in H1.
  pose proof (shr_fexp_nonneg
                (round_nearest_even (shr_m mrs') (loc_of_shr_record mrs'))
                e' loc_Exact (round_nearest_even_nonneg _ _ H1)) as H2.
  destruct (shr_fexp _ _ _ e' loc_Exact) as [mrs'' e'']. simpl in H2.
  destruct (shr_m mrs''); simpl; [done| |lia].
  by destruct (Z.leb _ _).
Qed.

Lemma binary_round_not_nan (sx : bool) (mx : positive) (ex : Z) :
  Float.is_nan (binary_round Float.prec Float.emax sx mx ex) = false.
Proof.
  unfold binary_round. destruct (shl_align _ _ _) as [mz ez].
  by apply binary_round_aux_not_nan.
Qed.

Lemma binary_normalize_not_nan (m e : Z) (b : bool) :
  Float.is_nan (binary_normalize Float.prec Float.emax m e b) = false.
Proof. destruct m; simpl; [done|apply binary_round_not_nan..]. Qed.

Lemma sub_not_nan (x y : float) :
  finite x -> finite y -> Float.is_nan (Float.sub x y) = false.
Proof.
  destruct x as [sx|sx| |sx mx ex], y as [sy|sy| |sy my ey]; simpl;
    try done; intros _ _.
  - by destruct sx, sy.
  - apply binary_normalize_not_nan.
Qed.

Lemma pow2_length (x r : float) :
  Float.is_nan x = false -> Float.pow2 x = Ok r -> is_length r.
Proof.
  intros Hx H. split; [by eapply pow2_sign_clear|].
  destruct x as [s|s| |s m e]; simpl in H; try discriminate;
    try (by injection H as <-).
  destruct (Float.is_inf _); [discriminate|]. injection H as <-.
  by apply binary_round_aux_not_nan.
Qed.

Lemma add_length (x y : float) :
  is_length x -> is_length y -> is_length (Float.add x y).
Proof.
  intros [Hsx Hx] [Hsy Hy]. split; [by apply add_sign_clear|].
  destruct x as [sx|sx| |sx mx ex], y as [sy|sy| |sy my ey]; simpl in *;
    try done; subst; try done.
  apply binary_round_not_nan.
Qed.

Lemma sqrt_length (x : float) :
  is_length x -> exists r, Float.sqrt x = Ok r /\ is_length r.
Proof.
  intros [Hs Hx]. destruct (sqrt_sign_clear x Hs) as (r & Hr & Hsr).
  exists r. split; [done|]. split; [done|].
  destruct x as [s|s| |s m e]; simpl in *; subst; try discriminate;
    try (by injection Hr as <-).
  injection Hr as <-. unfold SFsqrt, SFsqrt_core_binary.
  match goal with
  | |- context [Z.sqrtrem ?n] =>
      pose proof (Z.sqrtrem_spec n) as Hspec; destruct (Z.sqrtrem n) as [q rem]
  end.
  apply binary_round_aux_not_nan.
  assert (0 <= q /\ True) as [Hq _]; [|done].
  split; [|done].
  match type of Hspec with
  | 0 <= ?n -> _ => assert (Hn : 0 <= n)
  end.
  { destruct (_ - _); [lia| |lia]. apply Z.shiftl_nonneg. lia. }
  specialize (Hspec Hn). lia.
Qed.

Lemma euclidean_length (p q : point) :
  finite_point p -> finite_point q ->
  returns_or_overflows is_length (euclidean p q).
Proof.
  destruct p as [x1 y1], q as [x2 y2]. intros [Hx1 Hy1] [Hx2 Hy2].
  simpl in *. unfold euclidean.
  pose proof (pow2_outcome (Float.sub x2 x1)) as Hx.
  destruct (Float.pow2 (Float.sub x2 x1)) as [dx2|[]|] eqn:Ex; simpl in *;
    try done.
  pose proof (pow2_outcome (Float.sub y2 y1)) as Hy.
  destruct (Float.pow2 (Float.sub y2 y1)) as [dy2|[]|] eqn:Ey; simpl in *;
    try done.
  apply pow2_length in Ex; [|by apply sub_not_nan].
  apply pow2_length in Ey; [|by apply sub_not_nan].
  by destruct (sqrt_length (Float.add dx2 dy2) (add_length _ _ Ex Ey))
    as (r & -> & Hr).
Qed.

Lemma zero_length : is_length Float.zero.
Proof. done. Qed.

Lemma constructed_matrix_lengths (depot : point) (locs : list point)
    (dems : list Z) (cap : Z) (c : CVRP) :
  CVRP_init depot locs dems cap = Ok c ->
  Forall finite_point (depot :: locs) ->
  Forall (Forall is_length) (distance_matrix c).
Proof.
  intros H Hfin. apply CVRP_init_inv in H as (Hloc & _ & _ & H).
  pose proof (create_distance_matrix_entries is_length (locations c)
                zero_length) as Hm.
  rewrite H in Hm. apply Hm. intros p q Hp Hq. rewrite Hloc in Hp, Hq.
  apply euclidean_length; by eapply (proj1 (Forall_forall _ _)) in Hfin.
Qed.

(** X20: when the depot and every customer have finite coordinates, no
    route length and no solution cost is NaN: what
    [calculate_route_distance] and [_calculate_cost] return is a number that
    is not below zero, [+inf] at most, so that any two costs compare. *)
Theorem costs_are_numbers (depot : point) (locs : list point)
    (dems : list Z) (cap : Z) (c : CVRP) :
  CVRP_init depot locs dems cap = Ok c ->
  Forall finite_point (depot :: locs) ->
  (forall route d, calculate_route_distance c route = Ok d ->
                   Float.is_nan d = false /\ Float.ltb d Float.zero = false) /\
  (forall s cost, _calculate_cost c s = Ok cost ->
                  Float.is_nan cost = false /\
                  Float.ltb cost Float.zero = false).
Proof.
  intros Hc Hfin.
  pose proof (constructed_matrix_lengths _ _ _ _ _ Hc Hfin) as Hall. split.
  - intros route d H.
    apply (route_distance_from_closed is_length _ route add_length Hall
             Float.zero _ zero_length) in H as [Hs Hn].
    split; [done|by apply sign_clear_not_below_zero].
  - intros s cost H.
    apply (sum_route_distances_closed is_length c s add_length zero_length
             Hall Float.zero _ zero_length) in H as [Hs Hn].
    split; [done|by apply sign_clear_not_below_zero].
Qed.

Lemma costs_are_numbers_witness :
  _calculate_cost scenario_model [[0; 1; 2; 0]; [0; 3; 4; 0]]
  = Ok scenario_cost /\
  Float.is_nan scenario_cost = false /\
  Float.ltb scenario_cost Float.zero = false.
Proof.
  assert (H : _calculate_cost scenario_model [[0; 1; 2; 0]; [0; 3; 4; 0]]
              = Ok scenario_cost) by (vm_compute; reflexivity).
  split; [exact H|].
  refine (proj2 (costs_are_numbers _ _ _ _ _ scenario_model_built _) _ _ H).
  repeat (apply Forall_cons; split; [by split|]). apply Forall_nil_2.
Defined.

(** ** The reported best of random sampling and of the greedy strategy *)

Lemma length_below_inf (x : float) :
  is_length x -> Float.ltb x Float.inf = true \/ x = Float.inf.
Proof.
  intros [Hs Hn]. destruct x as [s|s| |s m e]; simpl in *; subst;
    try discriminate; by (left + right).
Qed.

Lemma min_from_inf (x : float) (rest : list float) :
  is_length x ->
  Builtin.min_from Float.inf (x :: rest) = Builtin.min_from x rest.
Proof.
  intros Hx. simpl. destruct (length_below_inf x Hx) as [->| ->]; [done|].
  by rewrite ltb_inf_r.
Qed.

Lemma argmin_from_spec (l : list float) :
  forall best_idx best idx,
    Float.is_nan best = false ->
    Forall (fun x => Float.is_nan x = false) l ->
    let j := Builtin.argmin_from best_idx best idx l in
    (j = best_idx /\ Builtin.min_from best l = best) \/
    ((idx <= j)%nat /\ l !! (j - idx)%nat = Some (Builtin.min_from best l)).
Proof.
  induction l as [|x rest IH]; intros bi b i Hb Hall; simpl; [by left|].
  apply Forall_cons in Hall as [Hx Hall]. rewrite Hb, Hx. simpl.
  destruct (Float.ltb x b).
  - right. destruct (IH i x (S i) Hx Hall) as [[-> ->]|[Hle Hj]].
    + split; [lia|]. by rewrite Nat.sub_diag.
    + split; [lia|].
      replace (Builtin.argmin_from i x (S i) rest - i)%nat
        with (S (Builtin.argmin_from i x (S i) rest - S i)) by lia.
      done.
  - destruct (IH bi b (S i) Hb Hall) as [[-> ->]|[Hle Hj]]; [by left|].
    right. split; [lia|].
    replace (Builtin.argmin_from bi b (S i) rest - i)%nat
      with (S (Builtin.argmin_from bi b (S i) rest - S i)) by lia.
    done.
Qed.

Lemma argmin_min (l : list float) (i : nat) (lo : float) :
  Forall (fun x => Float.is_nan x = false) l ->
  Builtin.argmin l = Ok i -> Builtin.min l = Ok lo -> l !! i = Some lo.
Proof.
  intros Hall. destruct l as [|x rest]; [discriminate|]. simpl.
  intros [= <-] [= <-]. apply Forall_cons in Hall as [Hx Hall].
  destruct (argmin_from_spec rest 0 x 1 Hx Hall) as [[-> ->]|[Hle Hj]];
    [done|].
  destruct (Builtin.argmin_from 0 x 1 rest) as [|j]; [lia|].
  simpl in *. by rewrite Nat.sub_0_r in Hj.
Qed.

(** X21: when the depot and every customer have finite coordinates, the
    best distance that random sampling and the greedy strategy report is
    the cost of the best solution they report.  Random sampling reports no
    solution ([None]) only together with the best distance [+inf]. *)
Theorem sampled_best_distance_is_cost_of_best_solution (depot : point)
    (locs : list point) (dems : list Z) (cap : Z) (c : CVRP) (lib : numlib)
    (t : tape) (r : result) (t' : tape) :
  CVRP_init depot locs dems cap = Ok c ->
  Forall finite_point (depot :: locs) ->
  (forall n, RandomAlgorithm.run lib c n t = Ok (r, t') ->
     match best_solution r with
     | Some s => _calculate_cost c s = Ok (best_distance r)
     | None => best_distance r = Float.inf
     end) /\
  (forall fuel n, GreedyAlgorithm.run lib fuel c n t = Ok (r, t') ->
     exists s, best_solution r = Some s /\
               GreedyAlgorithm._calculate_cost c s = Ok (best_distance r)).
Proof.
  intros Hc Hfin.
  pose proof (constructed_matrix_lengths _ _ _ _ _ Hc Hfin) as Hall.
  assert (Hcost : forall s k, _calculate_cost c s = Ok k -> is_length k).
  { intros s k H.
    by apply (sum_route_distances_closed is_length c s add_length zero_length
                Hall Float.zero _ zero_length) in H. }
  split.
  - intros n H. unfold RandomAlgorithm.run in H.
    apply rand_bind_Ok_inv in H as (st & t1 & Hloop & H).
    apply lift_Ok_inv in H as [H _].
    unfold RandomAlgorithm._prepare_results in H.
    apply bind_Ok_inv in H as (lo & Hlo & H).
    apply bind_Ok_inv in H as (hi & _ & H). injection H as <-. simpl.
    apply (repeat_loop_invariant
             (fun st =>
                RandomAlgorithm.best_cost st
                = Builtin.min_from Float.inf (RandomAlgorithm.costs st) /\
                match RandomAlgorithm.best_solution st with
                | Some s => _calculate_cost c s
                            = Ok (RandomAlgorithm.best_cost st)
                | None => RandomAlgorithm.best_cost st = Float.inf
                end /\
                Forall is_length (RandomAlgorithm.costs st)))
      in Hloop; [|done|].
    + destruct Hloop as (Hbest & Hsol & Hcosts).
      destruct (RandomAlgorithm.costs st) as [|x rest]; [discriminate|].
      apply Forall_cons in Hcosts as [Hx _].
      rewrite min_from_inf in Hbest by done.
      simpl in Hlo. injection Hlo as <-. by rewrite <- Hbest.
    + clear -Hcost. intros st t st' t' (Hbest & Hsol & Hcosts) H.
      unfold RandomAlgorithm.iteration in H.
      apply rand_bind_Ok_inv in H as (s1 & t1 & _ & H).
      apply rand_bind_Ok_inv in H as (cost & t2 & Hc & H).
      apply lift_Ok_inv in Hc as [Hc _].
      apply rand_bind_Ok_inv in H as (stats' & t3 & _ & H).
      injection H as <- _. simpl. rewrite min_from_snoc, <- Hbest.
      split; [done|]. split.
      * by destruct (Float.ltb cost _).
      * apply Forall_app. split; [done|]. apply Forall_singleton.
        by eapply Hcost.
  - intros fuel n H. unfold GreedyAlgorithm.run in H.
    apply rand_bind_Ok_inv in H as (st & t1 & Hloop & H).
    apply rand_bind_Ok_inv in H as (idx & t2 & Hidx & H).
    apply lift_Ok_inv in Hidx as [Hidx _].
    apply rand_bind_Ok_inv in H as (best & t3 & Hbest & H).
    apply lift_Ok_inv in Hbest as [Hbest _].
    apply lift_Ok_inv in H as [H _].
    apply (repeat_loop_invariant
             (fun st =>
                Forall2 (fun s k => GreedyAlgorithm._calculate_cost c s = Ok k)
                  (GreedyAlgorithm.solutions st) (GreedyAlgorithm.costs st) /\
                Forall is_length (GreedyAlgorithm.costs st)))
      in Hloop; [|by split|].
    + destruct Hloop as [Hpairs Hcosts].
      unfold GreedyAlgorithm._prepare_results in H.
      destruct (GreedyAlgorithm.costs st) as [|x rest] eqn:E;
        [discriminate|].
      rewrite <- E in *.
      apply bind_Ok_inv in H as (lo & Hlo & H).
      apply bind_Ok_inv in H as (hi & _ & H). injection H as <-. simpl.
      exists best. split; [done|].
      rewrite index_nonneg in Hbest.
      destruct (GreedyAlgorithm.solutions st !! idx) as [b|] eqn:Hb;
        [|discriminate].
      injection Hbest as ->.
      assert (Hk : GreedyAlgorithm.costs st !! idx = Some lo).
      { apply argmin_min; [|done|done].
        eapply Forall_impl; [exact Hcosts|]. by intros k [_ Hk]. }
      by eapply Forall2_lookup_lr in Hpairs.
    + clear -Hcost. intros st t st' t' [Hpairs Hcosts] H.
      unfold GreedyAlgorithm.iteration in H.
      apply rand_bind_Ok_inv in H as (s1 & t1 & _ & H).
      apply rand_bind_Ok_inv in H as (cost & t2 & Hc & H).
      apply lift_Ok_inv in Hc as [Hc _].
      apply rand_bind_Ok_inv in H as (stats' & t3 & _ & H).
      injection H as <- _. simpl. split.
      * apply Forall2_app; [done|]. by apply Forall2_cons.
      * apply Forall_app. split; [done|]. apply Forall_singleton.
        unfold GreedyAlgorithm._calculate_cost in Hc.
        destruct s1; [by injection Hc as <-|]. by eapply Hcost.
Qed.

Lemma sampled_best_distance_is_cost_of_best_solution_witness :
  exists r t' s,
    GreedyAlgorithm.run plain_numlib 8 scenario_model 2 [3; 1]%N = Ok (r, t') /\
    best_solution r = Some s /\
    GreedyAlgorithm._calculate_cost scenario_model s = Ok (best_distance r).
Proof.
  destruct (GreedyAlgorithm.run plain_numlib 8 scenario_model 2 [3; 1]%N)
    as [[r t']| |] eqn:Hrun; [|vm_compute in Hrun; discriminate..].
  destruct (proj2 (sampled_best_distance_is_cost_of_best_solution _ _ _ _
                     scenario_model plain_numlib [3; 1]%N r t'
                     scenario_model_built
                     ltac:(repeat (apply Forall_cons; split; [by split|]);
                           apply Forall_nil_2))
              8%nat 2 Hrun) as (s & Hs & Hcost).
  exists r, t', s. split; [reflexivity|]. split; [exact Hs|exact Hcost].
Defined.

(** ** [validate_solution] returns *)

Lemma validate_solution_returns_witness :
  exists b, validate_solution single_model [[0; 1; 0]; [0; 7; 0]] = Ok b.
Proof.
  apply validate_solution_returns; [simpl; lia|].
  repeat (apply Forall_cons; split;
          [exists 0, 0; repeat split; by eexists|]).
  apply Forall_nil_2.
Defined.

(** ** Tournament selection: the sizes it accepts *)

(** X23: [_tournament_selection] raises [ValueError] unless
    [1 <= tournament_size <= len(population)]: [random.sample] refuses a
    negative size and a size above the population, and [min] refuses the
    empty tournament of size zero. *)
Theorem tournament_size_out_of_bounds (c : CVRP) (population : list solution)
    (tournament_size : Z) (t : tape) :
  tournament_size <= 0 \/ Z.of_nat (length population) < tournament_size ->
  GeneticAlgorithm._tournament_selection c population tournament_size t
  = Raise ValueError.
Proof.
  intros Hk. unfold GeneticAlgorithm._tournament_selection, Random.sample.
  destruct (Z.ltb_spec tournament_size 0); [done|].
  destruct (Z.ltb_spec (Z.of_nat (length population)) tournament_size);
    [done|].
  assert (tournament_size = 0) as -> by lia. done.
Qed.

Lemma tournament_size_out_of_bounds_witness :
  GeneticAlgorithm._tournament_selection scenario_model [route_12; route_21]
    5 [] = Raise ValueError.
Proof.
  apply tournament_size_out_of_bounds. right. simpl. lia.
Defined.

(** ** The order between the statistics series *)

Lemma min_max_from (x : float) (l : list float) :
  (Builtin.min_from x l = x \/ Float.ltb (Builtin.min_from x l) x = true) /\
  (Builtin.max_from x l = x \/ Float.ltb x (Builtin.max_from x l) = true).
Proof.
  revert x. induction l as [|y rest IH]; intros x; simpl; [by split; left|].
  split.
  - destruct (Float.ltb y x) eqn:E; [|apply IH].
    destruct (proj1 (IH y)) as [->|H]; [by right|].
    right. by eapply ltb_trans.
  - destruct (Float.ltb x y) eqn:E; [|apply IH].
    destruct (proj2 (IH y)) as [->|H]; [by right|].
    right. by eapply ltb_trans.
Qed.

Lemma max_not_below_min (l : list float) (lo hi : float) :
  Builtin.min l = Ok lo -> Builtin.max l = Ok hi -> Float.ltb hi lo = false.
Proof.
  destruct l as [|x rest]; [discriminate|]. simpl. intros [= <-] [= <-].
  destruct (min_max_from x rest) as [[->|Hlo] [->|Hhi]].
  - apply ltb_irrefl.
  - by apply ltb_asym.
  - by apply ltb_asym.
  - apply ltb_asym. by eapply ltb_trans.
Qed.

Lemma never_below_snoc (lower upper : list float) (lo hi : float) :
  never_below lower upper -> Float.ltb hi lo = false ->
  never_below (lower ++ [lo]) (upper ++ [hi]).
Proof. intros H Hlt. apply Forall2_app; [done|]. by apply Forall2_cons. Qed.

Lemma move_current_not_below_best (tabu_size : Z) (st : TabuSearch.state)
    (neighbor_costs : list (solution * float)) :
  Float.ltb (TabuSearch.current_cost st) (TabuSearch.best_cost st) = false ->
  let st' := TabuSearch.move tabu_size st neighbor_costs in
  Float.ltb (TabuSearch.current_cost st') (TabuSearch.best_cost st') = false.
Proof.
  intros Hst. unfold TabuSearch.move.
  pose proof (best_non_tabu_from_none (TabuSearch.tabu_list st)
                neighbor_costs) as Hsel.
  destruct (TabuSearch.best_non_tabu _ _ _ _) as [[[|r chosen]|] cost]; simpl.
  - destruct (Float.ltb cost (TabuSearch.best_cost st)) eqn:E; [|done].
    destruct (Float.ltb (TabuSearch.current_cost st) cost) eqn:E'; [|done].
    by rewrite (ltb_trans _ _ _ E' E) in Hst.
  - destruct (Float.ltb cost (TabuSearch.best_cost st)) eqn:E; [|done].
    apply ltb_irrefl.
  - destruct Hsel as [-> _]. by rewrite ltb_inf_r.
Qed.

(** X24: the statistics series of a run of a newly constructed strategy are
    ordered.  In the result of random sampling and of the greedy strategy no entry of the ['worst'] series is
    below the entry of the ['best'] series for the same iteration; in the
    result of annealing and of tabu search no entry of the ['current'] series
    is below the entry of the ['best'] series: the current cost is never
    better than the best cost found. *)
Theorem statistics_series_ordered (lib : numlib) (c : CVRP) (t : tape)
    (r : result) (t' : tape) :
  (forall n, RandomAlgorithm.run lib c n t = Ok (r, t') ->
     never_below (stats_best (result_stats r))
       (stats_worst (result_stats r))) /\
  (forall fuel n, GreedyAlgorithm.run lib fuel c n t = Ok (r, t') ->
     never_below (stats_best (result_stats r))
       (stats_worst (result_stats r))) /\
  (forall temp rate n,
     SimulatedAnnealing.run lib c temp rate n t = Ok (r, t') ->
     never_below (stats_best (result_stats r))
       (stats_middle (result_stats r))) /\
  (forall tabu_size size n,
     TabuSearch.run lib c n tabu_size size t = Ok (r, t') ->
     never_below (stats_best (result_stats r))
       (stats_middle (result_stats r))).
Proof.
  split; [|split; [|split]].
  - intros n H. unfold RandomAlgorithm.run in H.
    apply rand_bind_Ok_inv in H as (st & t1 & Hloop & H).
    apply lift_Ok_inv in H as [H _].
    unfold RandomAlgorithm._prepare_results in H.
    apply bind_Ok_inv in H as (lo & _ & H).
    apply bind_Ok_inv in H as (hi & _ & H). injection H as <-. simpl.
    eapply (repeat_loop_invariant
              (fun st => never_below
                           (stats_best (RandomAlgorithm.run_stats st))
                           (stats_worst (RandomAlgorithm.run_stats st))));
      [| |exact Hloop]; [by apply Forall2_nil|].
    clear. intros st t st' t' Hst H. unfold RandomAlgorithm.iteration in H.
    apply rand_bind_Ok_inv in H as (s1 & t1 & _ & H).
    apply rand_bind_Ok_inv in H as (cost & t2 & _ & H).
    apply rand_bind_Ok_inv in H as (stats' & t3 & Hstats & H).
    injection H as <- _. simpl. apply lift_Ok_inv in Hstats as [Hstats _].
    unfold RandomAlgorithm._update_stats in Hstats.
    apply bind_Ok_inv in Hstats as (lo & Hlo & Hstats).
    apply bind_Ok_inv in Hstats as (hi & Hhi & Hstats). injection Hstats as <-.
    simpl. apply never_below_snoc; [done|]. by eapply max_not_below_min.
  - intros fuel n H. unfold GreedyAlgorithm.run in H.
    apply rand_bind_Ok_inv in H as (st & t1 & Hloop & H).
    apply rand_bind_Ok_inv in H as (idx & t2 & _ & H).
    apply rand_bind_Ok_inv in H as (best & t3 & _ & H).
    apply lift_Ok_inv in H as [H _].
    assert (Hr : result_stats r = GreedyAlgorithm.run_stats st).
    { unfold GreedyAlgorithm._prepare_results in H.
      destruct (GreedyAlgorithm.costs st); [by injection H as <-|].
      apply bind_Ok_inv in H as (lo & _ & H).
      apply bind_Ok_inv in H as (hi & _ & H). by injection H as <-. }
    rewrite Hr.
    eapply (repeat_loop_invariant
              (fun st => never_below
                           (stats_best (GreedyAlgorithm.run_stats st))
                           (stats_worst (GreedyAlgorithm.run_stats st))));
      [| |exact Hloop]; [by apply Forall2_nil|].
    clear. intros st t st' t' Hst H. unfold GreedyAlgorithm.iteration in H.
    apply rand_bind_Ok_inv in H as (s1 & t1 & _ & H).
    apply rand_bind_Ok_inv in H as (cost & t2 & _ & H).
    apply rand_bind_Ok_inv in H as (stats' & t3 & Hstats & H).
    injection H as <- _. simpl. apply lift_Ok_inv in Hstats as [Hstats _].
    unfold GreedyAlgorithm._update_stats in Hstats.
    destruct (GreedyAlgorithm.costs st ++ [cost]) as [|x rest] eqn:E.
    { by destruct (GreedyAlgorithm.costs st). }
    rewrite <- E in *. clear E x rest.
    apply bind_Ok_inv in Hstats as (lo & Hlo & Hstats).
    apply bind_Ok_inv in Hstats as (hi & Hhi & Hstats). injection Hstats as <-.
    simpl. apply never_below_snoc; [done|]. by eapply max_not_below_min.
  - intros temp rate n H. unfold SimulatedAnnealing.run in H.
    apply rand_bind_Ok_inv in H as (s0 & t1 & _ & H).
    apply rand_bind_Ok_inv in H as (c0 & t2 & _ & H).
    apply rand_bind_Ok_inv in H as (st & t3 & Hloop & H).
    apply lift_Ok_inv in H as [H _].
    unfold trajectory_prepare_results in H.
    apply bind_Ok_inv in H as (w & _ & H). injection H as <-. simpl.
    apply (repeat_loop_invariant
             (fun st =>
                Float.ltb (SimulatedAnnealing.current_cost st)
                  (SimulatedAnnealing.best_cost st) = false /\
                never_below (stats_best (SimulatedAnnealing.run_stats st))
                  (stats_middle (SimulatedAnnealing.run_stats st))))
      in Hloop; [by destruct Hloop| |].
    { split; [apply ltb_irrefl|by apply Forall2_nil]. }
    clear. intros st t st' t' [Hcur Hst] H.
    unfold SimulatedAnnealing.iteration in H.
    apply rand_bind_Ok_inv in H as (s1 & t1 & _ & H).
    apply rand_bind_Ok_inv in H as (cost & t2 & _ & H).
    apply rand_bind_Ok_inv in H as (accept & t3 & _ & H).
    apply rand_bind_Ok_inv in H as (stats' & t4 & Hstats & H).
    injection H as <- _. simpl. apply lift_Ok_inv in Hstats as [Hstats _].
    unfold trajectory_update_stats in Hstats.
    apply bind_Ok_inv in Hstats as (w & _ & Hstats). injection Hstats as <-.
    simpl.
    assert (Hnew : Float.ltb (if accept then cost
                              else SimulatedAnnealing.current_cost st)
                     (if accept && Float.ltb cost
                                     (SimulatedAnnealing.best_cost st)
                      then cost else SimulatedAnnealing.best_cost st)
                   = false).
    { destruct accept; simpl; [|done].
      destruct (Float.ltb cost (SimulatedAnnealing.best_cost st)) eqn:E;
        [apply ltb_irrefl|done]. }
    split; [done|]. by apply never_below_snoc.
  - intros tabu_size size n H. unfold TabuSearch.run in H.
    apply rand_bind_Ok_inv in H as (s0 & t1 & _ & H).
    apply rand_bind_Ok_inv in H as (c0 & t2 & _ & H).
    apply rand_bind_Ok_inv in H as (st & t3 & Hloop & H).
    apply lift_Ok_inv in H as [H _].
    unfold trajectory_prepare_results in H.
    apply bind_Ok_inv in H as (w & _ & H). injection H as <-. simpl.
    apply (repeat_loop_invariant
             (fun st =>
                Float.ltb (TabuSearch.current_cost st)
                  (TabuSearch.best_cost st) = false /\
                never_below (stats_best (TabuSearch.run_stats st))
                  (stats_middle (TabuSearch.run_stats st))))
      in Hloop; [by destruct Hloop| |].
    { split; [apply ltb_irrefl|by apply Forall2_nil]. }
    clear. intros st t st' t' [Hcur Hst] H. unfold TabuSearch.iteration in H.
    apply rand_bind_Ok_inv in H as (ns & t1 & _ & H).
    apply rand_bind_Ok_inv in H as (ncs & t2 & _ & H).
    apply rand_bind_Ok_inv in H as (stats' & t3 & Hstats & H).
    injection H as <- _. simpl. apply lift_Ok_inv in Hstats as [Hstats _].
    unfold trajectory_update_stats in Hstats.
    apply bind_Ok_inv in Hstats as (w & _ & Hstats). injection Hstats as <-.
    simpl.
    assert (E : TabuSearch.run_stats (TabuSearch.move tabu_size st ncs)
                = TabuSearch.run_stats st).
    { unfold TabuSearch.move.
      by destruct (TabuSearch.best_non_tabu _ _ _ _) as [[[|? ?]|] ?]. }
    rewrite E.
    pose proof (move_current_not_below_best tabu_size st ncs Hcur) as Hnew.
    split; [done|]. by apply never_below_snoc.
Qed.

Lemma statistics_series_ordered_witness :
  exists r t',
    SimulatedAnnealing.run plain_numlib scenario_model (Float.of_Z 1000)
      (decimal 95 100) 3 [4; 2]%N = Ok (r, t') /\
    never_below (stats_best (result_stats r)) (stats_middle (result_stats r)).
Proof.
  destruct (SimulatedAnnealing.run plain_numlib scenario_model
              (Float.of_Z 1000) (decimal 95 100) 3 [4; 2]%N)
    as [[r t']| |] eqn:Hrun; [|vm_compute in Hrun; discriminate..].
  exists r, t'. split; [reflexivity|].
  exact (proj1 (proj2 (proj2 (statistics_series_ordered plain_numlib
                                scenario_model [4; 2]%N r t'))) _ _ _ Hrun).
Defined.
